(** * Auto_Bidding: token correlation and reply capture

    A shallow embedding of the core of the repository (config.py, db.py,
    mailer.py, poller.py, and the file names and the prompt of
    bidding_comparison.py) and the properties of that core.

    Conventions.
    - A Python [str] is a list of Unicode code points ([N]); literals are
      written [lit "..."].
    - The three SQLite tables are lists of rows in ascending [id] order
      ([id INTEGER PRIMARY KEY AUTOINCREMENT]: a new row always receives an
      id above every id present, so it goes to the end of the list).  A
      column value is [option str]: [None] is SQL NULL.
    - Outlook, the clock, the random source and the file system are the
      environment.  What the program reads from them is data of the model
      (a mail item is a record of the properties the code reads); what it
      writes (files, sent mail, log rows) is the [world] that every
      operation threads through.
    - Library functions whose definition plays no role here (SHA-256,
      [str.lower] on arbitrary Unicode, [json.dumps], the markup-stripping
      substitutions) are the fields of the [Runtime] class. *)

From Stdlib Require Import NArith ZArith Ascii String Decimal DecimalString DecimalN
  Hexadecimal HexadecimalString HexadecimalN Lia.
From stdpp Require Import base option list gmap sets.

Set Default Proof Using "Type".
Local Open Scope N_scope.

(** ** Python strings *)

Abbreviation char := N (only parsing).
Abbreviation str := (list N) (only parsing).

(** The code points of an ASCII literal. *)
Fixpoint lit (s : string) : str :=
  match s with
  | EmptyString => []
  | String a s' => N_of_ascii a :: lit s'
  end.

Definition chr (a : ascii) : char := N_of_ascii a.

(** Truthiness of a string: [if s], [s or default]. *)
Definition truthy (s : str) : bool :=
  match s with [] => false | _ :: _ => true end.

Definition str_or (s d : str) : str := if truthy s then s else d.

(** [v or ''] for a value that may be absent or [None]. *)
Definition or_empty (v : option str) : str := default [] v.

(** [str.isspace] for one character: the code points CPython classifies as
    whitespace ([_PyUnicode_IsWhitespace]). *)
Definition isspace (c : char) : bool :=
  ((9 <=? c) && (c <=? 13)) || ((28 <=? c) && (c <=? 32)) ||
  (c =? 133) || (c =? 160) || (c =? 5760) ||
  ((8192 <=? c) && (c <=? 8202)) || (c =? 8232) || (c =? 8233) ||
  (c =? 8239) || (c =? 8287) || (c =? 12288).

Fixpoint lstrip (s : str) : str :=
  match s with
  | [] => []
  | c :: s' => if isspace c then lstrip s' else s
  end.

Definition rstrip (s : str) : str := rev (lstrip (rev s)).

(** [s.strip()] *)
Definition strip (s : str) : str := rstrip (lstrip s).

(** [str.upper] on ASCII input (the hexadecimal digits of a UUID). *)
Definition ascii_upper (c : char) : char :=
  if (97 <=? c) && (c <=? 122) then c - 32 else c.

Definition ascii_lower (c : char) : char :=
  if (65 <=? c) && (c <=? 90) then c + 32 else c.

(** [sub in s]: substring test. *)
Fixpoint starts_with (p s : str) : bool :=
  match p, s with
  | [], _ => true
  | _ :: _, [] => false
  | a :: p', b :: s' => (a =? b) && starts_with p' s'
  end.

Fixpoint contains (sub s : str) : bool :=
  starts_with sub s ||
  match s with
  | [] => false
  | _ :: s' => contains sub s'
  end.

(** [s[1:-1]] *)
Definition slice_1_m1 (s : str) : str := removelast (tail s).

(** [str(k)], also inside an f-string, for a non-negative integer: its
    decimal digits. *)
Definition str_of_int (k : N) : str :=
  lit (DecimalString.NilEmpty.string_of_uint (N.to_uint k)).

(** ['%032x' % n]: lower-case hexadecimal digits, zero-padded on the left
    to 32 characters. *)
Definition hex_digits (n : N) : str :=
  lit (HexadecimalString.NilEmpty.string_of_uint (N.to_hex_uint n)).

Definition hex32 (n : N) : str :=
  let d := hex_digits n in
  replicate (32 - length d)%nat (chr "0") ++ d.

(** ** Regular expressions of the program

    The token pattern is a sequence of one-character classes, so a pattern
    is a list of character predicates, matched position by position;
    [re_search] scans for the leftmost position where the whole sequence
    matches, as [Pattern.search] does. *)

Definition char_class := char -> bool.

Fixpoint re_match (re : list char_class) (s : str) : bool :=
  match re, s with
  | [], _ => true
  | _ :: _, [] => false
  | cl :: re', c :: s' => cl c && re_match re' s'
  end.

(** [m.group(0)] of the leftmost match, [None] when there is none. *)
Fixpoint re_search (re : list char_class) (s : str) : option str :=
  if re_match re s then Some (take (length re) s)
  else match s with
       | [] => None
       | _ :: s' => re_search re s'
       end.

(** A literal character under [re.I].  For the ASCII letters other than
    I, K and S (and for non-letters) Unicode case-insensitive matching
    adds nothing to the two ASCII cases. *)
Definition lit_ci (c : char) : char_class :=
  fun x => ascii_lower x =? ascii_lower c.

(** [[A-Z0-9]] under [re.I] on a Unicode pattern: the 52 ASCII letters, the
    ten digits, and the four non-ASCII letters whose case mapping lands in
    the range (U+0130, U+0131, U+017F, U+212A). *)
Definition cls_AZ09_ci : char_class :=
  fun x =>
    ((48 <=? x) && (x <=? 57)) || ((65 <=? x) && (x <=? 90)) ||
    ((97 <=? x) && (x <=? 122)) ||
    (x =? 304) || (x =? 305) || (x =? 383) || (x =? 8490).

Definition lit_cs (c : char) : char_class := fun x => x =? c.

(** ** config.py *)

Definition TOKEN_PREFIX : str := lit "ABA#".
Definition SUBJECT_BASE : str := lit "Invitation to Partner with Amazon Private Brands".
Definition DEFAULT_CC : str := [].
Definition USER_PROP_TOKEN : str := lit "ABATrackingToken".

(** The settings the operations read.  config.py fixes
    [POLL_MAX_SCAN = 400] and [MAX_ATTACH_SIZE_MB = 50]; [ATTACH_BASE_DIR]
    depends on where the program is installed. *)
Class Settings := {
  POLL_MAX_SCAN : nat;
  MAX_ATTACH_SIZE_MB : Z;
  ATTACH_BASE_DIR : str;
}.

(** poller.py *)
Definition MAX_BODY_TEXT_CHARS : N := 100000.

(** Library functions left abstract. *)
Class Runtime := {
  (** [str.lower] *)
  str_lower : str -> str;
  (** [hashlib.sha256(content).hexdigest()] *)
  sha256_hexdigest : list N -> str;
  (** the three [re.sub] calls that turn an HTML body into text *)
  strip_markup : str -> str;
  (** [json.dumps] of the dictionary with keys subject and body_text *)
  json_dumps_payload : str -> str -> str;
}.

(** The token pattern of poller.py:
    an opening bracket, the escaped [TOKEN_PREFIX], eight characters of
    [[A-Z0-9]] and a closing bracket, compiled with [re.I]. *)
Definition TOKEN_RE : list char_class :=
  [lit_cs (chr "[")] ++ map lit_ci TOKEN_PREFIX ++ replicate 8 cls_AZ09_ci ++
  [lit_cs (chr "]")].

(** ** db.py *)

(** A column value: [None] is NULL. *)
Abbreviation sqlval := (option (list N)) (only parsing).

(** SQL [a = b]: never true when a side is NULL.  This is also the
    comparison behind a UNIQUE constraint. *)
Definition sql_eq (a b : sqlval) : bool :=
  match a, b with
  | Some x, Some y => bool_decide (x = y)
  | _, _ => false
  end.

Record mail_row := {
  m_email : sqlval; m_company : sqlval; m_token : sqlval; m_subject : sqlval;
  m_entryid : sqlval; m_conversation_id : sqlval; m_sent_on : sqlval;
  m_status : sqlval; m_collection_id : sqlval; m_product_desc : sqlval;
}.

Record reply_row := {
  r_token : sqlval; r_company : sqlval; r_from_email : sqlval;
  r_received_on : sqlval; r_has_attachments : option Z; r_parse_ok : option Z;
  r_parse_json : sqlval; r_collection_id : sqlval; r_product_desc : sqlval;
}.

Record attachment_row := {
  a_token : sqlval; a_msg_entryid : sqlval; a_received_on : sqlval;
  a_file_name : sqlval; a_file_ext : sqlval; a_file_size_bytes : option Z;
  a_saved_path : sqlval; a_sha256 : sqlval; a_created_at : sqlval;
}.

Record db := {
  mail_log : list mail_row;
  reply_log : list reply_row;
  attachment_log : list attachment_row;
}.

Definition empty_db : db :=
  {| mail_log := []; reply_log := []; attachment_log := [] |}.

(** The dictionaries passed to the insert functions.  A key the function
    gives a default for may be missing ([None] at the outer level). *)
Record mail_log_args := {
  ma_email : sqlval; ma_company : sqlval; ma_token : sqlval; ma_subject : sqlval;
  ma_entryid : sqlval; ma_conversation_id : sqlval; ma_sent_on : sqlval;
  ma_status : sqlval;
  ma_collection_id : option sqlval; ma_product_desc : option sqlval;
}.

Record reply_log_args := {
  ra_token : sqlval; ra_company : option sqlval; ra_from_email : sqlval;
  ra_received_on : sqlval; ra_has_attachments : option Z; ra_parse_ok : option Z;
  ra_parse_json : sqlval;
  ra_collection_id : option sqlval; ra_product_desc : option sqlval;
}.

(** The defaults are merged under the row: a default applies only when
    the key is missing. *)
Definition key_default (v : option sqlval) : sqlval := default (Some []) v.

Definition mail_row_of (row : mail_log_args) : mail_row :=
  {| m_email := ma_email row; m_company := ma_company row;
     m_token := ma_token row; m_subject := ma_subject row;
     m_entryid := ma_entryid row; m_conversation_id := ma_conversation_id row;
     m_sent_on := ma_sent_on row; m_status := ma_status row;
     m_collection_id := key_default (ma_collection_id row);
     m_product_desc := key_default (ma_product_desc row) |}.

Definition reply_row_of (row : reply_log_args) : reply_row :=
  {| r_token := ra_token row; r_company := key_default (ra_company row);
     r_from_email := ra_from_email row; r_received_on := ra_received_on row;
     r_has_attachments := ra_has_attachments row; r_parse_ok := ra_parse_ok row;
     r_parse_json := ra_parse_json row;
     r_collection_id := key_default (ra_collection_id row);
     r_product_desc := key_default (ra_product_desc row) |}.

(** [token TEXT UNIQUE] *)
Definition mail_conflict (new old : mail_row) : bool :=
  sql_eq (m_token old) (m_token new).

(** [UNIQUE(token, from_email, received_on)] *)
Definition reply_conflict (new old : reply_row) : bool :=
  sql_eq (r_token old) (r_token new) &&
  sql_eq (r_from_email old) (r_from_email new) &&
  sql_eq (r_received_on old) (r_received_on new).

(** [INSERT OR REPLACE INTO mail_log]: the rows in conflict with the new
    one are deleted, then the new row is inserted. *)
Definition insert_or_replace_mail (new : mail_row) (t : list mail_row) : list mail_row :=
  filter (fun old => mail_conflict new old = false) t ++ [new].

(** [INSERT OR IGNORE INTO reply_log]: nothing happens when a row in
    conflict with the new one exists. *)
Definition insert_or_ignore_reply (new : reply_row) (t : list reply_row) : list reply_row :=
  if existsb (reply_conflict new) t then t else t ++ [new].

Definition insert_mail_log (row : mail_log_args) (d : db) : db :=
  {| mail_log := insert_or_replace_mail (mail_row_of row) (mail_log d);
     reply_log := reply_log d;
     attachment_log := attachment_log d |}.

Definition insert_reply_log (row : reply_log_args) (d : db) : db :=
  {| mail_log := mail_log d;
     reply_log := insert_or_ignore_reply (reply_row_of row) (reply_log d);
     attachment_log := attachment_log d |}.

(** [INSERT INTO attachment_log]: the table has no constraint. *)
Definition insert_attachment_log (row : attachment_row) (d : db) : db :=
  {| mail_log := mail_log d;
     reply_log := reply_log d;
     attachment_log := attachment_log d ++ [row] |}.

(** [init_db]: the three tables exist in every [db], and every column the
    function would add is a field of the row records. *)
Definition init_db (d : db) : db := d.

(** [... ORDER BY id DESC LIMIT ?] *)
Definition fetch_mail_logs (limit : nat) (d : db) : list mail_row :=
  take limit (rev (mail_log d)).

Definition fetch_reply_logs (limit : nat) (d : db) : list reply_row :=
  take limit (rev (reply_log d)).

(** [... WHERE token = ? ORDER BY id DESC LIMIT 1] *)
Definition latest_by_token (token : str) (d : db) : option mail_row :=
  last (filter (fun r => sql_eq (m_token r) (Some token) = true) (mail_log d)).

Definition get_company_by_token (token : str) (d : db) : str :=
  match latest_by_token token d with
  | Some r => or_empty (m_company r)
  | None => []
  end.

Record mail_meta := {
  meta_company : str; meta_collection_id : str; meta_product_desc : str;
}.

Definition get_mail_meta_by_token (token : str) (d : db) : mail_meta :=
  match latest_by_token token d with
  | None => {| meta_company := []; meta_collection_id := []; meta_product_desc := [] |}
  | Some r =>
      {| meta_company := or_empty (m_company r);
         meta_collection_id := or_empty (m_collection_id r);
         meta_product_desc := or_empty (m_product_desc r) |}
  end.

(** ** The world the operations act on *)

(** A message handed to Outlook by [mail.Send()]. *)
Record sent_mail := {
  sm_To : str; sm_CC : option str; sm_Subject : str; sm_HTMLBody : str;
  sm_UserProperties : list (str * str);
  sm_Attachments : list str;
}.

(** [w_fs] maps the path of every existing file to its content. *)
Record world := {
  w_db : db;
  w_fs : gmap (list N) (list N);
  w_outbox : list sent_mail;
}.

Definition with_db (f : db -> db) (w : world) : world :=
  {| w_db := f (w_db w); w_fs := w_fs w; w_outbox := w_outbox w |}.

Definition write_file (p : str) (content : list N) (w : world) : world :=
  {| w_db := w_db w; w_fs := <[p := content]> (w_fs w); w_outbox := w_outbox w |}.

Definition submit (m : sent_mail) (w : world) : world :=
  {| w_db := w_db w; w_fs := w_fs w; w_outbox := w_outbox w ++ [m] |}.

(** [os.path.exists(p)] *)
Definition path_exists (fs : gmap (list N) (list N)) (p : str) : bool :=
  bool_decide (is_Some (fs !! p)).

(** ** mailer.py *)

(** [html_template.render(supplier_name=, token=, collection_id=,
    product_desc=)]; [None] when rendering raises. *)
Definition template := str -> str -> str -> str -> option str.

(** One entry of the Sent Items folder, as [send_one] reads it. *)
Record sent_item := {
  si_Subject : option str; si_EntryID : option str;
  si_ConversationID : option str; si_SentOn : option str;
}.

(** What the environment does during one call of [send_one]. *)
Record send_env := {
  (** [uuid.uuid4().int] *)
  uuid4_int : N;
  (** whether setting the user properties completes *)
  user_props_ok : bool;
  (** whether [CreateItem] .. [Save] .. [Send] complete without raising *)
  dispatch_ok : bool;
  (** Sent Items sorted newest first after the send; [None] when reading
      the folder raises *)
  sent_view : option (list sent_item);
  (** [datetime.now(timezone.utc).isoformat()] *)
  send_now : str;
}.

(** [_safe_str]: a cell is [None] when it is missing, [None] or NaN, and
    otherwise carries its [str()] rendering. *)
Definition _safe_str (v : option str) : str :=
  match v with
  | None => []
  | Some s => strip s
  end.

(** [_add_attachments]: the paths that exist are attached, the others are
    skipped. *)
Definition _add_attachments (fs : gmap (list N) (list N)) (attach_paths : list str) : list str :=
  filter (fun p => path_exists fs p = true) attach_paths.

(** [TOKEN_PREFIX] followed by [uuid.uuid4().hex[:8].upper()] *)
Definition issue_token (u : N) : str :=
  TOKEN_PREFIX ++ map ascii_upper (take 8 (hex32 u)).

(** An opening bracket, the token, a closing bracket, a space and
    [SUBJECT_BASE]. *)
Definition compose_subject (token : str) : str :=
  lit "[" ++ token ++ lit "] " ++ SUBJECT_BASE.

(** The lookup in Sent Items: the first of the 50 newest items whose
    subject contains the token gives the identifiers and the send time. *)
Definition resolve_sent (env : send_env) (token : str)
  : option str * option str * str :=
  match sent_view env with
  | None => (None, None, send_now env)
  | Some items =>
      match List.find (fun it => contains token (or_empty (si_Subject it)))
                      (take 50 items) with
      | Some it =>
          (si_EntryID it, si_ConversationID it, default (send_now env) (si_SentOn it))
      | None => (None, None, send_now env)
      end
  end.

(** [send_one]: the result is [None] when the call leaves by an exception
    (rendering or dispatch raised); the world is then as it was. *)
Definition send_one (env : send_env)
    (to_email company collection_id product_desc : str)
    (html_template : template) (attach_paths : list str) (w : world)
  : world * option (str * str) :=
  let token := issue_token (uuid4_int env) in
  let subject := compose_subject token in
  match html_template (str_or company (lit "Valued Supplier")) token
                      collection_id product_desc with
  | None => (w, None)
  | Some html_body =>
      if dispatch_ok env then
        let mail :=
          {| sm_To := to_email;
             sm_CC := if truthy DEFAULT_CC then Some DEFAULT_CC else None;
             sm_Subject := subject; sm_HTMLBody := html_body;
             sm_UserProperties :=
               if user_props_ok env then
                 [(USER_PROP_TOKEN, token); (lit "CollectionID", collection_id);
                  (lit "ProductDescription", product_desc)]
               else [];
             sm_Attachments := _add_attachments (w_fs w) attach_paths |} in
        let w1 := submit mail w in
        let '(entryid, conversation_id, sent_on) := resolve_sent env token in
        let w2 :=
          with_db (insert_mail_log
            {| ma_email := Some to_email; ma_company := Some (str_or company []);
               ma_token := Some token; ma_subject := Some subject;
               ma_entryid := Some (or_empty entryid);
               ma_conversation_id := Some (or_empty conversation_id);
               ma_sent_on := Some sent_on; ma_status := Some (lit "SENT");
               ma_collection_id := Some (Some (str_or collection_id []));
               ma_product_desc := Some (Some (str_or product_desc [])) |}) w1 in
        (w2, Some (token, subject))
      else (w, None)
  end.

(** A row of the contacts sheet. *)
Record contact_row := {
  col_Email : option str; col_Company_Name : option str;
  col_Collection_ID : option str; col_Product_description : option str;
}.

Record send_result := {
  res_email : str; res_company : str; res_collection_id : str;
  res_product_desc : str; res_token : str; res_subject : str;
}.

(** The loop of [bulk_send].  Each row comes with the behaviour of the
    environment during its send.  [None] as result: an exception left the
    function, and with it the loop. *)
Fixpoint bulk_send_loop (tpl : template) (attach_paths : list str)
    (rows : list (contact_row * send_env)) (results : list send_result)
    (w : world) : world * option (list send_result) :=
  match rows with
  | [] => (w, Some results)
  | (row, env) :: rest =>
      let email := _safe_str (col_Email row) in
      if negb (truthy email) then bulk_send_loop tpl attach_paths rest results w
      else
        let company := str_or (_safe_str (col_Company_Name row)) (lit "Valued Supplier") in
        let collection_id := _safe_str (col_Collection_ID row) in
        let product_desc := _safe_str (col_Product_description row) in
        match send_one env email company collection_id product_desc tpl attach_paths w with
        | (w', None) => (w', None)
        | (w', Some (token, subject)) =>
            bulk_send_loop tpl attach_paths rest
              (results ++ [{| res_email := email; res_company := company;
                              res_collection_id := collection_id;
                              res_product_desc := product_desc;
                              res_token := token; res_subject := subject |}])
              w'
        end
  end.

Definition bulk_send (rows : list (contact_row * send_env)) (tpl : template)
    (attach_paths : list str) (w : world) : world * option (list send_result) :=
  bulk_send_loop tpl attach_paths rows [] w.

(** ** poller.py *)

(** The character class of [_sanitize_filename]: backslash, slash, colon,
    star, question mark, double quote, the angle brackets and the bar. *)
Definition is_illegal (c : char) : bool :=
  (c =? 92) || (c =? 47) || (c =? 58) || (c =? 42) || (c =? 63) ||
  (c =? 34) || (c =? 60) || (c =? 62) || (c =? 124).

(** [re.sub] of one or more characters of the class by an underscore:
    every maximal run of illegal characters becomes one underscore.
    [in_run] tells that the previous character belonged to a run already
    replaced. *)
Fixpoint sub_illegal (in_run : bool) (name : str) : str :=
  match name with
  | [] => []
  | c :: rest =>
      if is_illegal c then
        if in_run then sub_illegal true rest
        else chr "_" :: sub_illegal true rest
      else c :: sub_illegal false rest
  end.

Definition _sanitize_filename (name : str) : str :=
  str_or (strip (sub_illegal false name)) (lit "attachment").

(** [p.rfind(c)]: the index of the last occurrence, or -1. *)
Fixpoint rfind_from (c : char) (p : str) (i : Z) (acc : Z) : Z :=
  match p with
  | [] => acc
  | x :: p' => rfind_from c p' (i + 1)%Z (if x =? c then i else acc)
  end.

Definition rfind (c : char) (p : str) : Z := rfind_from c p 0%Z (-1)%Z.

(** [os.path.splitext] of ntpath ([genericpath._splitext] with separators
    backslash and slash): the extension starts at the last dot of the last
    component, unless that component has only dots before it. *)
Definition splitext (p : str) : str * str :=
  let sepIndex := Z.max (rfind (chr "\") p) (rfind (chr "/") p) in
  let dotIndex := rfind (chr ".") p in
  if (sepIndex <? dotIndex)%Z then
    let leading := take (Z.to_nat (dotIndex - (sepIndex + 1))) (drop (Z.to_nat (sepIndex + 1)) p) in
    if forallb (fun x => x =? chr ".") leading then (p, [])
    else (take (Z.to_nat dotIndex) p, drop (Z.to_nat dotIndex) p)
  else (p, []).

(** [os.path.join(dest_dir, name)] of ntpath for a [name] without drive
    and without leading separator (every name the program joins has been
    through [_sanitize_filename]) and a [dest_dir] with a path part. *)
Definition path_join (dest_dir name : str) : str :=
  match last dest_dir with
  | None => name
  | Some c => if (c =? chr "\") || (c =? chr "/") then dest_dir ++ name
              else dest_dir ++ lit "\" ++ name
  end.

(** [ATTACH_BASE_DIR / part], then [str()]: pathlib drops a component that
    is a single dot. *)
Definition path_child (base part : str) : str :=
  if bool_decide (part = lit ".") then base else base ++ lit "\" ++ part.

(** The name, the index in parentheses and the extension, joined to the
    directory. *)
Definition numbered (dest_dir name ext : str) (idx : N) : str :=
  path_join dest_dir (name ++ lit "(" ++ str_of_int idx ++ lit ")" ++ ext).

(** The [while os.path.exists(p)] loop of [_unique_path], run for at most
    [fuel] tests. *)
Fixpoint unique_path_loop (fuel : nat) (fs : gmap (list N) (list N))
    (dest_dir name ext : str) (p : str) (idx : N) : option str :=
  match fuel with
  | O => None
  | S fuel' =>
      if path_exists fs p
      then unique_path_loop fuel' fs dest_dir name ext (numbered dest_dir name ext idx) (idx + 1)
      else Some p
  end.

(** The numbered names are pairwise distinct and the files are finitely
    many, so the loop leaves within [size fs + 2] tests
    ([unique_path_loop_total]); the default below is never used. *)
Definition _unique_path (fs : gmap (list N) (list N)) (dest_dir base_name : str) : str :=
  let '(name, ext) := splitext base_name in
  let p := path_join dest_dir base_name in
  default p (unique_path_loop (S (S (size fs))) fs dest_dir name ext p 1).

(** [_sha256_of_file]: the empty string when the file cannot be read. *)
Definition _sha256_of_file `{Runtime} (fs : gmap (list N) (list N)) (path : str) : str :=
  match fs !! path with
  | Some content => sha256_hexdigest content
  | None => []
  end.

(** An attachment of a mail item. *)
Record attachment := {
  (** [att.FileName]; [None] when the read raises or gives [None] *)
  att_FileName : option str;
  (** [att.Size]; [None] when it cannot be read as an integer *)
  att_Size : option Z;
  (** the bytes [SaveAsFile] writes *)
  att_content : list N;
  (** whether [SaveAsFile] completes; nothing is written when it raises *)
  att_save_ok : bool;
  (** [datetime.now(timezone.utc).isoformat()] when the attachment is logged *)
  att_now : str;
}.

(** [ReceivedTime] of an item: a value (rendered by [str()]), a missing
    attribute, or a read that raises, when the clock is read instead. *)
Inductive received_time :=
  | RcvValue (s : str)
  | RcvMissing
  | RcvRaises (now : str).

Definition received_on_of (r : received_time) : str :=
  match r with
  | RcvValue s => s
  | RcvMissing => []
  | RcvRaises now => now
  end.

(** A mail item, as the properties [poll_inbox] reads.  A text property is
    [None] when the attribute is missing or [None] (for [HTMLBody] and
    [EntryID] also when the read raises).  [it_Attachments] is [None] when
    the collection is missing or unreadable; an entry of the list is
    [None] when [Item(i)] raises for it.  The reads of [Subject] and [Body]
    stand outside every [try]: an error there other than a missing
    attribute would leave [poll_inbox] as an exception, and is not part of
    the model. *)
Record mail_item := {
  it_Subject : option str;
  it_Body : option str;
  it_HTMLBody : option str;
  it_ExchangeSmtp : option str;
  it_SenderAddress : option str;
  it_SenderEmailAddress : option str;
  it_ReceivedTime : received_time;
  it_Attachments : option (list (option attachment));
  it_EntryID : option str;
}.

(** [_sender_email]: the first non-empty of the Exchange SMTP address, the
    sender's address and [SenderEmailAddress]. *)
Definition _sender_email (it : mail_item) : str :=
  match it_ExchangeSmtp it with
  | Some (c :: s) => c :: s
  | _ =>
      match it_SenderAddress it with
      | Some (c :: s) => c :: s
      | _ => or_empty (it_SenderEmailAddress it)
      end
  end.

Section Capture.
Context `{Settings} `{Runtime}.

Definition attachment_record (token msg_entryid received_on target_fname ext : str)
    (fsize : Z) (saved_path sha : str) (now : str) : attachment_row :=
  {| a_token := Some token; a_msg_entryid := Some msg_entryid;
     a_received_on := Some received_on; a_file_name := Some target_fname;
     a_file_ext := Some ext; a_file_size_bytes := Some fsize;
     a_saved_path := Some saved_path; a_sha256 := Some sha;
     a_created_at := Some now |}.

(** The body of the [for i in range(1, atts.Count + 1)] loop for one
    attachment that [atts.Item(i)] delivered. *)
Definition save_attachment (safe_company safe_token token msg_entryid received_on : str)
    (dest_dir : str) (i : N) (att : attachment) (st : world * nat) : world * nat :=
  let '(w, saved) := st in
  let default_name := lit "attachment_" ++ str_of_int i in
  let orig_fname :=
    match att_FileName att with
    | Some n => _sanitize_filename (str_or n default_name)
    | None => default_name
    end in
  let fsize := default 0%Z (att_Size att) in
  let ext := str_lower (snd (splitext orig_fname)) in
  let name_core :=
    if truthy safe_company then safe_company ++ lit "_" ++ safe_token else safe_token in
  let target_fname := name_core ++ ext in
  let record := attachment_record token msg_entryid received_on target_fname ext fsize in
  if negb (MAX_ATTACH_SIZE_MB =? 0)%Z && (MAX_ATTACH_SIZE_MB * 1024 * 1024 <? fsize)%Z then
    (with_db (insert_attachment_log (record [] [] (att_now att))) w, saved)
  else
    let save_path := _unique_path (w_fs w) dest_dir target_fname in
    if att_save_ok att then
      let w1 := write_file save_path (att_content att) w in
      let sha := _sha256_of_file (w_fs w1) save_path in
      (with_db (insert_attachment_log (record save_path sha (att_now att))) w1,
       S saved)
    else
      (with_db (insert_attachment_log (record [] [] (att_now att))) w, saved).

Fixpoint save_attachments_loop (safe_company safe_token token msg_entryid received_on : str)
    (dest_dir : str) (i : N) (atts : list (option attachment)) (st : world * nat)
  : world * nat :=
  match atts with
  | [] => st
  | None :: rest =>
      save_attachments_loop safe_company safe_token token msg_entryid received_on
        dest_dir (i + 1) rest st
  | Some att :: rest =>
      save_attachments_loop safe_company safe_token token msg_entryid received_on
        dest_dir (i + 1) rest
        (save_attachment safe_company safe_token token msg_entryid received_on
           dest_dir i att st)
  end.

(** The destination directory of [_save_attachments]. *)
Definition dest_dir_of (collection_id : str) : str :=
  path_child ATTACH_BASE_DIR (_sanitize_filename (str_or collection_id (lit "uncategorized"))).

Definition _save_attachments (company token collection_id : str) (msg : mail_item)
    (msg_entryid received_on : str) (w : world) : world * nat :=
  match it_Attachments msg with
  | None | Some [] => (w, O)
  | Some atts =>
      let safe_company := _sanitize_filename company in
      let safe_token := _sanitize_filename token in
      save_attachments_loop safe_company safe_token token msg_entryid received_on
        (dest_dir_of collection_id) 1 atts (w, O)
  end.
End Capture.

(** The token search of [poll_inbox]: subject, then plain body; the HTML
    body only when these gave no token.  The token is the match without
    its brackets. *)
Definition search_subject_body (subj body_plain : str) : option str :=
  match re_search TOKEN_RE subj with
  | Some g => Some g
  | None => re_search TOKEN_RE body_plain
  end.

Definition extract_token (it : mail_item) : option str :=
  let subj := or_empty (it_Subject it) in
  let body_plain := or_empty (it_Body it) in
  let token := slice_1_m1 <$> search_subject_body subj body_plain in
  match token with
  | Some (c :: t) => Some (c :: t)
  | _ =>
      let body_html := or_empty (it_HTMLBody it) in
      match re_search TOKEN_RE body_html with
      | Some g => Some (slice_1_m1 g)
      | None => token
      end
  end.

(** The two counters of [poll_inbox]. *)
Record counters := { scanned : nat; hits : nat }.

Section Poll.
Context `{Settings} `{Runtime}.

(** The text stored in [parse_json]. *)
Definition body_text_of (it : mail_item) : str :=
  let body_plain := or_empty (it_Body it) in
  let body_text :=
    if truthy body_plain then body_plain
    else
      let body_html := or_empty (it_HTMLBody it) in
      if truthy body_html then strip_markup body_html else body_plain in
  if (MAX_BODY_TEXT_CHARS <? N.of_nat (length body_text))%N
  then take (N.to_nat MAX_BODY_TEXT_CHARS) body_text
  else body_text.

Definition has_attachments_of (it : mail_item) : bool :=
  match it_Attachments it with
  | Some (_ :: _) => true
  | _ => false
  end.

(** The body of the item loop for one item that [items.Item(i)]
    delivered. *)
Definition poll_item (it : mail_item) (st : world * counters) : world * counters :=
  let '(w, c) := st in
  match extract_token it with
  | Some (t0 :: t') =>
      let token := t0 :: t' in
      let meta := get_mail_meta_by_token token (w_db w) in
      let company := meta_company meta in
      let collection_id := meta_collection_id meta in
      let product_desc := meta_product_desc meta in
      let from_email := _sender_email it in
      let has_attachments := has_attachments_of it in
      let received_on := received_on_of (it_ReceivedTime it) in
      let parse_json_payload :=
        json_dumps_payload (or_empty (it_Subject it)) (body_text_of it) in
      let w1 :=
        with_db (insert_reply_log
          {| ra_token := Some token; ra_company := Some (Some company);
             ra_from_email := Some from_email; ra_received_on := Some received_on;
             ra_has_attachments := Some (if has_attachments then 1 else 0)%Z;
             ra_parse_ok := Some 0%Z;
             ra_parse_json := Some parse_json_payload;
             ra_collection_id := Some (Some collection_id);
             ra_product_desc := Some (Some product_desc) |}) w in
      let c1 := {| scanned := S (scanned c); hits := S (hits c) |} in
      if has_attachments then
        let msg_entryid := or_empty (it_EntryID it) in
        (fst (_save_attachments company token collection_id it msg_entryid received_on w1),
         c1)
      else (w1, c1)
  | _ => (w, c)
  end.

Fixpoint poll_items (items : list (option mail_item)) (st : world * counters)
  : world * counters :=
  match items with
  | [] => st
  | None :: rest => poll_items rest st
  | Some it :: rest => poll_items rest (poll_item it st)
  end.

(** A candidate folder: its items newest first, or [None] when reading
    or sorting [folder.Items] raises. *)
Definition folder := option (list (option mail_item)).

Definition poll_folder (f : folder) (st : world * counters) : world * counters :=
  match f with
  | None => st
  | Some items => poll_items (take POLL_MAX_SCAN items) st
  end.

Fixpoint poll_folders (folders : list folder) (st : world * counters)
  : world * counters :=
  match folders with
  | [] => st
  | f :: rest => poll_folders rest (poll_folder f st)
  end.

(** [poll_inbox] over the candidate folders the session resolved. *)
Definition poll_inbox (folders : list folder) (w : world) : world * counters :=
  poll_folders folders (w, {| scanned := O; hits := O |}).
End Poll.

(** ** Operations of the subsystem

    Every entry point that touches the log store, as one type, to speak of
    arbitrary sequences of operations. *)
Inductive op :=
  | OpInitDb
  | OpInsertMailLog (row : mail_log_args)
  | OpInsertReplyLog (row : reply_log_args)
  | OpInsertAttachmentLog (row : attachment_row)
  | OpFetchMailLogs (limit : nat)
  | OpFetchReplyLogs (limit : nat)
  | OpGetCompanyByToken (token : list N)
  | OpGetMailMetaByToken (token : list N)
  | OpSendOne (env : send_env) (to_email company collection_id product_desc : list N)
              (tpl : template) (attach_paths : list (list N))
  | OpBulkSend (rows : list (contact_row * send_env)) (tpl : template)
               (attach_paths : list (list N))
  | OpPollInbox (folders : list (option (list (option mail_item)))).

Section Run.
Context `{Settings} `{Runtime}.

(** The effect of an operation on the world; the queries return their
    rows to the caller and leave the world as it is. *)
Definition run_op (o : op) (w : world) : world :=
  match o with
  | OpInitDb => with_db init_db w
  | OpInsertMailLog row => with_db (insert_mail_log row) w
  | OpInsertReplyLog row => with_db (insert_reply_log row) w
  | OpInsertAttachmentLog row => with_db (insert_attachment_log row) w
  | OpFetchMailLogs _ | OpFetchReplyLogs _
  | OpGetCompanyByToken _ | OpGetMailMetaByToken _ => w
  | OpSendOne env to_email company collection_id product_desc tpl attach_paths =>
      fst (send_one env to_email company collection_id product_desc tpl attach_paths w)
  | OpBulkSend rows tpl attach_paths => fst (bulk_send rows tpl attach_paths w)
  | OpPollInbox folders => fst (poll_inbox folders w)
  end.

Definition run_ops (ops : list op) (w : world) : world :=
  foldl (fun w o => run_op o w) w ops.
End Run.

Definition empty_world : world :=
  {| w_db := empty_db; w_fs := ∅; w_outbox := [] |}.

(** ** Sample environment

    The settings of config.py with an installation directory, and a
    stand-in runtime, to run the operations on concrete inputs. *)
Definition config_py : Settings :=
  {| POLL_MAX_SCAN := 400; MAX_ATTACH_SIZE_MB := 50;
     ATTACH_BASE_DIR := lit "C:\app\attachments" |}.

Definition sample_runtime : Runtime :=
  {| str_lower := map ascii_lower;
     sha256_hexdigest := fun content => lit "sha256:" ++ content;
     strip_markup := fun s => s;
     json_dumps_payload := fun subj body => subj ++ lit "|" ++ body |}.

Definition plain_item (subject body : string) : mail_item :=
  {| it_Subject := Some (lit subject); it_Body := Some (lit body);
     it_HTMLBody := None; it_ExchangeSmtp := None; it_SenderAddress := None;
     it_SenderEmailAddress := Some (lit "supplier@example.com");
     it_ReceivedTime := RcvValue (lit "2025-01-02 03:04:05+00:00");
     it_Attachments := None; it_EntryID := Some (lit "E1") |}.

(** ** Vocabulary of the properties *)

(** A token as the scanner recognises it: the prefix in any letter case
    followed by exactly eight characters of the class. *)
Definition token_like (t : list N) : Prop :=
  ∃ p s, t = p ++ s ∧ map ascii_lower p = map ascii_lower TOKEN_PREFIX ∧
         length s = 8%nat ∧ Forall (fun c => cls_AZ09_ci c = true) s.

(** [t] stands in brackets in [s] right after [pre]. *)
Definition bracketed_at (s pre t : list N) : Prop :=
  ∃ post, s = pre ++ chr "[" :: t ++ chr "]" :: post.

(** [t] is the first bracketed token of [s]. *)
Definition first_token (s t : list N) : Prop :=
  ∃ pre, bracketed_at s pre t ∧ token_like t ∧
         ∀ pre' t', bracketed_at s pre' t' → token_like t' →
                    (length pre ≤ length pre')%nat.

Definition no_token (s : list N) : Prop :=
  ∀ pre t, bracketed_at s pre t → ¬ token_like t.

(** The subject of the example with the letters of the suffix lowered
    where the mask says so. *)
Definition recase (mask : list bool) (s : list N) : list N :=
  zip_with (fun (b : bool) c => if b then ascii_lower c else c) mask s.

Definition example_subject (suffix : list N) : list N :=
  lit "[ABA#" ++ suffix ++ lit "] Re: Invitation".

Definition with_subject (subject : list N) (it : mail_item) : mail_item :=
  {| it_Subject := Some subject; it_Body := it_Body it;
     it_HTMLBody := it_HTMLBody it; it_ExchangeSmtp := it_ExchangeSmtp it;
     it_SenderAddress := it_SenderAddress it;
     it_SenderEmailAddress := it_SenderEmailAddress it;
     it_ReceivedTime := it_ReceivedTime it;
     it_Attachments := it_Attachments it; it_EntryID := it_EntryID it |}.

(** The grammar of an issued token: the prefix as it is, then eight upper
    case letters or digits. *)
Definition is_upper_alnum (c : N) : bool :=
  ((48 <=? c) && (c <=? 57)) || ((65 <=? c) && (c <=? 90)).

Definition token_grammar (t : list N) : Prop :=
  ∃ s, t = TOKEN_PREFIX ++ s ∧ length s = 8%nat ∧
       Forall (fun c => is_upper_alnum c = true) s.

Definition is_hex_lower (c : N) : bool :=
  ((48 <=? c) && (c <=? 57)) || ((97 <=? c) && (c <=? 102)).

(** A template that renders, and an environment in which a send goes through. *)
Definition plain_template : template :=
  fun supplier_name token collection_id product_desc =>
    Some (lit "Dear " ++ supplier_name ++ lit ", ref " ++ token).

Definition failing_template : template := fun _ _ _ _ => None.

Definition env_ok (u : N) : send_env :=
  {| uuid4_int := u; user_props_ok := true; dispatch_ok := true;
     sent_view := Some []; send_now := lit "2025-01-01T00:00:00+00:00" |}.

Definition env_send_raises (u : N) : send_env :=
  {| uuid4_int := u; user_props_ok := true; dispatch_ok := false;
     sent_view := Some []; send_now := lit "2025-01-01T00:00:00+00:00" |}.

(** The rows of the reply log under a natural key. *)
Definition rows_with_key (token from_email received_on : list N) (t : list reply_row)
  : list reply_row :=
  filter (fun r => r_token r = Some token ∧ r_from_email r = Some from_email ∧
                   r_received_on r = Some received_on) t.

(** The constraint UNIQUE(token, from_email, received_on) of DDL_REPLY_LOG:
    SQLite admits no table that breaks it. *)
Definition reply_log_unique (t : list reply_row) : Prop :=
  ∀ token from_email received_on,
    (length (rows_with_key token from_email received_on t) ≤ 1)%nat.

(** The rows of the send log with a token. *)
Definition rows_with_token (token : list N) (t : list mail_row) : list mail_row :=
  filter (fun r => m_token r = Some token) t.

(** The constraint UNIQUE on the token column of DDL_MAIL_LOG. *)
Definition mail_log_unique (t : list mail_row) : Prop :=
  ∀ token, (length (rows_with_token token t) ≤ 1)%nat.

(** The operations that reach [insert_mail_log]. *)
Definition writes_send_log (o : op) : bool :=
  match o with
  | OpInsertMailLog _ | OpSendOne _ _ _ _ _ _ _ | OpBulkSend _ _ _ => true
  | _ => false
  end.

Definition upserts (rows : list mail_log_args) (t : list mail_row) : list mail_row :=
  foldl (fun t row => insert_or_replace_mail (mail_row_of row) t) t rows.

Definition reply_args (token from_email received_on company : string) : reply_log_args :=
  {| ra_token := Some (lit token); ra_company := Some (Some (lit company));
     ra_from_email := Some (lit from_email); ra_received_on := Some (lit received_on);
     ra_has_attachments := Some 0%Z; ra_parse_ok := Some 0%Z;
     ra_parse_json := Some []; ra_collection_id := None; ra_product_desc := None |}.

Definition mail_args (token email company : string) : mail_log_args :=
  {| ma_email := Some (lit email); ma_company := Some (lit company);
     ma_token := Some (lit token); ma_subject := Some (compose_subject (lit token));
     ma_entryid := Some []; ma_conversation_id := Some [];
     ma_sent_on := Some (lit "2025-01-01T00:00:00+00:00");
     ma_status := Some (lit "SENT");
     ma_collection_id := None; ma_product_desc := None |}.

Section CaptureVocabulary.
Context `{Settings} `{Runtime}.

(** The attachment is over the size ceiling; a ceiling of 0 is none. *)
Definition oversize (att : attachment) : bool :=
  negb (MAX_ATTACH_SIZE_MB =? 0)%Z &&
  (MAX_ATTACH_SIZE_MB * 1024 * 1024 <? default 0%Z (att_Size att))%Z.

(** The attachment ends up on disk. *)
Definition written (att : attachment) : bool :=
  negb (oversize att) && att_save_ok att.

(** What the log row of an attachment says, between the files before the
    capture ([fs]) and after it ([fs']). *)
Definition record_for (fs fs' : gmap (list N) (list N)) (token : list N)
    (att : attachment) (rec : attachment_row) : Prop :=
  a_token rec = Some token ∧
  a_file_size_bytes rec = Some (default 0%Z (att_Size att)) ∧
  if written att then
    ∃ path, path ≠ [] ∧ fs !! path = None ∧ fs' !! path = Some (att_content att) ∧
            a_saved_path rec = Some path ∧
            a_sha256 rec = Some (sha256_hexdigest (att_content att))
  else a_saved_path rec = Some [] ∧ a_sha256 rec = Some [].

(** The attachments [atts.Item(i)] delivers. *)
Definition delivered (atts : option (list (option attachment))) : list attachment :=
  omap id (default [] atts).
End CaptureVocabulary.

Definition sample_attachment (name : string) (size : Z) (ok : bool) : attachment :=
  {| att_FileName := Some (lit name); att_Size := Some size;
     att_content := lit name; att_save_ok := ok;
     att_now := lit "2025-01-02T03:04:06+00:00" |}.

Definition item_with_attachments (subject : string) (atts : list (option attachment))
  : mail_item :=
  {| it_Subject := Some (lit subject); it_Body := Some [];
     it_HTMLBody := None; it_ExchangeSmtp := None; it_SenderAddress := None;
     it_SenderEmailAddress := Some (lit "supplier@example.com");
     it_ReceivedTime := RcvValue (lit "2025-01-02 03:04:05+00:00");
     it_Attachments := Some atts; it_EntryID := Some (lit "E1") |}.

Section PollVocabulary.
Context `{Settings}.

(** The items a scan examines: for every candidate folder that can be
    read, the first [POLL_MAX_SCAN] items, those that can be fetched. *)
Definition examined (folders : list (option (list (option mail_item)))) : list mail_item :=
  flat_map (fun f => omap id (take POLL_MAX_SCAN (default [] f))) folders.

(** The examined items in which a token is found. *)
Definition with_token (folders : list (option (list (option mail_item)))) : list mail_item :=
  filter (fun it => is_Some (extract_token it)) (examined folders).
End PollVocabulary.

(** The row has a recipient address. *)
Definition addressed (r : contact_row * send_env) : bool :=
  truthy (_safe_str (col_Email r.1)).

Definition row_company (row : contact_row) : list N :=
  str_or (_safe_str (col_Company_Name row)) (lit "Valued Supplier").

(** The render and the dispatch of the row's message complete. *)
Definition send_goes_through (tpl : template) (r : contact_row * send_env) : bool :=
  bool_decide (is_Some (tpl (row_company r.1) (issue_token (uuid4_int r.2))
                            (_safe_str (col_Collection_ID r.1))
                            (_safe_str (col_Product_description r.1)))) &&
  dispatch_ok r.2.

(** The rows [bulk_send] would have to get through under per-recipient
    isolation of failures. *)
Definition deliverable (tpl : template) (rows : list (contact_row * send_env))
  : list (contact_row * send_env) :=
  filter (fun r => addressed r = true ∧ send_goes_through tpl r = true) rows.

(** C2 as the specification states it. *)
Definition isolates_failures (tpl : template) (paths : list (list N))
    (rows : list (contact_row * send_env)) (w : world) : Prop :=
  ∃ w' results,
    bulk_send rows tpl paths w = (w', Some results) ∧
    map res_email results = map (fun r => _safe_str (col_Email r.1)) (deliverable tpl rows) ∧
    map sm_To (w_outbox w') =
      map sm_To (w_outbox w) ++ map (fun r => _safe_str (col_Email r.1)) (deliverable tpl rows).

Definition contact (email company : string) : contact_row :=
  {| col_Email := Some (lit email); col_Company_Name := Some (lit company);
     col_Collection_ID := Some (lit "T1"); col_Product_description := None |}.

(** ** db.py: the schema of the database file

    [init_db] acts on the tables and their columns, not on the rows; this
    part models a database file by the columns of each of its tables. *)

(** A column: its name and its declaration. *)
Abbreviation column := (list N * list N)%type (only parsing).











(** ** poller.py: the candidate folders *)

(** A MAPI folder: name, [EntryID] ([None] when missing or unreadable), the
    identity of the Python object, its items (as [poll_inbox] takes them)
    and its subfolders ([None] when [folder.Folders] raises). *)
#[local] Unset Elimination Schemes.
Inductive mapi_folder :=
  | MapiFolder (Name : list N) (EntryID : option (list N)) (object_id : N)
               (Items : option (list (option mail_item)))
               (Folders : option (list mapi_folder)).

#[local] Set Elimination Schemes.

Definition f_Name (f : mapi_folder) : str :=
  match f with MapiFolder n _ _ _ _ => n end.
Definition f_EntryID (f : mapi_folder) : option str :=
  match f with MapiFolder _ e _ _ _ => e end.
Definition f_object_id (f : mapi_folder) : N :=
  match f with MapiFolder _ _ i _ _ => i end.
Definition f_Items (f : mapi_folder) : option (list (option mail_item)) :=
  match f with MapiFolder _ _ _ it _ => it end.
Definition f_Folders (f : mapi_folder) : option (list mapi_folder) :=
  match f with MapiFolder _ _ _ _ fs => fs end.

(** [s.split(sep)] for a one-character separator; [cur] holds the current
    piece, reversed. *)
Fixpoint split_from (sep : char) (s : str) (cur : str) : list str :=
  match s with
  | [] => [rev cur]
  | c :: s' => if c =? sep then rev cur :: split_from sep s' []
               else split_from sep s' (c :: cur)
  end.

Definition split (sep : char) (s : str) : list str := split_from sep s [].

Section Folders.
Context `{Runtime}.

(** The comparison of a folder name with a path segment:
    both stripped and lowered. *)
Definition name_matches (name part : str) : bool :=
  bool_decide (str_lower (strip name) = str_lower (strip part)).

(** The inner loop of [_resolve_folder_by_path]: the first subfolder whose
    name matches, [None] when there is none or the subfolders cannot be
    read. *)
Definition find_subfolder (folder : mapi_folder) (part : str) : option mapi_folder :=
  match f_Folders folder with
  | None => None
  | Some fs => List.find (fun f => name_matches (f_Name f) part) fs
  end.

Fixpoint resolve_segments (folder : mapi_folder) (parts : list str) : option mapi_folder :=
  match parts with
  | [] => Some folder
  | part :: rest =>
      match find_subfolder folder part with
      | None => None
      | Some found => resolve_segments found rest
      end
  end.

(** [_resolve_folder_by_path]: the walk starts after the first part. *)
Definition _resolve_folder_by_path (root_folder : mapi_folder) (path_parts : list str)
  : option mapi_folder :=
  resolve_segments root_folder (tail path_parts).

(** The key under which [_iter_configured_folders] keeps a folder: its
    [EntryID] when it has a non-empty one, else the identity of the object. *)
Definition folder_key (f : mapi_folder) : list N + N :=
  match f_EntryID f with
  | Some (c :: e) => inl (c :: e)
  | _ => inr (f_object_id f)
  end.

(** [d[k] = v] on a dictionary kept in insertion order: a key that is there
    keeps its place and takes the new value. *)
Fixpoint dict_set (k : list N + N) (v : mapi_folder) (d : list ((list N + N) * mapi_folder))
  : list ((list N + N) * mapi_folder) :=
  match d with
  | [] => [(k, v)]
  | (k', v') :: d' =>
      if bool_decide (k = k') then (k, v) :: d' else (k', v') :: dict_set k v d'
  end.

(** What one entry of [SCAN_FOLDERS] gives under the inbox of one store. *)
Definition configured_folder (inbox : mapi_folder) (raw : str) : list mapi_folder :=
  let path := strip raw in
  if negb (truthy path) then []
  else
    let parts := filter (fun p => truthy p = true) (split (chr "/") path) in
    match parts with
    | [] => []
    | p0 :: rest =>
        if bool_decide (str_lower (strip p0) = lit "inbox") then
          match rest with
          | [] => [inbox]
          | _ :: _ =>
              match _resolve_folder_by_path inbox parts with
              | Some f => [f]
              | None => []
              end
          end
        else []
    end.

(** The folders resolved before the duplicates are removed.  A store is
    its default inbox, [None] when [GetDefaultFolder] raises. *)
Definition resolved_folders (SCAN_FOLDERS : list str) (stores : list (option mapi_folder))
  : list mapi_folder :=
  flat_map (fun store =>
              match store with
              | None => []
              | Some inbox => flat_map (configured_folder inbox) SCAN_FOLDERS
              end) stores.

Definition _iter_configured_folders (SCAN_FOLDERS : list str)
    (stores : list (option mapi_folder)) : list mapi_folder :=
  match SCAN_FOLDERS with
  | [] => []
  | _ :: _ =>
      let uniq := foldl (fun d f => dict_set (folder_key f) f d) []
                        (resolved_folders SCAN_FOLDERS stores) in
      map snd uniq
  end.

(** [_iter_default_folders]: every inbox followed by its subfolders. *)
Definition _iter_default_folders (stores : list (option mapi_folder)) : list mapi_folder :=
  flat_map (fun store =>
              match store with
              | None => []
              | Some inbox => inbox :: default [] (f_Folders inbox)
              end) stores.

(** The folders [poll_inbox] goes through. *)
Definition candidate_folders (SCAN_FOLDERS : list str) (stores : list (option mapi_folder))
  : list mapi_folder :=
  match _iter_configured_folders SCAN_FOLDERS stores with
  | [] => _iter_default_folders stores
  | f :: fs => f :: fs
  end.
End Folders.

(** ** bidding_comparison.py *)

(** [_sanitize_filename] of bidding_comparison.py: the same substitution
    and strip, with its own default. *)
Definition bc_sanitize_filename (name : str) : str :=
  str_or (strip (sub_illegal false name)) (lit "untitled").

Section Collections.
Context `{Settings}.

(** The directory [list_excels_for_collection] reads:
    [ATTACH_BASE_DIR / safe_collection]. *)
Definition collection_root (collection_id : str) : str :=
  path_child ATTACH_BASE_DIR (bc_sanitize_filename collection_id).
End Collections.

(** ** Vocabulary of the further properties *)

(** [sub] occurs in [s]. *)
Definition occurs_in (sub s : list N) : Prop := ∃ pre post, s = pre ++ sub ++ post.

(** The natural key of the reply row an item gives. *)
Definition has_reply_key (token from_email received_on : list N) (t : list reply_row) : Prop :=
  rows_with_key token from_email received_on t ≠ [].


Definition with_body (body html : option (list N)) (it : mail_item) : mail_item :=
  {| it_Subject := it_Subject it; it_Body := body; it_HTMLBody := html;
     it_ExchangeSmtp := it_ExchangeSmtp it; it_SenderAddress := it_SenderAddress it;
     it_SenderEmailAddress := it_SenderEmailAddress it;
     it_ReceivedTime := it_ReceivedTime it;
     it_Attachments := it_Attachments it; it_EntryID := it_EntryID it |}.

(** Settings with a small scan bound, to run the bound on a short folder. *)
Definition config_small : Settings :=
  {| POLL_MAX_SCAN := 2; MAX_ATTACH_SIZE_MB := 50;
     ATTACH_BASE_DIR := lit "C:\app\attachments" |}.

(** The natural key of the reply row of an item in which [token] was found. *)
Definition item_reply_key (token : list N) (it : mail_item) (t : list reply_row) : Prop :=
  has_reply_key token (_sender_email it) (received_on_of (it_ReceivedTime it)) t.

Section ScanVocabulary.
Context `{Settings}.

(** The attachments a scan is offered: those the examined items with a
    token deliver. *)
Definition offered (folders : list (option (list (option mail_item)))) : list attachment :=
  flat_map (fun it => delivered (it_Attachments it)) (with_token folders).

(** Two folders with the same items within the scan bound. *)
Definition same_within_bound (f f' : option (list (option mail_item))) : Prop :=
  take POLL_MAX_SCAN <$> f = take POLL_MAX_SCAN <$> f'.
End ScanVocabulary.

(** [SCAN_FOLDERS] of config.py. *)
Definition SCAN_FOLDERS_py : list (list N) := [lit "Inbox"; lit "Inbox/External"].

(** A folder without items and subfolders, and an inbox over subfolders. *)
Definition leaf_folder (name : string) (entryid : string) (oid : N) : mapi_folder :=
  MapiFolder (lit name) (Some (lit entryid)) oid (Some []) (Some []).

Definition inbox_over (subfolders : list mapi_folder) : mapi_folder :=
  MapiFolder (lit "Inbox") (Some (lit "ID-INBOX")) 1 (Some []) (Some subfolders).

(** ** bidding_comparison.py: the prompt *)

Class BiddingSettings := {
  (** the prompt size guard, in characters; 0 for none *)
  BIDDING_MAX_PROMPT_CHARS : N;
}.

Definition bidding_config_py : BiddingSettings :=
  {| BIDDING_MAX_PROMPT_CHARS := 120000 |}.

(** The fixed text at the head of every prompt. *)
Definition PROMPT_HEADER : list N :=
  lit "You are a sourcing analyst." ++ [10] ++
  lit "Compare supplier bids using ONLY these four aspects:" ++ [10] ++
  lit "1) Product_Technical_Requirements  " ++ [8212] ++ lit " table columns: Attribute | Amazon_Requirements | Vendor_Entry." ++ [10] ++
  lit "   - Mark Compliance per row: Yes / No / Partial, and add a short Gap_Note." ++ [10] ++
  lit "2) Testing_Requirements            " ++ [8212] ++ lit " table columns: Test_Item | Amazon_Requirements | Vendor_Entry." ++ [10] ++
  lit "   - Mark Compliance per row: Yes / No / Partial, and add a short Gap_Note." ++ [10] ++
  lit "3) Quotation                       " ++ [8212] ++ lit " extract: Quote_Raw, Currency, Incoterm, MOQ, Lead_Time, Valid_Until." ++ [10] ++
  lit "   - Normalize price to USD if possible; state any assumptions used." ++ [10] ++
  lit "4) Additional_Claims_Features      " ++ [8212] ++ lit " list extra certifications/materials/features (e.g., FSC wood)." ++ [10] ++
  [10] ++
  lit "Steps:" ++ [10] ++
  lit "- Extract and fill the four aspects for each supplier from the provided tables." ++ [10] ++
  lit "- Highlight gaps/differences that may affect cost, risk, or compliance." ++ [10] ++
  lit "- Normalize prices for like-for-like comparison." ++ [10] ++
  lit "- Rank suppliers by overall value for money (normalized price " ++ [177] ++ lit " compliance gaps " ++ [177] ++ lit " value-adding claims)." ++ [10] ++
  [10] ++
  lit "Output:" ++ [10] ++
  lit "A) Ranked_Summary: Supplier | one-line reason." ++ [10] ++
  lit "B) Product_Technical_Requirements_Table: Supplier | Attribute | Amazon_Requirements | Vendor_Entry | Compliance | Gap_Note." ++ [10] ++
  lit "C) Testing_Requirements_Table:          Supplier | Test_Item | Amazon_Requirements | Vendor_Entry | Compliance | Gap_Note." ++ [10] ++
  lit "D) Quotation_Table:                     Supplier | Quote_Raw | Currency | Incoterm | MOQ | Lead_Time | Valid_Until | Normalized_USD | Notes." ++ [10] ++
  lit "E) Additional_Claims_Features_List:     bullets per supplier." ++ [10] ++
  lit "F) Assumptions & Missing_Info." ++ [10] ++
  [10] ++
  lit "Rules:" ++ [10] ++
  lit "- Ignore any data not part of the four aspects above." ++ [10] ++
  lit "- Keep concise and business-ready; use ranges when estimating; do not fabricate exact market prices." ++ [10].

(** [sep.join(parts)] for the line feed. *)
Fixpoint join_lines (parts : list (list N)) : list N :=
  match parts with
  | [] => []
  | p :: rest =>
      match rest with
      | [] => p
      | _ :: _ => p ++ [10] ++ join_lines rest
      end
  end.

Definition TRUNCATED_MARK : list N := [10; 10] ++ lit "[TRUNCATED]".

Section Prompt.
Context `{BiddingSettings}.

(** The prompt before the size guard. *)
Definition full_prompt (collection_id : str) (excel_texts : list str)
    (extra_instructions : str) : str :=
  let header :=
    if truthy extra_instructions
    then PROMPT_HEADER ++ [10] ++ lit "Additional instructions:" ++ [10] ++
         extra_instructions ++ [10]
    else PROMPT_HEADER in
  let body := [10] ++ lit "=== COLLECTION_ID: " ++ collection_id ++ lit " ===" ++ [10; 10] ++
              join_lines excel_texts in
  header ++ [10] ++ body.

Definition _build_prompt (collection_id : str) (excel_texts : list str)
    (extra_instructions : str) : str :=
  let prompt := full_prompt collection_id excel_texts extra_instructions in
  if negb (BIDDING_MAX_PROMPT_CHARS =? 0) &&
     (BIDDING_MAX_PROMPT_CHARS <? N.of_nat (length prompt))
  then take (N.to_nat BIDDING_MAX_PROMPT_CHARS) prompt ++ TRUNCATED_MARK
  else prompt.
End Prompt.

(** [f] lies [depth] levels of subfolders below [root]. *)
Fixpoint nested_in (depth : nat) (root f : mapi_folder) : Prop :=
  match depth with
  | O => f = root
  | S d => ∃ g subs, f_Folders root = Some subs ∧ g ∈ subs ∧ nested_in d g f
  end.

Section ReplyVocabulary.
Context `{Settings} `{Runtime}.

(** The reply row [poll_inbox] hands to [insert_reply_log] for an item in
    which [token] was found, with the metadata looked up for the token. *)
Definition reply_of (it : mail_item) (token : list N) (meta : mail_meta) : reply_row :=
  {| r_token := Some token; r_company := Some (meta_company meta);
     r_from_email := Some (_sender_email it);
     r_received_on := Some (received_on_of (it_ReceivedTime it));
     r_has_attachments := Some (if has_attachments_of it then 1 else 0)%Z;
     r_parse_ok := Some 0%Z;
     r_parse_json := Some (json_dumps_payload (or_empty (it_Subject it)) (body_text_of it));
     r_collection_id := Some (meta_collection_id meta);
     r_product_desc := Some (meta_product_desc meta) |}.
End ReplyVocabulary.

Definition no_meta : mail_meta :=
  {| meta_company := []; meta_collection_id := []; meta_product_desc := [] |}.



(** * Properties *)

(** ** Strings and patterns *)

Arguments chr : simpl never.
Arguments lit : simpl never.

Lemma re_match_Forall2 re s :
  re_match re s = true ↔
  ∃ g post, s = g ++ post ∧ Forall2 (fun (cl : char_class) c => cl c = true) re g.
Proof.
  revert s. induction re as [|cl re IH]; intros s; simpl.
  - split; [intros _; exists [], s; split; [done | constructor] | done].
  - destruct s as [|c s].
    + split; [done |]. intros (g & post & Hs & HF).
      inversion HF; subst. discriminate.
    + rewrite andb_true_iff, IH. split.
      * intros (Hc & g & post & -> & HF). exists (c :: g), post.
        split; [done | by constructor].
      * intros (g & post & Hs & HF). inversion HF as [|? x ? g' Hx HF']; subst.
        injection Hs as -> ->. eauto.
Qed.

Lemma re_match_take re s :
  re_match re s = true → length (take (length re) s) = length re.
Proof.
  rewrite re_match_Forall2. intros (g & post & -> & HF).
  apply Forall2_length in HF. rewrite length_take, length_app. lia.
Qed.

Lemma re_search_Some re s g :
  re_search re s = Some g →
  ∃ pre post, s = pre ++ g ++ post ∧ re_match re (g ++ post) = true ∧
              length g = length re ∧
              ∀ pre' rest, s = pre' ++ rest → (length pre' < length pre)%nat →
                           re_match re rest = false.
Proof.
  revert g. induction s as [|c s IH]; intros g; simpl.
  - destruct (re_match re []) eqn:Hm; [|done].
    intros [= <-]. exists [], []. rewrite take_nil. simpl.
    destruct re; [|done]. repeat split; [done..|]. intros ? ? _ Hl. simpl in Hl. lia.
  - destruct (re_match re (c :: s)) eqn:Hm.
    + intros [= <-]. exists [], (drop (length re) (c :: s)). simpl.
      rewrite take_drop. repeat split; [done.. | by apply re_match_take |].
      intros ? ? _ Hl. simpl in Hl. lia.
    + intros Hs. destruct (IH g Hs) as (pre & post & -> & Hg & Hlen & Hmin).
      exists (c :: pre), post. repeat split; [done..|].
      intros pre' rest Heq Hl. destruct pre' as [|c' pre'].
      * simpl in Heq. by subst rest.
      * simpl in Heq, Hl. injection Heq as -> Heq. apply (Hmin pre'); [done | lia].
Qed.

Lemma re_search_None re s :
  re_search re s = None → ∀ pre rest, s = pre ++ rest → re_match re rest = false.
Proof.
  induction s as [|c s IH]; simpl.
  - destruct (re_match re []) eqn:Hm; [done|].
    intros _ pre rest Heq. symmetry in Heq. apply app_eq_nil in Heq as [_ ->]. done.
  - destruct (re_match re (c :: s)) eqn:Hm; [done|].
    intros Hs pre rest Heq. destruct pre as [|c' pre].
    + simpl in Heq. by subst rest.
    + simpl in Heq. injection Heq as -> Heq. by apply (IH Hs pre).
Qed.

Lemma re_search_is_Some re s pre rest :
  s = pre ++ rest → re_match re rest = true → is_Some (re_search re s).
Proof.
  intros Hs Hm. destruct (re_search re s) eqn:E; [eauto|].
  rewrite (re_search_None _ _ E _ _ Hs) in Hm. done.
Qed.

Lemma Forall2_lit_ci p g :
  Forall2 (fun (cl : char_class) c => cl c = true) (map lit_ci p) g ↔
  map ascii_lower g = map ascii_lower p.
Proof.
  revert g. induction p as [|a p IH]; intros g; simpl.
  - split.
    + intros HF. by inversion HF.
    + destruct g; [constructor | done].
  - split.
    + intros HF. inversion HF as [|? x ? g' Hx HF']; subst. simpl.
      unfold lit_ci in Hx. apply N.eqb_eq in Hx. rewrite Hx. f_equal. by apply IH.
    + destruct g as [|x g]; [done|]. simpl. intros [= Hx Hg].
      constructor; [unfold lit_ci; by apply N.eqb_eq | by apply IH].
Qed.

Lemma Forall2_replicate_cls (cl : char_class) n g :
  Forall2 (fun (cl : char_class) c => cl c = true) (replicate n cl) g ↔
  length g = n ∧ Forall (fun c => cl c = true) g.
Proof.
  revert g. induction n as [|n IH]; intros g; simpl.
  - split.
    + intros HF. inversion HF. by split.
    + intros [Hl _]. destruct g; [constructor | done].
  - split.
    + intros HF. inversion HF as [|? x ? g' Hx HF']; subst.
      apply IH in HF' as [? ?]. simpl. split; [lia | by constructor].
    + destruct g as [|x g]; [intros [? _]; done|]. simpl. intros [Hl HF].
      inversion HF; subst. constructor; [done|]. apply IH. split; [lia | done].
Qed.

Lemma Forall2_lit_cs c g :
  Forall2 (fun (cl : char_class) c => cl c = true) [lit_cs c] g ↔ g = [c].
Proof.
  split.
  - intros HF. inversion HF as [|? x ? g' Hx HF']; subst. inversion HF'; subst.
    unfold lit_cs in Hx. apply N.eqb_eq in Hx. by subst.
  - intros ->. constructor; [unfold lit_cs; apply N.eqb_refl | constructor].
Qed.

(** The pattern matches at the head of [s] exactly when [s] starts with a
    bracketed token. *)
Lemma TOKEN_RE_match s :
  re_match TOKEN_RE s = true ↔ ∃ t, bracketed_at s [] t ∧ token_like t.
Proof.
  rewrite re_match_Forall2. unfold TOKEN_RE, bracketed_at, token_like. split.
  - intros (g & post & -> & HF).
    apply Forall2_app_inv_l in HF as (g1 & g' & H1 & HF & ->).
    apply Forall2_app_inv_l in HF as (g2 & g'' & H2 & HF & ->).
    apply Forall2_app_inv_l in HF as (g3 & g4 & H3 & H4 & ->).
    apply Forall2_lit_cs in H1 as ->. apply Forall2_lit_cs in H4 as ->.
    apply Forall2_lit_ci in H2. apply Forall2_replicate_cls in H3 as [Hl3 H3].
    exists (g2 ++ g3). split.
    + exists post. simpl. by rewrite <- ?app_assoc.
    + by exists g2, g3.
  - intros (t & [post ->] & (p & sfx & -> & Hp & Hl & Hs)).
    exists (chr "[" :: (p ++ sfx) ++ [chr "]"]), post. split.
    + simpl. by rewrite <- ?app_assoc.
    + change (chr "[" :: (p ++ sfx) ++ [chr "]"])
        with ([chr "["] ++ (p ++ sfx) ++ [chr "]"]).
      apply Forall2_app; [by apply Forall2_lit_cs|].
      rewrite <- app_assoc.
      apply Forall2_app; [by apply Forall2_lit_ci|].
      apply Forall2_app; [by apply Forall2_replicate_cls | by apply Forall2_lit_cs].
Qed.

Lemma token_like_length t : token_like t → length t = 12%nat.
Proof.
  intros (p & s & -> & Hp & Hl & _). rewrite length_app, Hl.
  apply (f_equal length) in Hp. rewrite !length_map in Hp. rewrite Hp.
  reflexivity.
Qed.

Lemma slice_1_m1_bracketed t : slice_1_m1 (chr "[" :: t ++ [chr "]"]) = t.
Proof. unfold slice_1_m1. simpl. apply removelast_last. Qed.

(** What [TOKEN_RE.search] finds: the first bracketed token, brackets
    included. *)
Lemma TOKEN_RE_search_Some s g :
  re_search TOKEN_RE s = Some g →
  ∃ t, g = chr "[" :: t ++ [chr "]"] ∧ first_token s t.
Proof.
  intros Hs. apply re_search_Some in Hs as (pre & post & -> & Hm & Hlen & Hmin).
  apply TOKEN_RE_match in Hm as (t & [post' Ht] & Htok).
  simpl in Ht.
  assert (g = chr "[" :: t ++ [chr "]"]) as ->.
  { pose proof (token_like_length _ Htok) as Hl12.
    apply (f_equal (take 14)) in Ht.
    rewrite take_app_length' in Ht by (rewrite Hlen; reflexivity).
    rewrite Ht. change (chr "[" :: t ++ chr "]" :: post')
      with ((chr "[" :: t) ++ [chr "]"] ++ post').
    rewrite app_assoc, take_app_length'; [done|].
    rewrite length_app. simpl. lia. }
  exists t. split; [done|]. exists pre. split; [|split; [done|]].
  - exists post. simpl. by rewrite <- app_assoc.
  - intros pre' t' [post'' Heq] Htok'.
    destruct (decide (length pre' < length pre)%nat) as [Hlt|]; [|lia].
    exfalso. specialize (Hmin pre' _ Heq Hlt).
    assert (re_match TOKEN_RE (chr "[" :: t' ++ chr "]" :: post'') = true) as Hm'.
    { apply TOKEN_RE_match. exists t'. split; [by exists post''|done]. }
    congruence.
Qed.

Lemma TOKEN_RE_search_None s : re_search TOKEN_RE s = None ↔ no_token s.
Proof.
  split.
  - intros Hs pre t [post Heq] Htok.
    pose proof (re_search_None _ _ Hs _ _ Heq) as Hm.
    assert (re_match TOKEN_RE (chr "[" :: t ++ chr "]" :: post) = true) as Hm'.
    { apply TOKEN_RE_match. exists t. split; [by exists post|done]. }
    congruence.
  - intros Hno. destruct (re_search TOKEN_RE s) as [g|] eqn:E; [|done].
    apply TOKEN_RE_search_Some in E as (t & _ & pre & Hb & Htok & _).
    by destruct (Hno pre t).
Qed.

Lemma first_token_truthy s t : first_token s t → ∃ c t', t = c :: t'.
Proof.
  intros (_ & _ & Htok & _). apply token_like_length in Htok.
  destruct t; [done | eauto].
Qed.

(** ** Token extraction (poller.py, the search in [poll_inbox]) *)

Lemma bracketed_at_length_eq s pre pre' t t' :
  bracketed_at s pre t → bracketed_at s pre' t' →
  length pre = length pre' → length t = length t' → pre = pre' ∧ t = t'.
Proof.
  intros [post Hs] [post' Hs'] Hl Hlt. rewrite Hs in Hs'.
  apply app_inj_1 in Hs' as [-> Hrest]; [|done].
  injection Hrest as Hrest. apply app_inj_1 in Hrest as [-> _]; done.
Qed.

Lemma first_token_unique s t t' : first_token s t → first_token s t' → t = t'.
Proof.
  intros (pre & Hb & Htok & Hmin) (pre' & Hb' & Htok' & Hmin').
  pose proof (Hmin _ _ Hb' Htok'). pose proof (Hmin' _ _ Hb Htok).
  apply (bracketed_at_length_eq s pre pre' t t'); [done | done | lia |].
  by rewrite (token_like_length _ Htok), (token_like_length _ Htok').
Qed.

Lemma first_token_not_no_token s t : first_token s t → ¬ no_token s.
Proof. intros (pre & Hb & Htok & _) Hno. by apply (Hno pre t). Qed.

(** The search written out: what [extract_token] returns in terms of the
    three searches. *)
Lemma extract_token_cases it :
  extract_token it =
    match re_search TOKEN_RE (or_empty (it_Subject it)) with
    | Some g => Some (slice_1_m1 g)
    | None =>
        match re_search TOKEN_RE (or_empty (it_Body it)) with
        | Some g => Some (slice_1_m1 g)
        | None => slice_1_m1 <$> re_search TOKEN_RE (or_empty (it_HTMLBody it))
        end
    end.
Proof.
  unfold extract_token, search_subject_body.
  destruct (re_search TOKEN_RE (or_empty (it_Subject it))) as [g|] eqn:Es.
  { apply TOKEN_RE_search_Some in Es as (t & -> & Hft).
    rewrite fmap_Some_2 with (x := chr "[" :: t ++ [chr "]"]) by done.
    rewrite slice_1_m1_bracketed.
    by destruct (first_token_truthy _ _ Hft) as (c & t' & ->). }
  destruct (re_search TOKEN_RE (or_empty (it_Body it))) as [g|] eqn:Eb.
  { apply TOKEN_RE_search_Some in Eb as (t & -> & Hft).
    rewrite fmap_Some_2 with (x := chr "[" :: t ++ [chr "]"]) by done.
    rewrite slice_1_m1_bracketed.
    by destruct (first_token_truthy _ _ Hft) as (c & t' & ->). }
  simpl. by destruct (re_search TOKEN_RE (or_empty (it_HTMLBody it))).
Qed.

Lemma search_first_token s t :
  first_token s t → re_search TOKEN_RE s = Some (chr "[" :: t ++ [chr "]"]).
Proof.
  intros Hft. destruct (re_search TOKEN_RE s) as [g|] eqn:E.
  - apply TOKEN_RE_search_Some in E as (t' & -> & Hft').
    by rewrite (first_token_unique _ _ _ Hft Hft').
  - apply TOKEN_RE_search_None in E. by destruct (first_token_not_no_token _ _ Hft).
Qed.

Lemma extract_token_None it :
  extract_token it = None ↔
  no_token (or_empty (it_Subject it)) ∧ no_token (or_empty (it_Body it)) ∧
  no_token (or_empty (it_HTMLBody it)).
Proof.
  rewrite extract_token_cases, <- !TOKEN_RE_search_None.
  destruct (re_search TOKEN_RE (or_empty (it_Subject it)));
    [split; [done | intros (? & _); done]|].
  destruct (re_search TOKEN_RE (or_empty (it_Body it)));
    [split; [done | intros (_ & ? & _); done]|].
  destruct (re_search TOKEN_RE (or_empty (it_HTMLBody it)));
    [split; [done | intros (_ & _ & ?); done] | done].
Qed.

Lemma extract_token_Some_nonempty it t : extract_token it = Some t → ∃ c t', t = c :: t'.
Proof.
  rewrite extract_token_cases.
  destruct (re_search TOKEN_RE (or_empty (it_Subject it))) as [g|] eqn:Es.
  { apply TOKEN_RE_search_Some in Es as (t0 & -> & Hft). rewrite slice_1_m1_bracketed.
    intros [= <-]. by apply (first_token_truthy _ _ Hft). }
  destruct (re_search TOKEN_RE (or_empty (it_Body it))) as [g|] eqn:Eb.
  { apply TOKEN_RE_search_Some in Eb as (t0 & -> & Hft). rewrite slice_1_m1_bracketed.
    intros [= <-]. by apply (first_token_truthy _ _ Hft). }
  destruct (re_search TOKEN_RE (or_empty (it_HTMLBody it))) as [g|] eqn:Eh; [|done].
  apply TOKEN_RE_search_Some in Eh as (t0 & -> & Hft). simpl.
  rewrite slice_1_m1_bracketed.
  intros [= <-]. by apply (first_token_truthy _ _ Hft).
Qed.

(** C3, as the code has it.  The three sources are searched in the order
    subject, plain body, HTML body; the result is the first bracketed token
    of the first source that has one, without its brackets and in the
    casing of the source text.  A later source has no influence once an
    earlier one has a token.  The subject [[ABA#12AB34CD] Re: Invitation]
    gives ABA#12AB34CD; with letters of the suffix in lower case the token
    is found as well and comes back as written. *)
Theorem token_extraction_order (it : mail_item) :
  let subj := or_empty (it_Subject it) in
  let body := or_empty (it_Body it) in
  let html := or_empty (it_HTMLBody it) in
  ((∃ t, first_token subj t ∧
         ∀ it', or_empty (it_Subject it') = subj → extract_token it' = Some t) ∨
   (no_token subj ∧ ∃ t, first_token body t ∧
         ∀ it', or_empty (it_Subject it') = subj → or_empty (it_Body it') = body →
                extract_token it' = Some t) ∨
   (no_token subj ∧ no_token body ∧ ∃ t, first_token html t ∧ extract_token it = Some t) ∨
   (no_token subj ∧ no_token body ∧ no_token html ∧ extract_token it = None)) ∧
  extract_token (with_subject (example_subject (lit "12AB34CD")) it)
    = Some (lit "ABA#12AB34CD") ∧
  ∀ b1 b2 b3 b4 b5 b6 b7 b8,
    let suffix := recase [b1; b2; b3; b4; b5; b6; b7; b8] (lit "12AB34CD") in
    extract_token (with_subject (example_subject suffix) it) = Some (lit "ABA#" ++ suffix).
Proof.
  intros subj body html. split; [|split].
  - destruct (re_search TOKEN_RE subj) as [g|] eqn:Es.
    { left. apply TOKEN_RE_search_Some in Es as (t & -> & Hft). exists t.
      split; [done|]. intros it' Hsubj. rewrite extract_token_cases, Hsubj.
      by rewrite (search_first_token _ _ Hft), slice_1_m1_bracketed. }
    right. pose proof Es as Hno. apply TOKEN_RE_search_None in Hno.
    destruct (re_search TOKEN_RE body) as [g|] eqn:Eb.
    { left. split; [done|].
      apply TOKEN_RE_search_Some in Eb as (t & -> & Hft). exists t.
      split; [done|]. intros it' Hsubj Hbody.
      rewrite extract_token_cases, Hsubj, Hbody, Es.
      by rewrite (search_first_token _ _ Hft), slice_1_m1_bracketed. }
    right. pose proof Eb as Hnob. apply TOKEN_RE_search_None in Hnob.
    destruct (re_search TOKEN_RE html) as [g|] eqn:Eh.
    { left. split; [done|]. split; [done|].
      pose proof Eh as Eh'.
      apply TOKEN_RE_search_Some in Eh' as (t & -> & Hft). exists t.
      split; [done|]. rewrite extract_token_cases.
      fold subj body html. rewrite Es, Eb, Eh. simpl.
      by rewrite slice_1_m1_bracketed. }
    right. pose proof Eh as Hnoh. apply TOKEN_RE_search_None in Hnoh.
    repeat split; [done..|]. by apply extract_token_None.
  - rewrite extract_token_cases. reflexivity.
  - intros b1 b2 b3 b4 b5 b6 b7 b8 suffix. subst suffix.
    rewrite extract_token_cases.
    destruct b1, b2, b3, b4, b5, b6, b7, b8; reflexivity.
Qed.

(** C3 as stated fails: with the suffix in lower case the subject does not
    give ABA#12AB34CD but the token as it is written there. *)
Lemma token_casing_counterexample :
  extract_token (plain_item "[ABA#12ab34cd] Re: Invitation" "")
    = Some (lit "ABA#12ab34cd") ∧
  extract_token (plain_item "[ABA#12ab34cd] Re: Invitation" "")
    ≠ Some (lit "ABA#12AB34CD").
Proof. split; [reflexivity | discriminate]. Qed.

(** ** Token issue and subject (mailer.py, [send_one]) *)

Lemma lit_String a s : lit (String a s) = N_of_ascii a :: lit s.
Proof. reflexivity. Qed.

Lemma hex_digits_chars n : Forall (fun c => is_hex_lower c = true) (hex_digits n).
Proof.
  unfold hex_digits. generalize (N.to_hex_uint n). intros d.
  induction d; simpl; try rewrite lit_String; constructor; done.
Qed.

Lemma hex32_chars n : Forall (fun c => is_hex_lower c = true) (hex32 n).
Proof.
  unfold hex32. apply Forall_app. split; [|apply hex_digits_chars].
  apply Forall_replicate. reflexivity.
Qed.

Lemma hex32_length n : (32 ≤ length (hex32 n))%nat.
Proof. unfold hex32. rewrite length_app, length_replicate. lia. Qed.

Lemma ascii_upper_hex c : is_hex_lower c = true → is_upper_alnum (ascii_upper c) = true.
Proof.
  unfold is_hex_lower, is_upper_alnum, ascii_upper. intros Hc.
  destruct ((97 <=? c) && (c <=? 122)) eqn:E.
  - apply andb_true_iff in E as [E1 E2].
    apply N.leb_le in E1, E2.
    apply orb_true_iff in Hc as [Hc|Hc]; apply andb_true_iff in Hc as [H1 H2];
      apply N.leb_le in H1, H2; [lia|].
    apply orb_true_iff. right. apply andb_true_iff. split; apply N.leb_le; lia.
  - apply orb_true_iff in Hc as [Hc|Hc]; [by rewrite Hc|].
    apply andb_true_iff in Hc as [H1 H2]. apply N.leb_le in H1, H2.
    apply andb_false_iff in E as [E|E]; apply N.leb_gt in E; lia.
Qed.

(** Every issued token follows the grammar. *)
Lemma issue_token_grammar u : token_grammar (issue_token u).
Proof.
  exists (map ascii_upper (take 8 (hex32 u))). split; [done|]. split.
  - rewrite length_map, length_take. pose proof (hex32_length u). lia.
  - apply Forall_fmap. apply Forall_take.
    eapply Forall_impl; [apply hex32_chars|]. intros c Hc. by apply ascii_upper_hex.
Qed.

Lemma is_upper_alnum_cls c : is_upper_alnum c = true → cls_AZ09_ci c = true.
Proof.
  unfold is_upper_alnum, cls_AZ09_ci. intros Hc.
  apply orb_true_iff in Hc as [Hc|Hc]; rewrite Hc; by rewrite ?orb_true_r.
Qed.

(** An issued token is one the scanner recognises. *)
Lemma token_grammar_like t : token_grammar t → token_like t.
Proof.
  intros (s & -> & Hl & Hs). exists TOKEN_PREFIX, s. repeat split; [done|].
  eapply Forall_impl; [exact Hs|]. intros c. apply is_upper_alnum_cls.
Qed.

Lemma send_one_Some env to_email company collection_id product_desc tpl paths w w' r :
  send_one env to_email company collection_id product_desc tpl paths w = (w', Some r) →
  ∃ html_body,
    tpl (str_or company (lit "Valued Supplier")) (issue_token (uuid4_int env))
        collection_id product_desc = Some html_body ∧
    dispatch_ok env = true ∧
    r = (issue_token (uuid4_int env), compose_subject (issue_token (uuid4_int env))) ∧
    ∃ m row,
      sm_To m = to_email ∧ sm_Subject m = snd r ∧ sm_HTMLBody m = html_body ∧
      ma_token row = Some (fst r) ∧ ma_subject row = Some (snd r) ∧
      ma_email row = Some to_email ∧ ma_status row = Some (lit "SENT") ∧
      w' = with_db (insert_mail_log row) (submit m w).
Proof.
  unfold send_one.
  destruct (tpl _ _ _ _) as [html_body|]; [|done].
  destruct (dispatch_ok env); [|done].
  destruct (resolve_sent env (issue_token (uuid4_int env))) as [[entryid conv] sent_on].
  intros [= <- <-]. exists html_body. do 3 (split; [reflexivity|]).
  do 2 eexists. repeat apply conj.
  8: reflexivity. all: reflexivity.
Qed.

Lemma send_one_None env to_email company collection_id product_desc tpl paths w w' :
  send_one env to_email company collection_id product_desc tpl paths w = (w', None) →
  w' = w.
Proof.
  unfold send_one.
  destruct (tpl _ _ _ _) as [html_body|]; [|by intros [= <-]].
  destruct (dispatch_ok env); [|by intros [= <-]].
  by destruct (resolve_sent env (issue_token (uuid4_int env))) as [[entryid conv] sent_on].
Qed.

(** C6.  The token of every send is the prefix followed by eight upper
    case letters or digits; the subject is the token in brackets, a space
    and the base subject; the message handed to Outlook and the row
    written to the send log both carry that subject, and the row carries
    the token. *)
Theorem issued_token_in_subject env to_email company collection_id product_desc
    tpl paths w w' token subject :
  send_one env to_email company collection_id product_desc tpl paths w
    = (w', Some (token, subject)) →
  token_grammar token ∧
  subject = lit "[" ++ token ++ lit "] " ++ SUBJECT_BASE ∧
  bracketed_at subject [] token ∧
  (∃ m, w_outbox w' = w_outbox w ++ [m] ∧ sm_To m = to_email ∧ sm_Subject m = subject) ∧
  (∃ r, last (mail_log (w_db w')) = Some r ∧ m_token r = Some token ∧
        m_subject r = Some subject ∧ m_status r = Some (lit "SENT")).
Proof.
  intros Hs. apply send_one_Some in Hs
    as (html & _ & _ & [= -> ->] & m & row & HTo & HSubj & _ & Htok & Hsub & _ & Hst & ->).
  simpl in HSubj, Htok, Hsub.
  split; [apply issue_token_grammar|]. split; [done|]. split.
  { exists (lit " " ++ SUBJECT_BASE). reflexivity. }
  split.
  - exists m. by repeat split.
  - exists (mail_row_of row). simpl. unfold insert_or_replace_mail.
    rewrite last_snoc. by repeat split.
Qed.

Lemma issued_token_in_subject_witness :
  let r := send_one (env_ok 0xdeadbeef4c2d4e119a6b0242ac120002) (lit "a@x.com") (lit "Acme") (lit "T1") (lit "bolts")
             plain_template [] empty_world in
  snd r = Some (lit "ABA#DEADBEEF", lit "[ABA#DEADBEEF] Invitation to Partner with Amazon Private Brands") ∧
  token_grammar (lit "ABA#DEADBEEF") ∧
  (∃ m, w_outbox (fst r) = [m] ∧ sm_To m = lit "a@x.com" ∧
        sm_Subject m = lit "[ABA#DEADBEEF] Invitation to Partner with Amazon Private Brands").
Proof.
  split; [reflexivity|].
  pose proof (issued_token_in_subject (env_ok 0xdeadbeef4c2d4e119a6b0242ac120002) (lit "a@x.com") (lit "Acme")
                (lit "T1") (lit "bolts") plain_template [] empty_world _ _ _ eq_refl)
    as (Hg & _ & _ & Hm & _).
  split; [exact Hg | exact Hm].
Defined.

(** A reply that keeps the subject of the sent message is correlated to
    the token of that message. *)
Lemma issued_token_found_by_scanner u it :
  extract_token (with_subject (compose_subject (issue_token u)) it) = Some (issue_token u).
Proof.
  rewrite extract_token_cases.
  change (or_empty (it_Subject (with_subject (compose_subject (issue_token u)) it)))
    with (compose_subject (issue_token u)).
  assert (first_token (compose_subject (issue_token u)) (issue_token u)) as Hft.
  { exists []. split; [|split].
    - exists (lit " " ++ SUBJECT_BASE). reflexivity.
    - apply token_grammar_like, issue_token_grammar.
    - intros; simpl; lia. }
  by rewrite (search_first_token _ _ Hft), slice_1_m1_bracketed.
Qed.

(** ** Destination directory (poller.py, [_sanitize_filename] and
    [_save_attachments]) *)

Lemma lstrip_Forall (P : N → Prop) s : Forall P s → Forall P (lstrip s).
Proof.
  induction 1 as [|c s Hc Hs IH]; simpl; [constructor|].
  destruct (isspace c); [done | by constructor].
Qed.

Lemma strip_Forall (P : N → Prop) s : Forall P s → Forall P (strip s).
Proof.
  intros Hs. unfold strip, rstrip.
  apply Forall_rev, lstrip_Forall, Forall_rev, lstrip_Forall, Hs.
Qed.

Lemma lstrip_all_space s : Forall (fun c => isspace c = true) s → lstrip s = [].
Proof. induction 1 as [|c s Hc Hs IH]; simpl; [done|]. by rewrite Hc. Qed.

Lemma strip_all_space s : Forall (fun c => isspace c = true) s → strip s = [].
Proof. intros Hs. unfold strip, rstrip. by rewrite (lstrip_all_space _ Hs). Qed.

Lemma sub_illegal_legal b s : Forall (fun c => is_illegal c = false) (sub_illegal b s).
Proof.
  revert b. induction s as [|c s IH]; intros b; simpl; [constructor|].
  destruct (is_illegal c) eqn:Hc.
  - destruct b; [apply IH | constructor; [reflexivity | apply IH]].
  - constructor; [done | apply IH].
Qed.

Lemma sub_illegal_all_illegal s :
  Forall (fun c => is_illegal c = true) s → sub_illegal true s = [].
Proof. induction 1 as [|c s Hc Hs IH]; simpl; [done|]. by rewrite Hc. Qed.

Lemma sub_illegal_none b s :
  Forall (fun c => is_illegal c = false) s → sub_illegal b s = s.
Proof.
  intros Hs. revert b. induction Hs as [|c s Hc Hs IH]; intros b; simpl; [done|].
  rewrite Hc. by rewrite IH.
Qed.

Lemma isspace_not_illegal c : isspace c = true → is_illegal c = false.
Proof.
  unfold isspace, is_illegal. intros Hc.
  repeat (apply orb_false_iff; split); apply N.eqb_neq; intros ->; discriminate.
Qed.

(** The sanitised name has no illegal character and is never empty. *)
Lemma sanitize_legal name : Forall (fun c => is_illegal c = false) (_sanitize_filename name).
Proof.
  unfold _sanitize_filename, str_or.
  destruct (truthy (strip (sub_illegal false name))).
  - apply strip_Forall, sub_illegal_legal.
  - by repeat constructor.
Qed.

Lemma sanitize_nonempty name : _sanitize_filename name ≠ [].
Proof.
  unfold _sanitize_filename, str_or.
  destruct (strip (sub_illegal false name)); simpl; [|done].
  intros Heq. vm_compute in Heq. discriminate.
Qed.

Lemma sanitize_whitespace name :
  Forall (fun c => isspace c = true) name → _sanitize_filename name = lit "attachment".
Proof.
  intros Hs. unfold _sanitize_filename.
  rewrite sub_illegal_none.
  - by rewrite (strip_all_space _ Hs).
  - eapply Forall_impl; [exact Hs|]. apply isspace_not_illegal.
Qed.

Lemma sanitize_all_illegal name :
  name ≠ [] → Forall (fun c => is_illegal c = true) name →
  _sanitize_filename name = lit "_".
Proof.
  intros Hne Hs. destruct Hs as [|c s Hc Hs]; [done|].
  unfold _sanitize_filename. simpl. rewrite Hc.
  by rewrite (sub_illegal_all_illegal _ Hs).
Qed.

Section Destination.
Context `{Settings}.

(** C10, as the code has it.  The destination is the base directory with
    one component added, the sanitised topic, which never contains an
    illegal character and is never empty.  The bucket uncategorized is used
    for the empty topic only: a topic of whitespace alone goes to the
    sanitiser's own default, attachment, and a topic of illegal characters
    alone becomes a single underscore. *)
Theorem destination_directory (collection_id : list N) :
  dest_dir_of collection_id =
    path_child ATTACH_BASE_DIR
      (_sanitize_filename (if truthy collection_id then collection_id
                           else lit "uncategorized")) ∧
  (∃ part, dest_dir_of collection_id = path_child ATTACH_BASE_DIR part ∧ part ≠ [] ∧
           Forall (fun c => is_illegal c = false) part) ∧
  (collection_id = [] →
     dest_dir_of collection_id = ATTACH_BASE_DIR ++ lit "\uncategorized") ∧
  (collection_id ≠ [] → Forall (fun c => isspace c = true) collection_id →
     dest_dir_of collection_id = ATTACH_BASE_DIR ++ lit "\attachment") ∧
  (collection_id ≠ [] → Forall (fun c => is_illegal c = true) collection_id →
     dest_dir_of collection_id = ATTACH_BASE_DIR ++ lit "\_").
Proof.
  split; [reflexivity|]. split; [|split; [|split]].
  - eexists. split; [reflexivity|]. split; [apply sanitize_nonempty | apply sanitize_legal].
  - intros ->. reflexivity.
  - intros Hne Hs. unfold dest_dir_of, str_or.
    destruct collection_id; [done|]. simpl truthy. cbv iota.
    by rewrite (sanitize_whitespace _ Hs).
  - intros Hne Hs. unfold dest_dir_of, str_or.
    destruct collection_id; [done|]. simpl truthy. cbv iota.
    by rewrite (sanitize_all_illegal _ Hne Hs).
Qed.
End Destination.

Lemma destination_directory_witness :
  @dest_dir_of config_py [] = lit "C:\app\attachments\uncategorized" ∧
  @dest_dir_of config_py (lit "  ") = lit "C:\app\attachments\attachment" ∧
  @dest_dir_of config_py (lit "?*?") = lit "C:\app\attachments\_" ∧
  @dest_dir_of config_py (lit "RFQ 7/2025") = lit "C:\app\attachments\RFQ 7_2025".
Proof.
  split; [|split; [|split]].
  - exact (proj1 (proj2 (proj2 (@destination_directory config_py []))) eq_refl).
  - apply (proj1 (proj2 (proj2 (proj2 (@destination_directory config_py (lit "  ")))))).
    + discriminate.
    + repeat constructor.
  - apply (proj2 (proj2 (proj2 (proj2 (@destination_directory config_py (lit "?*?")))))).
    + discriminate.
    + repeat constructor.
  - reflexivity.
Defined.

(** C10 as stated fails: a topic of blanks, and one of illegal characters,
    is not captured under uncategorized. *)
Lemma destination_counterexample :
  @dest_dir_of config_py (lit "  ") = lit "C:\app\attachments\attachment" ∧
  @dest_dir_of config_py (lit "???") = lit "C:\app\attachments\_" ∧
  @dest_dir_of config_py (lit "  ") ≠ lit "C:\app\attachments\uncategorized" ∧
  @dest_dir_of config_py (lit "???") ≠ lit "C:\app\attachments\uncategorized".
Proof. repeat split; discriminate. Qed.

(** ** Collision-free naming (poller.py, [_unique_path]) *)

Lemma lit_inj s1 s2 : lit s1 = lit s2 → s1 = s2.
Proof.
  revert s2. induction s1 as [|a s1 IH]; intros [|b s2]; try done.
  rewrite !lit_String. intros [= Hab Hs].
  f_equal; [|by apply IH].
  rewrite <- (ascii_N_embedding a), <- (ascii_N_embedding b). by rewrite Hab.
Qed.

Lemma str_of_int_inj i j : str_of_int i = str_of_int j → i = j.
Proof.
  unfold str_of_int. intros Heq. apply lit_inj in Heq.
  apply DecimalN.Unsigned.to_uint_inj.
  apply (f_equal DecimalString.NilEmpty.uint_of_string) in Heq.
  rewrite !DecimalString.NilEmpty.usu in Heq. by injection Heq.
Qed.

Lemma path_join_inj d a b : path_join d a = path_join d b → a = b.
Proof.
  unfold path_join. destruct (last d) as [c|]; [|done].
  destruct ((c =? chr "\") || (c =? chr "/")).
  - apply app_inv_head.
  - intros Heq. apply app_inv_head in Heq. by apply app_inv_head in Heq.
Qed.

Lemma numbered_inj d name ext i j : numbered d name ext i = numbered d name ext j → i = j.
Proof.
  unfold numbered. intros Heq. apply path_join_inj in Heq.
  do 2 apply app_inv_head in Heq. apply app_inv_tail in Heq.
  by apply str_of_int_inj.
Qed.

(** What the loop returns, when it returns: a path that does not exist,
    which is the path it started from or the first free numbered one. *)
Lemma unique_path_loop_Some fuel fs d name ext p idx q :
  unique_path_loop fuel fs d name ext p idx = Some q →
  path_exists fs q = false ∧
  ((q = p) ∨
   (path_exists fs p = true ∧
    ∃ k, idx <= k ∧ q = numbered d name ext k ∧
         ∀ j, idx <= j → j < k → path_exists fs (numbered d name ext j) = true)).
Proof.
  revert p idx. induction fuel as [|fuel IH]; intros p idx; simpl; [done|].
  destruct (path_exists fs p) eqn:Hp.
  - intros Hq. apply IH in Hq as [Hfree [->|(Hex & k & Hk & -> & Hbelow)]].
    + split; [done|]. right. split; [done|]. exists idx. split; [lia|].
      split; [done|]. intros; lia.
    + split; [done|]. right. split; [done|]. exists k. split; [lia|].
      split; [done|]. intros j Hj1 Hj2.
      destruct (decide (j = idx)) as [->|]; [done|]. apply Hbelow; lia.
  - intros [= <-]. split; [done | by left].
Qed.

(** When the fuel runs out, every path tested exists. *)
Lemma unique_path_loop_None fuel fs d name ext p idx :
  unique_path_loop fuel fs d name ext p idx = None →
  ∀ j, idx <= j → j < idx + N.of_nat (pred fuel) →
       path_exists fs (numbered d name ext j) = true.
Proof.
  revert p idx. induction fuel as [|fuel IH]; intros p idx; simpl.
  - intros _ j ? ?. lia.
  - destruct (path_exists fs p) eqn:Hp; [|done].
    intros Hn j Hj1 Hj2. destruct fuel as [|fuel]; [simpl in Hj2; lia|].
    destruct (decide (j = idx)) as [->|].
    + simpl in Hn. by destruct (path_exists fs (numbered d name ext idx)).
    + apply (IH _ _ Hn). { lia. } simpl in *. lia.
Qed.

(** Finitely many files cannot hold all of [n] distinct numbered names
    when [n] exceeds their number. *)
Lemma numbered_not_all_exist (fs : gmap (list N) (list N)) d name ext idx n :
  (size fs < n)%nat →
  ¬ ∀ j, idx <= j → j < idx + N.of_nat n →
         path_exists fs (numbered d name ext j) = true.
Proof.
  intros Hsz Hall.
  set (cands := map (fun i => numbered d name ext (idx + N.of_nat i)) (seq 0 n)).
  assert (NoDup cands) as Hnd.
  { apply NoDup_fmap_2_strong; [|apply NoDup_seq].
    intros i j _ _ Heq. apply numbered_inj in Heq. lia. }
  assert (list_to_set cands ⊆ dom fs) as Hsub.
  { intros q Hq. apply elem_of_list_to_set in Hq.
    apply list_elem_of_fmap in Hq as (i & -> & Hi). apply elem_of_seq in Hi.
    apply elem_of_dom. eapply bool_decide_eq_true_1. apply Hall; lia. }
  apply subseteq_size in Hsub.
  rewrite size_list_to_set in Hsub by done.
  rewrite size_dom in Hsub. unfold cands in Hsub.
  rewrite length_map, length_seq in Hsub. lia.
Qed.

(** The loop of [_unique_path] ends: with [size fs + 2] tests at hand it
    returns. *)
Lemma unique_path_loop_total (fs : gmap (list N) (list N)) d name ext p idx :
  is_Some (unique_path_loop (S (S (size fs))) fs d name ext p idx).
Proof.
  destruct (unique_path_loop (S (S (size fs))) fs d name ext p idx) eqn:E; [eauto|].
  exfalso. apply (numbered_not_all_exist fs d name ext idx (S (size fs))); [lia|].
  apply (unique_path_loop_None _ _ _ _ _ _ _ E).
Qed.

Lemma unique_path_loop_eq (fs : gmap (list N) (list N)) d base_name :
  unique_path_loop (S (S (size fs))) fs d (splitext base_name).1 (splitext base_name).2
    (path_join d base_name) 1 = Some (_unique_path fs d base_name).
Proof.
  unfold _unique_path. destruct (splitext base_name) as [name ext]. simpl fst. simpl snd.
  by destruct (unique_path_loop_total fs d name ext (path_join d base_name) 1) as [q ->].
Qed.

Lemma unique_path_not_exists (fs : gmap (list N) (list N)) d base_name :
  path_exists fs (_unique_path fs d base_name) = false.
Proof.
  pose proof (unique_path_loop_eq fs d base_name) as Hq.
  by apply unique_path_loop_Some in Hq as [? _].
Qed.

Lemma unique_path_lookup (fs : gmap (list N) (list N)) d base_name :
  fs !! _unique_path fs d base_name = None.
Proof.
  pose proof (unique_path_not_exists fs d base_name) as Hq.
  apply bool_decide_eq_false_1 in Hq. by apply eq_None_not_Some.
Qed.

Lemma splitext_app p : (splitext p).1 ++ (splitext p).2 = p.
Proof.
  unfold splitext.
  destruct (_ <? _)%Z; [|by rewrite app_nil_r].
  destruct (forallb _ _); simpl; [by rewrite app_nil_r | by rewrite take_drop].
Qed.

Lemma path_exists_insert (fs : gmap (list N) (list N)) p c : path_exists (<[p := c]> fs) p = true.
Proof. apply bool_decide_eq_true_2. rewrite lookup_insert_eq. eauto. Qed.

Lemma path_exists_insert_ne (fs : gmap (list N) (list N)) p q c :
  p ≠ q → path_exists (<[p := c]> fs) q = path_exists fs q.
Proof. intros Hne. unfold path_exists. by rewrite lookup_insert_ne. Qed.

Lemma numbered_ne_target d base_name k :
  numbered d (splitext base_name).1 (splitext base_name).2 k ≠ path_join d base_name.
Proof.
  unfold numbered. intros Heq. apply path_join_inj in Heq.
  rewrite <- (splitext_app base_name) in Heq at 3.
  apply app_inv_head in Heq. apply (f_equal length) in Heq.
  rewrite !length_app in Heq. change (length (lit "(")) with 1%nat in Heq. lia.
Qed.

(** C8.  [_unique_path] always returns; the path it returns does not
    exist; it is the target path itself when that is free, and otherwise
    the numbered path with the least index from 1 on that is free.  Saving
    under the returned path and asking again for the same target gives a
    different path, again free; in a directory where the target and its
    first numbered name are free, the first save goes to the target and
    the second to the name with (1) before the extension. *)
Theorem unique_path_free (fs : gmap (list N) (list N)) (dest_dir base_name : list N) :
  let name := (splitext base_name).1 in
  let ext := (splitext base_name).2 in
  let target := path_join dest_dir base_name in
  let p := _unique_path fs dest_dir base_name in
  name ++ ext = base_name ∧
  unique_path_loop (S (S (size fs))) fs dest_dir name ext target 1 = Some p ∧
  path_exists fs p = false ∧
  (path_exists fs target = false → p = target) ∧
  (path_exists fs target = true →
     ∃ k, 1 <= k ∧ p = numbered dest_dir name ext k ∧
          ∀ j, 1 <= j → j < k → path_exists fs (numbered dest_dir name ext j) = true) ∧
  ∀ content,
    let fs1 := <[p := content]> fs in
    let p2 := _unique_path fs1 dest_dir base_name in
    p2 ≠ p ∧ path_exists fs1 p2 = false ∧ fs1 !! p = Some content ∧
    (path_exists fs target = false →
     path_exists fs (numbered dest_dir name ext 1) = false →
     p = target ∧ p2 = numbered dest_dir name ext 1).
Proof.
  intros name ext target p.
  pose proof (unique_path_loop_eq fs dest_dir base_name) as Hloop.
  fold name ext target p in Hloop.
  pose proof (unique_path_loop_Some _ _ _ _ _ _ _ _ Hloop) as [Hfree Hcases].
  assert (path_exists fs target = false → p = target) as Hfirst.
  { intros Ht. destruct Hcases as [|[Hex _]]; [done | congruence]. }
  split; [apply splitext_app|]. split; [done|]. split; [done|]. split; [done|]. split.
  { intros Ht. destruct Hcases as [Heq|[_ Hk]]; [congruence | done]. }
  intros content fs1 p2.
  pose proof (unique_path_loop_eq fs1 dest_dir base_name) as Hloop2.
  fold name ext target p2 in Hloop2.
  pose proof (unique_path_loop_Some _ _ _ _ _ _ _ _ Hloop2) as [Hfree2 Hcases2].
  assert (p2 ≠ p) as Hne.
  { intros ->. unfold fs1 in Hfree2. by rewrite path_exists_insert in Hfree2. }
  split; [done|]. split; [done|]. split; [apply lookup_insert_eq|].
  intros Ht H1. specialize (Hfirst Ht). split; [done|].
  destruct Hcases2 as [Heq|(_ & k & Hk & Hp2 & Hbelow)].
  { exfalso. apply Hne. by transitivity target. }
  rewrite Hp2.
  destruct (decide (k = 1)) as [->|Hk1]; [done|].
  exfalso. assert (path_exists fs1 (numbered dest_dir name ext 1) = true) as Hex1.
  { apply Hbelow; lia. }
  unfold fs1 in Hex1. destruct (decide (p = numbered dest_dir name ext 1)) as [Heq|Hneq].
  - apply (numbered_ne_target dest_dir base_name 1). fold name ext target.
    by transitivity p.
  - rewrite path_exists_insert_ne in Hex1 by done. rewrite H1 in Hex1. discriminate.
Qed.

Lemma unique_path_free_witness :
  let fs : gmap (list N) (list N) :=
    {[ lit "D\Acme_ABA#12AB34CD.pdf" := [1]; lit "D\Acme_ABA#12AB34CD(1).pdf" := [2] ]} in
  _unique_path fs (lit "D") (lit "Acme_ABA#12AB34CD.pdf") = lit "D\Acme_ABA#12AB34CD(2).pdf" ∧
  _unique_path ∅ (lit "D") (lit "a.txt") = lit "D\a.txt" ∧
  _unique_path (<[lit "D\a.txt" := [7]]> ∅) (lit "D") (lit "a.txt") = lit "D\a(1).txt".
Proof.
  intros fs. split; [vm_compute; reflexivity|].
  destruct (unique_path_free ∅ (lit "D") (lit "a.txt"))
    as (_ & _ & _ & Hfirst & _ & Hsecond).
  destruct (Hsecond [7]) as (_ & _ & _ & Hboth).
  destruct Hboth as [H1 H2]; [reflexivity | reflexivity |].
  split; [exact H1|].
  rewrite H1 in H2. exact H2.
Defined.

(** ** The log store (db.py) *)

Lemma sql_eq_Some a x : sql_eq a (Some x) = true ↔ a = Some x.
Proof.
  destruct a as [y|]; simpl; [|done].
  rewrite bool_decide_eq_true. split; [by intros -> | by intros [= ->]].
Qed.

Lemma sql_eq_None a : sql_eq a None = false.
Proof. by destruct a. Qed.

Lemma reply_conflict_key new old token from_email received_on :
  r_token new = Some token → r_from_email new = Some from_email →
  r_received_on new = Some received_on →
  reply_conflict new old = true ↔
  r_token old = Some token ∧ r_from_email old = Some from_email ∧
  r_received_on old = Some received_on.
Proof.
  intros Ht Hf Hr. unfold reply_conflict. rewrite Ht, Hf, Hr.
  rewrite !andb_true_iff, !sql_eq_Some. tauto.
Qed.

Lemma existsb_reply_conflict new t token from_email received_on :
  r_token new = Some token → r_from_email new = Some from_email →
  r_received_on new = Some received_on →
  existsb (reply_conflict new) t = true ↔ rows_with_key token from_email received_on t ≠ [].
Proof.
  intros Ht Hf Hr. induction t as [|old t IH]; simpl; [done|].
  unfold rows_with_key in *. rewrite filter_cons, orb_true_iff, IH.
  rewrite (reply_conflict_key _ _ _ _ _ Ht Hf Hr).
  case_decide; [split; [done | by left] | tauto].
Qed.

Lemma rows_with_key_snoc token from_email received_on t r :
  r_token r = Some token → r_from_email r = Some from_email →
  r_received_on r = Some received_on →
  rows_with_key token from_email received_on (t ++ [r])
    = rows_with_key token from_email received_on t ++ [r].
Proof.
  intros Ht Hf Hr. unfold rows_with_key. rewrite filter_app, filter_cons, filter_nil.
  by rewrite decide_True.
Qed.

Lemma rows_with_key_snoc_other token from_email received_on t r :
  ¬ (r_token r = Some token ∧ r_from_email r = Some from_email ∧
     r_received_on r = Some received_on) →
  rows_with_key token from_email received_on (t ++ [r])
    = rows_with_key token from_email received_on t.
Proof.
  intros Hne. unfold rows_with_key. rewrite filter_app, filter_cons, filter_nil.
  by rewrite decide_False, app_nil_r.
Qed.

(** The insert keeps the constraint of the table. *)
Lemma insert_or_ignore_reply_unique new t :
  reply_log_unique t → reply_log_unique (insert_or_ignore_reply new t).
Proof.
  intros Hu. unfold insert_or_ignore_reply.
  destruct (existsb (reply_conflict new) t) eqn:Hex; [done|].
  intros token from_email received_on.
  destruct (decide (r_token new = Some token ∧ r_from_email new = Some from_email ∧
                    r_received_on new = Some received_on)) as [(Ht & Hf & Hr)|Hne].
  - rewrite rows_with_key_snoc by done.
    destruct (rows_with_key token from_email received_on t) eqn:E; [simpl; lia|].
    assert (existsb (reply_conflict new) t = true) as Hex'.
    { apply (existsb_reply_conflict _ _ _ _ _ Ht Hf Hr). by rewrite E. }
    congruence.
  - rewrite rows_with_key_snoc_other by done. apply Hu.
Qed.

(** C4.  In a reply log that respects its UNIQUE constraint, after a row
    with the key (token, from_email, received_on) has been inserted there
    is exactly one row with that key, and inserting a row with the same key
    again, whatever its other columns, changes nothing; when the key was
    present before, the first insert changes nothing either. *)
Theorem reply_insert_idempotent (d : db) (row row' : reply_log_args)
    (token from_email received_on : list N) :
  reply_log_unique (reply_log d) →
  ra_token row = Some token → ra_from_email row = Some from_email →
  ra_received_on row = Some received_on →
  ra_token row' = Some token → ra_from_email row' = Some from_email →
  ra_received_on row' = Some received_on →
  let d1 := insert_reply_log row d in
  length (rows_with_key token from_email received_on (reply_log d1)) = 1%nat ∧
  insert_reply_log row' d1 = d1 ∧
  insert_reply_log row d1 = d1 ∧
  reply_log_unique (reply_log d1) ∧
  (rows_with_key token from_email received_on (reply_log d) ≠ [] → d1 = d) ∧
  mail_log d1 = mail_log d ∧ attachment_log d1 = attachment_log d.
Proof.
  intros Hu Ht Hf Hr Ht' Hf' Hr' d1.
  assert (length (rows_with_key token from_email received_on (reply_log d1)) = 1%nat) as Hone.
  { unfold d1. simpl. unfold insert_or_ignore_reply.
    destruct (existsb (reply_conflict (reply_row_of row)) (reply_log d)) eqn:Hex.
    - apply (existsb_reply_conflict _ _ token from_email received_on) in Hex; [|done..].
      specialize (Hu token from_email received_on).
      destruct (rows_with_key token from_email received_on (reply_log d)) as [|? [|]];
        [done | done | simpl in Hu; lia].
    - rewrite rows_with_key_snoc by done.
      destruct (rows_with_key token from_email received_on (reply_log d)) eqn:E; [done|].
      assert (existsb (reply_conflict (reply_row_of row)) (reply_log d) = true) as Hex'.
      { apply (existsb_reply_conflict _ _ token from_email received_on); [done..|].
        by rewrite E. }
      congruence. }
  assert (∀ r : reply_log_args,
            ra_token r = Some token → ra_from_email r = Some from_email →
            ra_received_on r = Some received_on → insert_reply_log r d1 = d1) as Hnoop.
  { intros r Hrt Hrf Hrr. unfold insert_reply_log at 1. destruct d1 as [ml rl al] eqn:Ed1.
    simpl in *. f_equal. unfold insert_or_ignore_reply.
    assert (existsb (reply_conflict (reply_row_of r)) rl = true) as ->; [|done].
    apply (existsb_reply_conflict _ _ token from_email received_on); [done..|].
    intros E. rewrite E in Hone. done. }
  split; [done|]. split; [by apply Hnoop|]. split; [by apply Hnoop|].
  split; [by apply insert_or_ignore_reply_unique|]. split; [|done].
  intros Hpresent. unfold d1, insert_reply_log, insert_or_ignore_reply.
  assert (existsb (reply_conflict (reply_row_of row)) (reply_log d) = true) as ->.
  { by apply (existsb_reply_conflict _ _ token from_email received_on). }
  by destruct d.
Qed.

Lemma reply_insert_idempotent_witness :
  let row := reply_args "ABA#12AB34CD" "s@x.com" "2025-01-02 03:04:05" "Acme" in
  let row' := reply_args "ABA#12AB34CD" "s@x.com" "2025-01-02 03:04:05" "" in
  let d1 := insert_reply_log row empty_db in
  length (reply_log d1) = 1%nat ∧
  length (rows_with_key (lit "ABA#12AB34CD") (lit "s@x.com") (lit "2025-01-02 03:04:05")
            (reply_log d1)) = 1%nat ∧
  insert_reply_log row' d1 = d1.
Proof.
  intros row row' d1. split; [reflexivity|].
  assert (reply_log_unique (reply_log empty_db)) as Hu.
  { intros ? ? ?. apply le_0_n. }
  pose proof (reply_insert_idempotent empty_db row row' _ _ _ Hu
                eq_refl eq_refl eq_refl eq_refl eq_refl eq_refl) as (H1 & H2 & _).
  split; [exact H1 | exact H2].
Defined.

(** A key with a NULL component is outside the constraint: SQLite treats
    NULLs as distinct, and the insert is repeated.  [poll_inbox] never
    passes one ([poll_item_token]). *)
Lemma reply_insert_null_key :
  let row :=
    {| ra_token := Some (lit "ABA#12AB34CD"); ra_company := None; ra_from_email := None;
       ra_received_on := Some (lit "2025-01-02"); ra_has_attachments := None;
       ra_parse_ok := None; ra_parse_json := None; ra_collection_id := None;
       ra_product_desc := None |} in
  length (reply_log (insert_reply_log row (insert_reply_log row empty_db))) = 2%nat.
Proof. reflexivity. Qed.

(** ** Attachment capture (poller.py, [_save_attachments]) *)

Lemma path_join_nonempty d name : name ≠ [] → path_join d name ≠ [].
Proof.
  unfold path_join. intros Hn. destruct (last d); [|done].
  destruct (_ || _); intros Heq; apply app_eq_nil in Heq as [_ Heq];
    [done | by apply app_eq_nil in Heq as [Heq _]].
Qed.

Lemma numbered_nonempty d name ext k : numbered d name ext k ≠ [].
Proof.
  unfold numbered. apply path_join_nonempty. intros Heq.
  apply app_eq_nil in Heq as [_ Heq]. by apply app_eq_nil in Heq as [Heq _].
Qed.

Lemma unique_path_nonempty (fs : gmap (list N) (list N)) d base_name :
  base_name ≠ [] → _unique_path fs d base_name ≠ [].
Proof.
  intros Hb. pose proof (unique_path_loop_eq fs d base_name) as Hq.
  apply unique_path_loop_Some in Hq as [_ [->|(_ & k & _ & -> & _)]].
  - by apply path_join_nonempty.
  - apply numbered_nonempty.
Qed.

Section CaptureProofs.
Context `{Settings} `{Runtime}.

(** One attachment: one row; a file exactly when it is within the ceiling
    and the save goes through. *)
Lemma save_attachment_spec safe_company safe_token token msg_entryid received_on
    dest_dir i att w saved :
  safe_token ≠ [] →
  let r := save_attachment safe_company safe_token token msg_entryid received_on
             dest_dir i att (w, saved) in
  ∃ rec,
    attachment_log (w_db r.1) = attachment_log (w_db w) ++ [rec] ∧
    mail_log (w_db r.1) = mail_log (w_db w) ∧
    reply_log (w_db r.1) = reply_log (w_db w) ∧
    w_outbox r.1 = w_outbox w ∧
    a_token rec = Some token ∧
    a_file_size_bytes rec = Some (default 0%Z (att_Size att)) ∧
    if written att then
      ∃ path, path ≠ [] ∧ w_fs w !! path = None ∧
              w_fs r.1 = <[path := att_content att]> (w_fs w) ∧
              a_saved_path rec = Some path ∧
              a_sha256 rec = Some (sha256_hexdigest (att_content att)) ∧
              r.2 = S saved
    else w_fs r.1 = w_fs w ∧ a_saved_path rec = Some [] ∧ a_sha256 rec = Some [] ∧
         r.2 = saved.
Proof.
  intros Htok r. unfold save_attachment in r. unfold written, oversize.
  set (over := negb (MAX_ATTACH_SIZE_MB =? 0)%Z &&
               (MAX_ATTACH_SIZE_MB * 1024 * 1024 <? default 0%Z (att_Size att))%Z) in *.
  destruct over; simpl in r.
  { eexists. subst r. simpl. repeat split. }
  destruct (att_save_ok att); simpl in r.
  - eexists. subst r. simpl. repeat split.
    match goal with |- context [_unique_path ?fs ?d ?b] =>
      set (path := _unique_path fs d b);
      assert (path ≠ []) as Hne;
      [ apply unique_path_nonempty | pose proof (unique_path_lookup fs d b) as Hfresh ]
    end.
    { destruct (truthy safe_company); intros Heq; apply app_eq_nil in Heq as [Heq _];
        [apply app_eq_nil in Heq as [_ Heq]; discriminate Heq | done]. }
    exists path. repeat split; [done | done |].
    unfold _sha256_of_file. by rewrite lookup_insert_eq.
  - eexists. subst r. simpl. repeat split.
Qed.

Lemma save_attachments_loop_Some safe_company safe_token token msg_entryid received_on
    dest_dir i att atts st :
  save_attachments_loop safe_company safe_token token msg_entryid received_on dest_dir i
    (Some att :: atts) st
  = save_attachments_loop safe_company safe_token token msg_entryid received_on dest_dir
      (i + 1) atts
      (save_attachment safe_company safe_token token msg_entryid received_on dest_dir
         i att st).
Proof. reflexivity. Qed.

Lemma record_for_weaken (fs0 fs fs' fs'' : gmap (list N) (list N)) token att rec :
  fs0 ⊆ fs → fs' ⊆ fs'' →
  record_for fs fs' token att rec → record_for fs0 fs'' token att rec.
Proof.
  intros Hsub0 Hsub1 (Ht & Hsz & Hrec). split; [done|]. split; [done|].
  destruct (written att); [|done].
  destruct Hrec as (path & Hne & Hfresh & Hthere & Hp & Hs).
  exists path. repeat split; [done | | | done | done].
  - destruct (fs0 !! path) eqn:E; [|done].
    by rewrite (lookup_weaken _ _ _ _ E Hsub0) in Hfresh.
  - by apply (lookup_weaken _ _ _ _ Hthere Hsub1).
Qed.

Lemma save_attachments_loop_spec safe_company safe_token token msg_entryid received_on
    dest_dir atts : ∀ i w saved,
  safe_token ≠ [] →
  let r := save_attachments_loop safe_company safe_token token msg_entryid received_on
             dest_dir i atts (w, saved) in
  let n := length (filter (fun a => written a = true) (omap id atts)) in
  ∃ recs,
    attachment_log (w_db r.1) = attachment_log (w_db w) ++ recs ∧
    Forall2 (record_for (w_fs w) (w_fs r.1) token) (omap id atts) recs ∧
    r.2 = (saved + n)%nat ∧
    size (w_fs r.1) = (size (w_fs w) + n)%nat ∧
    w_fs w ⊆ w_fs r.1 ∧
    (∀ p, is_Some (w_fs r.1 !! p) ↔
          is_Some (w_fs w !! p) ∨ (p ≠ [] ∧ Some p ∈ map a_saved_path recs)) ∧
    mail_log (w_db r.1) = mail_log (w_db w) ∧
    reply_log (w_db r.1) = reply_log (w_db w) ∧
    w_outbox r.1 = w_outbox w.
Proof.
  induction atts as [|[att|] atts IH]; intros i w saved Htok; cbv zeta.
  - simpl. exists []. rewrite app_nil_r.
    split; [done|]. split; [constructor|]. split; [lia|]. split; [lia|].
    split; [done|]. split; [|done].
    intros p. split; [by left|]. intros [Hp|[_ Hp]]; [done|]. by apply elem_of_nil in Hp.
  - rewrite save_attachments_loop_Some.
    change (omap id (Some att :: atts)) with (att :: omap id atts).
    pose proof (save_attachment_spec safe_company safe_token token msg_entryid
                  received_on dest_dir i att w saved Htok) as Hstep.
    destruct (save_attachment safe_company safe_token token msg_entryid received_on
                dest_dir i att (w, saved)) as [w1 saved1].
    simpl in Hstep. destruct Hstep as (rec & Hlog & Hml & Hrl & Hob & Htk & Hsz & Hstep).
    specialize (IH (i + 1) w1 saved1 Htok). cbv zeta in IH.
    destruct IH as (recs & Hlog' & Hrecs & Hcount & Hsize & Hsub & Hfiles & Hml' & Hrl' & Hob').
    exists (rec :: recs). rewrite filter_cons.
    assert (w_fs w ⊆ w_fs w1) as Hsub1.
    { destruct (written att).
      - destruct Hstep as (path & _ & Hfresh & -> & _). by apply insert_subseteq.
      - by destruct Hstep as (-> & _). }
    split; [rewrite Hlog', Hlog, <- app_assoc; done|].
    split.
    { constructor.
      - split; [done|]. split; [done|]. destruct (written att); [|by destruct Hstep as (_ & ? & ? & _)].
        destruct Hstep as (path & Hne & Hfresh & Hfs & Hp & Hs & _).
        exists path. repeat split; [done | done | | done | done].
        apply (lookup_weaken (w_fs w1)); [|done]. rewrite Hfs. apply lookup_insert_eq.
      - eapply Forall2_impl; [exact Hrecs|]. intros a r0.
        by apply record_for_weaken. }
    destruct (written att) eqn:Hw.
    + destruct Hstep as (path & Hne & Hfresh & Hfs & Hpath & _ & ->).
      rewrite decide_True by done. simpl length.
      split; [lia|]. split.
      { rewrite Hsize, Hfs, map_size_insert_None by done. lia. }
      split; [by transitivity (w_fs w1)|].
      split; [|split; [congruence|]; split; congruence].
      intros p. rewrite Hfiles, Hfs, lookup_insert_is_Some. simpl map.
      rewrite Hpath, elem_of_cons. split.
      * intros [[<-|[_ Hp]]|[Hp Hin]]; [right; split; [done | by left] | by left |].
        right. split; [done | by right].
      * intros [Hp|[Hp [[= ->]|Hin]]]; [| by left; left | by right].
        destruct (decide (path = p)) as [->|]; [by left; left | left; right; done].
    + destruct Hstep as (Hfs & Hpath & _ & ->).
      rewrite decide_False by done.
      split; [lia|]. split; [rewrite Hsize, Hfs; lia|].
      split; [by transitivity (w_fs w1)|].
      split; [|split; [congruence|]; split; congruence].
      intros p. rewrite Hfiles, Hfs. simpl map. rewrite Hpath, elem_of_cons.
      split.
      * intros [Hp|[Hp Hin]]; [by left | right; split; [done | by right]].
      * intros [Hp|[Hp [[= ->]|Hin]]]; [by left | done | by right].
  - change (omap id (None :: atts)) with (omap id atts). apply IH, Htok.
Qed.

(** The capture writes to the attachment log and to the files only. *)
Lemma save_attachments_frame company token collection_id msg msg_entryid received_on w :
  let r := _save_attachments company token collection_id msg msg_entryid received_on w in
  mail_log (w_db r.1) = mail_log (w_db w) ∧
  reply_log (w_db r.1) = reply_log (w_db w) ∧
  w_outbox r.1 = w_outbox w.
Proof.
  intros r. subst r. unfold _save_attachments.
  destruct (it_Attachments msg) as [[|a l]|]; [done | | done].
  cbv beta iota zeta.
  pose proof (save_attachments_loop_spec (_sanitize_filename company)
                (_sanitize_filename token) token msg_entryid received_on
                (dest_dir_of collection_id) (a :: l) 1 w 0%nat
                (sanitize_nonempty token)) as Hspec.
  cbv zeta in Hspec. by destruct Hspec as (recs & _ & _ & _ & _ & _ & _ & Hframe).
Qed.

(** C7.  For the attachments the message delivers, in their order, one row
    each is appended to the attachment log and nothing else of the store
    changes.  The row of an attachment over the ceiling (a ceiling of 0 is
    none) or whose save fails has the empty path and the empty hash, and no
    file is written for it.  The row of a saved attachment has the path it
    was saved under, a path that did not exist before and that holds the
    content of the attachment afterwards, and the SHA-256 of that content.
    The count returned is the number of saved attachments, and it is the
    number of files that exist after the capture and did not before; these
    files are exactly the paths the rows carry, and no file that was there
    is changed. *)
Theorem capture_accounting (company token collection_id : list N) (msg : mail_item)
    (msg_entryid received_on : list N) (w : world) :
  let r := _save_attachments company token collection_id msg msg_entryid received_on w in
  let atts := delivered (it_Attachments msg) in
  ∃ recs,
    attachment_log (w_db r.1) = attachment_log (w_db w) ++ recs ∧
    Forall2 (record_for (w_fs w) (w_fs r.1) token) atts recs ∧
    r.2 = length (filter (fun a => written a = true) atts) ∧
    size (w_fs r.1) = (size (w_fs w) + r.2)%nat ∧
    w_fs w ⊆ w_fs r.1 ∧
    (∀ p, is_Some (w_fs r.1 !! p) ↔
          is_Some (w_fs w !! p) ∨ (p ≠ [] ∧ Some p ∈ map a_saved_path recs)) ∧
    mail_log (w_db r.1) = mail_log (w_db w) ∧
    reply_log (w_db r.1) = reply_log (w_db w) ∧
    w_outbox r.1 = w_outbox w.
Proof.
  intros r atts. subst r atts. unfold _save_attachments, delivered.
  destruct (it_Attachments msg) as [[|a l]|].
  - exists []. simpl. rewrite app_nil_r.
    split; [done|]. split; [constructor|]. split; [done|]. split; [lia|].
    split; [done|]. split; [|done].
    intros p. split; [by left|]. intros [Hp|[_ Hp]]; [done|]. by apply elem_of_nil in Hp.
  - cbv beta iota zeta.
    change (default [] (Some (a :: l))) with (a :: l).
    pose proof (save_attachments_loop_spec (_sanitize_filename company)
                  (_sanitize_filename token) token msg_entryid received_on
                  (dest_dir_of collection_id) (a :: l) 1 w 0%nat
                  (sanitize_nonempty token)) as Hspec.
    cbv zeta in Hspec. destruct Hspec as (recs & H1 & H2 & H3 & H4 & H5).
    exists recs. split; [exact H1|]. split; [exact H2|].
    split; [exact H3|]. split; [|exact H5].
    rewrite H4. rewrite H3. reflexivity.
  - exists []. simpl. rewrite app_nil_r.
    split; [done|]. split; [constructor|]. split; [done|]. split; [lia|].
    split; [done|]. split; [|done].
    intros p. split; [by left|]. intros [Hp|[_ Hp]]; [done|]. by apply elem_of_nil in Hp.
Qed.
End CaptureProofs.

(** ** The scan (poller.py, [poll_inbox]) *)

Arguments save_attachment : simpl never.
Arguments _save_attachments : simpl never.

Section PollProofs.
Context `{Settings} `{Runtime}.

Lemma poll_item_no_token it st : extract_token it = None → poll_item it st = st.
Proof. intros He. destruct st as [w c]. unfold poll_item. by rewrite He. Qed.

(** An item with a token: one insert into the reply log under a key
    without NULL, both counters advance, and the send log stays. *)
Lemma poll_item_token it w c token :
  extract_token it = Some token →
  let r := poll_item it (w, c) in
  (∃ row, r_token row = Some token ∧ r_from_email row = Some (_sender_email it) ∧
          r_received_on row = Some (received_on_of (it_ReceivedTime it)) ∧
          reply_log (w_db r.1) = insert_or_ignore_reply row (reply_log (w_db w))) ∧
  mail_log (w_db r.1) = mail_log (w_db w) ∧
  w_outbox r.1 = w_outbox w ∧
  scanned r.2 = S (scanned c) ∧ hits r.2 = S (hits c).
Proof.
  intros He r. subst r. unfold poll_item. rewrite He.
  destruct (extract_token_Some_nonempty _ _ He) as (t0 & t' & ->).
  cbv zeta. destruct (has_attachments_of it).
  - match goal with |- context [_save_attachments ?a ?b ?c ?d ?e ?f ?g] =>
      destruct (save_attachments_frame a b c d e f g) as (Hml & Hrl & Hob)
    end.
    cbv zeta in Hml, Hrl, Hob. simpl fst. simpl snd.
    split; [|split; [|split; [|split]]]; [|by rewrite Hml|by rewrite Hob|done..].
    eexists. rewrite Hrl. simpl. repeat apply conj. 4: reflexivity. all: reflexivity.
  - simpl. split; [|done]. eexists. repeat apply conj. 4: reflexivity. all: reflexivity.
Qed.

Lemma poll_item_counts it w c :
  let r := poll_item it (w, c) in
  let k := if bool_decide (is_Some (extract_token it)) then 1%nat else 0%nat in
  scanned r.2 = (scanned c + k)%nat ∧ hits r.2 = (hits c + k)%nat ∧
  mail_log (w_db r.1) = mail_log (w_db w) ∧ w_outbox r.1 = w_outbox w.
Proof.
  cbv zeta. destruct (extract_token it) as [token|] eqn:He.
  - destruct (poll_item_token it w c token He) as (_ & Hml & Hob & Hs & Hh).
    rewrite bool_decide_eq_true_2 by eauto. rewrite Hs, Hh. repeat split; [lia | lia | done..].
  - rewrite (poll_item_no_token it (w, c) He). simpl. repeat split; lia.
Qed.

Lemma poll_items_counts items : ∀ w c,
  let r := poll_items items (w, c) in
  let k := length (filter (fun it => is_Some (extract_token it)) (omap id items)) in
  scanned r.2 = (scanned c + k)%nat ∧ hits r.2 = (hits c + k)%nat ∧
  mail_log (w_db r.1) = mail_log (w_db w) ∧ w_outbox r.1 = w_outbox w.
Proof.
  induction items as [|[it|] items IH]; intros w c; cbv zeta.
  - simpl. repeat split; lia.
  - change (omap id (Some it :: items)) with (it :: omap id items).
    change (poll_items (Some it :: items) (w, c))
      with (poll_items items (poll_item it (w, c))).
    destruct (poll_item_counts it w c) as (Hs & Hh & Hml & Hob).
    destruct (poll_item it (w, c)) as [w1 c1]. simpl in Hs, Hh, Hml, Hob.
    destruct (IH w1 c1) as (Hs' & Hh' & Hml' & Hob'). rewrite filter_cons.
    rewrite Hs', Hh', Hml', Hob', Hs, Hh.
    case_bool_decide; [rewrite decide_True by done | rewrite decide_False by done];
      simpl; repeat split; try lia; done.
  - change (omap id (None :: items)) with (omap id items). apply IH.
Qed.

Lemma poll_folders_counts folders : ∀ w c,
  let r := poll_folders folders (w, c) in
  let k := length (with_token folders) in
  scanned r.2 = (scanned c + k)%nat ∧ hits r.2 = (hits c + k)%nat ∧
  mail_log (w_db r.1) = mail_log (w_db w) ∧ w_outbox r.1 = w_outbox w.
Proof.
  induction folders as [|f folders IH]; intros w c; cbv zeta.
  - simpl. repeat split; lia.
  - change (poll_folders (f :: folders) (w, c))
      with (poll_folders folders (poll_folder f (w, c))).
    unfold with_token, examined. simpl flat_map. rewrite filter_app, length_app.
    fold (examined folders). fold (with_token folders).
    assert (let r := poll_folder f (w, c) in
            let k := length (filter (fun it => is_Some (extract_token it))
                               (omap id (take POLL_MAX_SCAN (default [] f)))) in
            scanned r.2 = (scanned c + k)%nat ∧ hits r.2 = (hits c + k)%nat ∧
            mail_log (w_db r.1) = mail_log (w_db w) ∧ w_outbox r.1 = w_outbox w) as Hf.
    { destruct f as [items|]; simpl.
      - apply poll_items_counts.
      - rewrite take_nil. simpl. repeat split; lia. }
    cbv zeta in Hf. destruct Hf as (Hs & Hh & Hml & Hob).
    destruct (poll_folder f (w, c)) as [w1 c1]. simpl in Hs, Hh, Hml, Hob.
    destruct (IH w1 c1) as (Hs' & Hh' & Hml' & Hob').
    rewrite Hs', Hh', Hml', Hob', Hs, Hh. repeat split; try lia; done.
Qed.

(** What [poll_inbox] returns: [matched] is the number of examined items
    with a token, and [scanned] is that same number: an item without a
    token leaves the loop before the counter is advanced. *)
Lemma poll_inbox_counters folders w :
  hits (poll_inbox folders w).2 = length (with_token folders) ∧
  scanned (poll_inbox folders w).2 = length (with_token folders) ∧
  mail_log (w_db (poll_inbox folders w).1) = mail_log (w_db w).
Proof.
  destruct (poll_folders_counts folders w {| scanned := 0; hits := 0 |})
    as (Hs & Hh & Hml & _).
  unfold poll_inbox. by rewrite Hs, Hh, Hml.
Qed.

(** C9.  An item with no token in its subject, its plain body and its HTML
    body leaves the world as it is, log store and files, and the counters
    too; the scan goes on with the next item. *)
Theorem no_token_item_skipped (it : mail_item) (rest : list (option mail_item))
    (w : world) (c : counters) :
  no_token (or_empty (it_Subject it)) →
  no_token (or_empty (it_Body it)) →
  no_token (or_empty (it_HTMLBody it)) →
  poll_item it (w, c) = (w, c) ∧
  poll_items (Some it :: rest) (w, c) = poll_items rest (w, c).
Proof.
  intros Hs Hb Hh.
  assert (extract_token it = None) as He by by apply extract_token_None.
  split.
  - by apply poll_item_no_token.
  - change (poll_items (Some it :: rest) (w, c))
      with (poll_items rest (poll_item it (w, c))).
    by rewrite poll_item_no_token.
Qed.
End PollProofs.

(** ** The send log (db.py, [insert_mail_log], and its callers) *)

Lemma mail_conflict_token new old token :
  m_token new = Some token → mail_conflict new old = true ↔ m_token old = Some token.
Proof. intros Ht. unfold mail_conflict. rewrite Ht. apply sql_eq_Some. Qed.

Lemma mail_conflict_null new old : m_token new = None → mail_conflict new old = false.
Proof. intros Ht. unfold mail_conflict. rewrite Ht. apply sql_eq_None. Qed.

Lemma rows_with_token_replace_same new t token :
  m_token new = Some token →
  rows_with_token token (insert_or_replace_mail new t) = [new].
Proof.
  intros Ht. unfold rows_with_token, insert_or_replace_mail.
  rewrite filter_app, filter_cons, filter_nil, decide_True by done.
  assert (filter (fun r => m_token r = Some token)
            (filter (fun old => mail_conflict new old = false) t) = []) as ->; [|done].
  induction t as [|old t IH]; [done|].
  pose proof (mail_conflict_token new old token Ht) as Hiff.
  rewrite filter_cons. destruct (decide (mail_conflict new old = false)) as [Hc|Hc]; [|done].
  rewrite filter_cons, decide_False; [done|].
  intros Hold. apply Hiff in Hold. congruence.
Qed.

Lemma rows_with_token_replace_other new t token :
  m_token new ≠ Some token →
  rows_with_token token (insert_or_replace_mail new t) = rows_with_token token t.
Proof.
  intros Hne. unfold rows_with_token, insert_or_replace_mail.
  rewrite filter_app, filter_cons, filter_nil, decide_False, app_nil_r by done.
  induction t as [|old t IH]; [done|].
  rewrite !filter_cons. destruct (decide (mail_conflict new old = false)) as [Hc|Hc].
  - rewrite filter_cons. case_decide; by rewrite IH.
  - apply not_false_is_true in Hc. rewrite decide_False; [done|].
    intros Hold. unfold mail_conflict in Hc. rewrite Hold in Hc.
    destruct (m_token new) as [x|]; simpl in Hc; [|done].
    apply bool_decide_eq_true_1 in Hc. by subst x.
Qed.

Lemma insert_or_replace_mail_unique new t :
  mail_log_unique t → mail_log_unique (insert_or_replace_mail new t).
Proof.
  intros Hu token. destruct (decide (m_token new = Some token)) as [Ht|Hne].
  - by rewrite rows_with_token_replace_same.
  - rewrite rows_with_token_replace_other by done. apply Hu.
Qed.

Lemma upserts_unique rows t : mail_log_unique t → mail_log_unique (upserts rows t).
Proof.
  revert t. induction rows as [|row rows IH]; intros t Hu; [done|].
  simpl. apply IH. by apply insert_or_replace_mail_unique.
Qed.

Lemma upserts_app rows rows' t : upserts (rows ++ rows') t = upserts rows' (upserts rows t).
Proof. unfold upserts. apply foldl_app. Qed.

(** The length of the send log does not grow when the token is there. *)
Lemma insert_or_replace_mail_length new t token :
  m_token new = Some token → mail_log_unique t → rows_with_token token t ≠ [] →
  length (insert_or_replace_mail new t) = length t.
Proof.
  intros Ht Hu Hpresent. unfold insert_or_replace_mail. rewrite length_app. simpl.
  assert (length (filter (fun old => mail_conflict new old = false) t)
          + length (rows_with_token token t) = length t)%nat as Hsplit.
  { clear Hu Hpresent. unfold rows_with_token.
    induction t as [|old t IH]; [done|]. rewrite !filter_cons.
    pose proof (mail_conflict_token new old token Ht) as Hiff.
    destruct (decide (mail_conflict new old = false)) as [Hc|Hc].
    - rewrite decide_False; [simpl; lia|]. intros Hold. apply Hiff in Hold. congruence.
    - rewrite decide_True; [simpl; lia|]. apply Hiff. by apply not_false_is_true. }
  specialize (Hu token).
  destruct (rows_with_token token t) as [|? [|]]; [done | simpl in *; lia | simpl in *; lia].
Qed.

Lemma send_one_mail_log env to_email company collection_id product_desc tpl paths w :
  ∃ rows,
    mail_log (w_db (send_one env to_email company collection_id product_desc tpl paths w).1)
      = upserts rows (mail_log (w_db w)) ∧ (length rows ≤ 1)%nat.
Proof.
  destruct (send_one env to_email company collection_id product_desc tpl paths w)
    as [w' [r|]] eqn:E.
  - apply send_one_Some in E as (_ & _ & _ & _ & m & row & _ & _ & _ & _ & _ & _ & _ & ->).
    exists [row]. split; [done | simpl; lia].
  - apply send_one_None in E as ->. exists []. split; [done | simpl; lia].
Qed.

Lemma bulk_send_loop_mail_log tpl paths rows : ∀ results w,
  ∃ inserted,
    mail_log (w_db (bulk_send_loop tpl paths rows results w).1)
      = upserts inserted (mail_log (w_db w)).
Proof.
  induction rows as [|[row env] rows IH]; intros results w; simpl.
  - by exists [].
  - destruct (negb (truthy (_safe_str (col_Email row)))); [apply IH|].
    match goal with |- context [send_one ?e ?a ?b ?c ?d ?t ?p ?w0] =>
      destruct (send_one_mail_log e a b c d t p w0) as (ins & Hins & _);
      destruct (send_one e a b c d t p w0) as [w' [[token subject]|]]
    end; simpl in Hins.
    + match goal with |- context [bulk_send_loop tpl paths rows ?res w'] =>
        destruct (IH res w') as (ins' & Hins')
      end.
      exists (ins ++ ins'). by rewrite Hins', Hins, upserts_app.
    + by exists ins.
Qed.

Section SendLog.
Context `{Settings} `{Runtime}.

Lemma run_op_mail_log o w :
  ∃ rows, mail_log (w_db (run_op o w)) = upserts rows (mail_log (w_db w)) ∧
          (writes_send_log o = false → rows = []).
Proof.
  destruct o; simpl; try (by exists []).
  - exists [row]. split; [done | discriminate].
  - destruct (send_one_mail_log env to_email company collection_id product_desc
                tpl attach_paths w) as (rows & Hrows & _).
    exists rows. split; [done | discriminate].
  - destruct (bulk_send_loop_mail_log tpl attach_paths rows [] w) as (ins & Hins).
    exists ins. split; [done | discriminate].
  - exists []. split; [|done]. apply poll_inbox_counters.
Qed.

Lemma run_ops_unique ops : ∀ w,
  mail_log_unique (mail_log (w_db w)) → mail_log_unique (mail_log (w_db (run_ops ops w))).
Proof.
  induction ops as [|o ops IH]; intros w Hu; [done|].
  simpl. apply IH. destruct (run_op_mail_log o w) as (rows & -> & _).
  by apply upserts_unique.
Qed.

(** C5.  Whatever operations run, from the empty store on, the send log
    has at most one row per token.  An insert whose token is there leaves
    exactly one row with that token, the new one, leaves the rows of every
    other token as they were, and does not make the log longer.  Every
    operation changes the send log through [insert_mail_log] alone, and an
    operation that does not reach [insert_mail_log] leaves it as it is. *)
Theorem send_log_one_row_per_token :
  (∀ ops, mail_log_unique (mail_log (w_db (run_ops ops empty_world)))) ∧
  (∀ ops w, mail_log_unique (mail_log (w_db w)) →
            mail_log_unique (mail_log (w_db (run_ops ops w)))) ∧
  (∀ row d token, ma_token row = Some token →
     rows_with_token token (mail_log (insert_mail_log row d)) = [mail_row_of row] ∧
     (∀ token', token' ≠ token →
        rows_with_token token' (mail_log (insert_mail_log row d))
          = rows_with_token token' (mail_log d)) ∧
     (mail_log_unique (mail_log d) → rows_with_token token (mail_log d) ≠ [] →
        length (mail_log (insert_mail_log row d)) = length (mail_log d))) ∧
  (∀ o w, ∃ rows, mail_log (w_db (run_op o w)) = upserts rows (mail_log (w_db w))) ∧
  (∀ o w, writes_send_log o = false → mail_log (w_db (run_op o w)) = mail_log (w_db w)).
Proof.
  split; [|split; [|split; [|split]]].
  - intros ops. apply run_ops_unique. intros token. simpl. lia.
  - intros ops w. apply run_ops_unique.
  - intros row d token Ht. split; [|split].
    + by apply rows_with_token_replace_same.
    + intros token' Hne. apply rows_with_token_replace_other.
      simpl. rewrite Ht. by intros [= ->].
    + intros Hu Hp. by apply (insert_or_replace_mail_length _ _ token).
  - intros o w. destruct (run_op_mail_log o w) as (rows & Hrows & _). eauto.
  - intros o w Hw. destruct (run_op_mail_log o w) as (rows & Hrows & Hnil).
    by rewrite Hrows, (Hnil Hw).
Qed.
End SendLog.

Lemma send_log_one_row_per_token_witness :
  let d1 := insert_mail_log (mail_args "ABA#12AB34CD" "a@x.com" "Acme") empty_db in
  let d2 := insert_mail_log (mail_args "ABA#12AB34CD" "b@y.com" "Bolt") d1 in
  mail_log d2 = [mail_row_of (mail_args "ABA#12AB34CD" "b@y.com" "Bolt")] ∧
  rows_with_token (lit "ABA#12AB34CD") (mail_log d2)
    = [mail_row_of (mail_args "ABA#12AB34CD" "b@y.com" "Bolt")] ∧
  length (mail_log d2) = length (mail_log d1).
Proof.
  intros d1 d2. split; [reflexivity|].
  destruct (@send_log_one_row_per_token config_py sample_runtime) as (_ & _ & Hins & _).
  destruct (Hins (mail_args "ABA#12AB34CD" "b@y.com" "Bolt") d1 (lit "ABA#12AB34CD") eq_refl)
    as (Hsame & _ & Hlen).
  split; [exact Hsame|]. apply Hlen.
  - apply insert_or_replace_mail_unique. intros token. apply le_0_n.
  - discriminate.
Defined.

(** ** Batch sending (mailer.py, [bulk_send]) *)

Lemma row_company_truthy row :
  str_or (row_company row) (lit "Valued Supplier") = row_company row.
Proof.
  unfold row_company, str_or.
  destruct (_safe_str (col_Company_Name row)) as [|c s]; reflexivity.
Qed.

Lemma send_one_goes_through tpl paths row env w :
  send_goes_through tpl (row, env) = true →
  ∃ m w',
    send_one env (_safe_str (col_Email row)) (row_company row)
      (_safe_str (col_Collection_ID row)) (_safe_str (col_Product_description row))
      tpl paths w
    = (w', Some (issue_token (uuid4_int env), compose_subject (issue_token (uuid4_int env)))) ∧
    sm_To m = _safe_str (col_Email row) ∧
    w_outbox w' = w_outbox w ++ [m].
Proof.
  unfold send_goes_through. simpl. intros Hok.
  apply andb_true_iff in Hok as [Hr Hd]. apply bool_decide_eq_true_1 in Hr as [html Hr].
  unfold send_one. rewrite row_company_truthy, Hr, Hd.
  destruct (resolve_sent env (issue_token (uuid4_int env))) as [[entryid conv] sent_on].
  eexists _, _. split; [reflexivity|]. split; [|reflexivity]. reflexivity.
Qed.

Lemma send_one_raises tpl paths row env w :
  send_goes_through tpl (row, env) = false →
  send_one env (_safe_str (col_Email row)) (row_company row)
    (_safe_str (col_Collection_ID row)) (_safe_str (col_Product_description row))
    tpl paths w = (w, None).
Proof.
  unfold send_goes_through. simpl. intros Hok. unfold send_one.
  rewrite row_company_truthy.
  destruct (tpl _ _ _ _) as [html|]; [|done].
  rewrite bool_decide_eq_true_2 in Hok by eauto. simpl in Hok. by rewrite Hok.
Qed.

Lemma bulk_send_loop_cons tpl paths row env rest results w :
  bulk_send_loop tpl paths ((row, env) :: rest) results w =
    if negb (addressed (row, env)) then bulk_send_loop tpl paths rest results w
    else
      match send_one env (_safe_str (col_Email row)) (row_company row)
              (_safe_str (col_Collection_ID row)) (_safe_str (col_Product_description row))
              tpl paths w with
      | (w', None) => (w', None)
      | (w', Some (token, subject)) =>
          bulk_send_loop tpl paths rest
            (results ++ [{| res_email := _safe_str (col_Email row);
                            res_company := row_company row;
                            res_collection_id := _safe_str (col_Collection_ID row);
                            res_product_desc := _safe_str (col_Product_description row);
                            res_token := token; res_subject := subject |}])
            w'
      end.
Proof. reflexivity. Qed.

(** While no send raises, the loop goes through the rows in order: one
    result and one message per row with an address. *)
Lemma bulk_send_loop_all tpl paths rows : ∀ results w,
  Forall (fun r => addressed r = true → send_goes_through tpl r = true) rows →
  ∃ w' new,
    bulk_send_loop tpl paths rows results w = (w', Some (results ++ new)) ∧
    map res_email new
      = map (fun r => _safe_str (col_Email r.1)) (filter (fun r => addressed r = true) rows) ∧
    map res_token new
      = map (fun r => issue_token (uuid4_int r.2)) (filter (fun r => addressed r = true) rows) ∧
    map sm_To (w_outbox w')
      = map sm_To (w_outbox w) ++
        map (fun r => _safe_str (col_Email r.1)) (filter (fun r => addressed r = true) rows).
Proof.
  induction rows as [|[row env] rows IH]; intros results w Hall.
  - exists w, []. simpl. by rewrite !app_nil_r.
  - apply Forall_cons in Hall as [Hrow Hall].
    rewrite bulk_send_loop_cons, filter_cons.
    destruct (addressed (row, env)) eqn:Ha; simpl negb; cbv iota.
    + rewrite decide_True by done.
      destruct (send_one_goes_through tpl paths row env w (Hrow eq_refl))
        as (m & w1 & -> & HTo & Hob).
      match goal with |- context [bulk_send_loop tpl paths rows ?res w1] =>
        destruct (IH res w1 Hall) as (w' & new & -> & Hem & Htk & Hob')
      end.
      eexists w', (_ :: new). rewrite <- app_assoc. split; [reflexivity|].
      simpl. rewrite Hem, Htk, Hob', Hob, map_app, <- app_assoc. simpl.
      by rewrite HTo.
    + rewrite decide_False by done.
      apply IH, Hall.
Qed.

(** The first send that raises ends the loop: the rows after it play no
    role, and no result list comes back. *)
Lemma bulk_send_loop_raises tpl paths r after before : ∀ results w,
  Forall (fun r => addressed r = true → send_goes_through tpl r = true) before →
  addressed r = true → send_goes_through tpl r = false →
  bulk_send_loop tpl paths (before ++ r :: after) results w
    = ((bulk_send_loop tpl paths before results w).1, None).
Proof.
  induction before as [|[row env] before IH]; intros results w Hall Ha Hfail.
  - destruct r as [row env]. simpl app. rewrite bulk_send_loop_cons, Ha. simpl negb. cbv iota.
    by rewrite (send_one_raises tpl paths row env w Hfail).
  - apply Forall_cons in Hall as [Hrow Hall].
    change (((row, env) :: before) ++ r :: after) with ((row, env) :: (before ++ r :: after)).
    rewrite !bulk_send_loop_cons.
    destruct (addressed (row, env)) eqn:Ha'; simpl negb; cbv iota.
    + destruct (send_one_goes_through tpl paths row env w (Hrow eq_refl))
        as (m & w1 & -> & _ & _).
      by apply IH.
    + by apply IH.
Qed.

(** C2, as the code has it.  [bulk_send] goes through the rows in order
    and skips those without an address.  When no send raises, it returns
    one result per row with an address, in order, and has handed one
    message per such row to Outlook.  When the send of a row raises, the
    exception leaves [bulk_send]: no list is returned, and the world is the
    one the rows before had produced; the rows after play no role. *)
Theorem bulk_send_stops_at_first_failure (tpl : template) (paths : list (list N))
    (rows : list (contact_row * send_env)) (w : world) :
  (Forall (fun r => addressed r = true → send_goes_through tpl r = true) rows →
   ∃ w' results,
     bulk_send rows tpl paths w = (w', Some results) ∧
     map res_email results
       = map (fun r => _safe_str (col_Email r.1)) (filter (fun r => addressed r = true) rows) ∧
     map res_token results
       = map (fun r => issue_token (uuid4_int r.2)) (filter (fun r => addressed r = true) rows) ∧
     map sm_To (w_outbox w')
       = map sm_To (w_outbox w) ++
         map (fun r => _safe_str (col_Email r.1)) (filter (fun r => addressed r = true) rows)) ∧
  (∀ before r after,
     rows = before ++ r :: after →
     Forall (fun r => addressed r = true → send_goes_through tpl r = true) before →
     addressed r = true → send_goes_through tpl r = false →
     bulk_send rows tpl paths w = ((bulk_send before tpl paths w).1, None) ∧
     ∀ after', bulk_send (before ++ r :: after') tpl paths w = bulk_send rows tpl paths w).
Proof.
  split.
  - intros Hall. destruct (bulk_send_loop_all tpl paths rows [] w Hall)
      as (w' & new & Hrun & Hem & Htk & Hob).
    exists w', new. by repeat split.
  - intros before r after -> Hall Ha Hfail. unfold bulk_send.
    rewrite (bulk_send_loop_raises tpl paths r after before [] w Hall Ha Hfail).
    split; [done|]. intros after'.
    by rewrite (bulk_send_loop_raises tpl paths r after' before [] w Hall Ha Hfail).
Qed.

Lemma bulk_send_stops_at_first_failure_witness :
  let rows := [(contact "a@x.com" "Acme", env_ok 1);
               (contact "b@y.com" "Bolt", env_send_raises 2);
               (contact "c@z.com" "Cog", env_ok 3)] in
  bulk_send rows plain_template [] empty_world
    = ((bulk_send [(contact "a@x.com" "Acme", env_ok 1)] plain_template [] empty_world).1, None) ∧
  (∃ w' results,
     bulk_send [(contact "a@x.com" "Acme", env_ok 1); (contact "c@z.com" "Cog", env_ok 3)]
       plain_template [] empty_world = (w', Some results) ∧
     map res_email results = [lit "a@x.com"; lit "c@z.com"]).
Proof.
  intros rows. split.
  - destruct (bulk_send_stops_at_first_failure plain_template [] rows empty_world) as [_ Hstop].
    apply (Hstop [(contact "a@x.com" "Acme", env_ok 1)]
             (contact "b@y.com" "Bolt", env_send_raises 2)
             [(contact "c@z.com" "Cog", env_ok 3)]);
      [reflexivity | repeat constructor | reflexivity | reflexivity].
  - destruct (bulk_send_stops_at_first_failure plain_template []
                [(contact "a@x.com" "Acme", env_ok 1); (contact "c@z.com" "Cog", env_ok 3)]
                empty_world) as [Hall _].
    destruct Hall as (w' & results & Hrun & Hem & _); [repeat constructor|].
    exists w', results. split; [exact Hrun | exact Hem].
Defined.

(** C2 as stated fails: of three recipients the second raises; the third,
    whose send would go through, gets no message, and no list is returned. *)
Lemma bulk_send_counterexample :
  let rows := [(contact "a@x.com" "Acme", env_ok 1);
               (contact "b@y.com" "Bolt", env_send_raises 2);
               (contact "c@z.com" "Cog", env_ok 3)] in
  let r := bulk_send rows plain_template [] empty_world in
  map (fun x => _safe_str (col_Email x.1)) (deliverable plain_template rows)
    = [lit "a@x.com"; lit "c@z.com"] ∧
  r.2 = None ∧
  map sm_To (w_outbox r.1) = [lit "a@x.com"] ∧
  ¬ isolates_failures plain_template [] rows empty_world.
Proof.
  intros rows r. split; [reflexivity|]. split; [reflexivity|]. split; [reflexivity|].
  intros (w' & results & Hrun & _). unfold rows in Hrun.
  assert (r.2 = None) as Hnone by reflexivity.
  unfold r, rows in Hnone. rewrite Hrun in Hnone. discriminate.
Qed.

(** ** The operations on concrete inputs *)

(** C1 at a folder of two items, the first without a token: both are
    examined and one has a token, yet [poll_inbox] reports one scanned
    item, not two. *)
Theorem poll_inbox_scanned_counter :
  let folders :=
    [Some [Some (plain_item "Weekly newsletter" "nothing to correlate");
           Some (plain_item "[ABA#12AB34CD] Re: Invitation" "please find our quote")]] in
  let r := @poll_inbox config_py sample_runtime folders empty_world in
  length (@examined config_py folders) = 2%nat ∧
  length (@with_token config_py folders) = 1%nat ∧
  hits r.2 = 1%nat ∧
  scanned r.2 = 1%nat.
Proof. repeat split; reflexivity. Qed.

Lemma no_token_item_skipped_witness :
  let it := plain_item "Weekly newsletter" "nothing to correlate [ABA#1234]" in
  let next := Some (plain_item "[ABA#12AB34CD] Re: Invitation" "") in
  let st := (empty_world, {| scanned := 0; hits := 0 |}) in
  @poll_item config_py sample_runtime it st = st ∧
  @poll_items config_py sample_runtime [Some it; next] st
    = @poll_items config_py sample_runtime [next] st.
Proof.
  intros it next st.
  apply (@no_token_item_skipped config_py sample_runtime it [next]);
    apply TOKEN_RE_search_None; reflexivity.
Defined.

Lemma capture_accounting_witness :
  let msg :=
    item_with_attachments "[ABA#12AB34CD] Re: Invitation"
      [Some (sample_attachment "quote.PDF" 1000 true);
       None;
       Some (sample_attachment "drawings.zip" (60 * 1024 * 1024) true);
       Some (sample_attachment "broken.doc" 10 false);
       Some (sample_attachment "quote v2.pdf" 5 true)] in
  let r := @_save_attachments config_py sample_runtime (lit "Acme") (lit "ABA#12AB34CD")
             (lit "T1") msg (lit "E1") (lit "2025-01-02 03:04:05+00:00") empty_world in
  r.2 = 2%nat ∧
  size (w_fs r.1) = 2%nat ∧
  map a_saved_path (attachment_log (w_db r.1))
    = [Some (lit "C:\app\attachments\T1\Acme_ABA#12AB34CD.pdf"); Some []; Some [];
       Some (lit "C:\app\attachments\T1\Acme_ABA#12AB34CD(1).pdf")].
Proof.
  intros msg r.
  destruct (@capture_accounting config_py sample_runtime (lit "Acme") (lit "ABA#12AB34CD")
              (lit "T1") msg (lit "E1") (lit "2025-01-02 03:04:05+00:00") empty_world)
    as (recs & _ & _ & Hcount & Hsize & _).
  fold r in Hcount, Hsize.
  assert (r.2 = 2%nat) as H2 by exact Hcount.
  split; [exact H2|]. split; [|vm_compute; reflexivity].
  rewrite Hsize, H2. reflexivity.
Defined.

(** * Further properties of the code *)

(** ** Lookups in the send log (db.py) *)

Lemma rev_is_reverse {A} (l : list A) : rev l = reverse l.
Proof. unfold reverse. apply rev_alt. Qed.

Lemma latest_by_token_rows token d :
  latest_by_token token d = last (rows_with_token token (mail_log d)).
Proof.
  unfold latest_by_token, rows_with_token. f_equal.
  apply list_filter_iff. intros r. apply sql_eq_Some.
Qed.

Lemma meta_of_latest token d :
  get_mail_meta_by_token token d =
    match last (rows_with_token token (mail_log d)) with
    | None => {| meta_company := []; meta_collection_id := []; meta_product_desc := [] |}
    | Some r => {| meta_company := or_empty (m_company r);
                   meta_collection_id := or_empty (m_collection_id r);
                   meta_product_desc := or_empty (m_product_desc r) |}
    end.
Proof. unfold get_mail_meta_by_token. by rewrite latest_by_token_rows. Qed.

Lemma company_of_latest token d :
  get_company_by_token token d =
    match last (rows_with_token token (mail_log d)) with
    | None => []
    | Some r => or_empty (m_company r)
    end.
Proof. unfold get_company_by_token. by rewrite latest_by_token_rows. Qed.

(** X1.  A send record can be read back by its token: after
    [insert_mail_log] of a row with token [t], [get_mail_meta_by_token t]
    gives the company, collection and description of that row (the empty
    string for a NULL value or a missing key), [get_company_by_token t]
    its company, and the lookups of every other token answer as before. *)
Theorem insert_then_lookup (row : mail_log_args) (d : db) (token : list N) :
  ma_token row = Some token →
  get_mail_meta_by_token token (insert_mail_log row d) =
    {| meta_company := or_empty (ma_company row);
       meta_collection_id := or_empty (default (Some []) (ma_collection_id row));
       meta_product_desc := or_empty (default (Some []) (ma_product_desc row)) |} ∧
  get_company_by_token token (insert_mail_log row d) = or_empty (ma_company row) ∧
  ∀ token', token' ≠ token →
    get_mail_meta_by_token token' (insert_mail_log row d) = get_mail_meta_by_token token' d ∧
    get_company_by_token token' (insert_mail_log row d) = get_company_by_token token' d.
Proof.
  intros Ht. rewrite meta_of_latest, company_of_latest. simpl mail_log.
  rewrite (rows_with_token_replace_same (mail_row_of row) _ token) by done.
  split; [done|]. split; [done|]. intros token' Hne.
  rewrite !meta_of_latest, !company_of_latest. simpl mail_log.
  rewrite (rows_with_token_replace_other (mail_row_of row) _ token'); [done|].
  simpl. rewrite Ht. by intros [= ->].
Qed.

Lemma insert_then_lookup_witness :
  let d := insert_mail_log (mail_args "ABA#12AB34CD" "a@x.com" "Acme")
             (insert_mail_log (mail_args "ABA#00000001" "b@y.com" "Bolt") empty_db) in
  get_company_by_token (lit "ABA#12AB34CD") d = lit "Acme" ∧
  meta_collection_id (get_mail_meta_by_token (lit "ABA#12AB34CD") d) = [] ∧
  get_company_by_token (lit "ABA#00000001") d = lit "Bolt".
Proof.
  intros d.
  destruct (insert_then_lookup (mail_args "ABA#12AB34CD" "a@x.com" "Acme")
              (insert_mail_log (mail_args "ABA#00000001" "b@y.com" "Bolt") empty_db)
              (lit "ABA#12AB34CD") eq_refl) as (Hmeta & Hcomp & Hother).
  split; [exact Hcomp|]. split.
  - unfold d. rewrite Hmeta. reflexivity.
  - destruct (Hother (lit "ABA#00000001")) as [_ Hc]; [discriminate|].
    unfold d. rewrite Hc. reflexivity.
Defined.

(** X2.  A token without a send record is answered with empty strings,
    never with an error or with the data of another token; a send record
    whose token is NULL is found by no lookup. *)
Theorem lookup_unknown_token (d : db) (token : list N) :
  (rows_with_token token (mail_log d) = [] →
     get_mail_meta_by_token token d =
       {| meta_company := []; meta_collection_id := []; meta_product_desc := [] |} ∧
     get_company_by_token token d = []) ∧
  (∀ r, latest_by_token token d = Some r → m_token r = Some token ∧ r ∈ mail_log d) ∧
  (∀ row, ma_token row = None →
     mail_log (insert_mail_log row d) = mail_log d ++ [mail_row_of row] ∧
     get_mail_meta_by_token token (insert_mail_log row d) = get_mail_meta_by_token token d ∧
     get_company_by_token token (insert_mail_log row d) = get_company_by_token token d).
Proof.
  split; [|split].
  - intros Hnone. rewrite meta_of_latest, company_of_latest. by rewrite Hnone.
  - intros r Hr. rewrite latest_by_token_rows in Hr.
    apply last_Some in Hr as [l' Hl'].
    assert (r ∈ rows_with_token token (mail_log d)) as Hin.
    { rewrite Hl'. apply elem_of_app. right. by left. }
    unfold rows_with_token in Hin. by apply list_elem_of_filter in Hin.
  - intros row Hnull.
    assert (mail_log (insert_mail_log row d) = mail_log d ++ [mail_row_of row]) as Hlog.
    { simpl. unfold insert_or_replace_mail. f_equal.
      induction (mail_log d) as [|old t IH]; [done|].
      rewrite filter_cons, decide_True; [by rewrite IH|].
      by apply mail_conflict_null. }
    split; [done|].
    rewrite !meta_of_latest, !company_of_latest, Hlog.
    assert (rows_with_token token (mail_log d ++ [mail_row_of row])
            = rows_with_token token (mail_log d)) as ->; [|done].
    unfold rows_with_token. rewrite filter_app, filter_cons, filter_nil.
    rewrite decide_False, app_nil_r; [done|]. simpl. by rewrite Hnull.
Qed.

Lemma lookup_unknown_token_witness :
  get_company_by_token (lit "ABA#FFFFFFFF")
    (insert_mail_log (mail_args "ABA#12AB34CD" "a@x.com" "Acme") empty_db) = [] ∧
  get_mail_meta_by_token (lit "ABA#12AB34CD") empty_db =
    {| meta_company := []; meta_collection_id := []; meta_product_desc := [] |}.
Proof.
  split.
  - apply (lookup_unknown_token
             (insert_mail_log (mail_args "ABA#12AB34CD" "a@x.com" "Acme") empty_db)
             (lit "ABA#FFFFFFFF")). reflexivity.
  - apply (lookup_unknown_token empty_db (lit "ABA#12AB34CD")). reflexivity.
Defined.

(** X3.  [fetch_mail_logs] returns the newest rows first and never more
    than the limit: its length is the smaller of the limit and the number
    of rows, right after an insert the inserted row comes first, and a row
    replaced by that insert is not listed any more. *)
Theorem fetch_mail_logs_newest_first (limit : nat) (row : mail_log_args) (d : db) :
  length (fetch_mail_logs limit d) = Nat.min limit (length (mail_log d)) ∧
  (∀ r, r ∈ fetch_mail_logs limit d → r ∈ mail_log d) ∧
  head (fetch_mail_logs (S limit) (insert_mail_log row d)) = Some (mail_row_of row) ∧
  (∀ token r, ma_token row = Some token →
     r ∈ fetch_mail_logs limit (insert_mail_log row d) → m_token r = Some token →
     r = mail_row_of row) ∧
  (∀ i r, fetch_mail_logs limit d !! i = Some r →
     mail_log d !! (length (mail_log d) - S i)%nat = Some r).
Proof.
  unfold fetch_mail_logs. rewrite !rev_is_reverse. split; [|split; [|split; [|split]]].
  - by rewrite length_take, length_reverse.
  - intros r Hr. apply elem_of_take in Hr as (i & Hi & _).
    apply elem_of_reverse. by apply list_elem_of_lookup_2 in Hi.
  - simpl mail_log. unfold insert_or_replace_mail. by rewrite reverse_app.
  - intros token r Ht Hr Hrt. apply elem_of_take in Hr as (i & Hi & _).
    apply list_elem_of_lookup_2 in Hi. rewrite elem_of_reverse in Hi. rename Hi into Hr.
    assert (r ∈ rows_with_token token (mail_log (insert_mail_log row d))) as Hin.
    { unfold rows_with_token. apply list_elem_of_filter. split; [exact Hrt | exact Hr]. }
    simpl mail_log in Hin.
    rewrite (rows_with_token_replace_same (mail_row_of row) _ token) in Hin by done.
    by apply list_elem_of_singleton in Hin.
  - intros i r Hi. apply lookup_take_Some in Hi as [Hi _].
    apply reverse_lookup_Some in Hi as [Hi _]. done.
Qed.

(** ** The schema after [init_db] (db.py) *)
















(** ** Sending (mailer.py) *)

Lemma lstrip_nil_iff s : lstrip s = [] ↔ Forall (fun c => isspace c = true) s.
Proof.
  split; [|apply lstrip_all_space].
  induction s as [|c s IH]; simpl; [constructor|].
  destruct (isspace c) eqn:Hc; [|done]. intros Hs. constructor; [done | by apply IH].
Qed.

Lemma lstrip_head s c r : lstrip s = c :: r → isspace c = false.
Proof.
  induction s as [|x s IH]; simpl; [done|].
  destruct (isspace x) eqn:Hx; [done|]. by intros [= <- _].
Qed.

Lemma lstrip_suffix s : ∃ pre, s = pre ++ lstrip s ∧ Forall (fun c => isspace c = true) pre.
Proof.
  induction s as [|x s (pre & Hs & Hpre)]; simpl; [by exists []|].
  destruct (isspace x) eqn:Hx.
  - exists (x :: pre). split; [simpl; by rewrite <- Hs | by constructor].
  - by exists [].
Qed.

Lemma strip_nil_iff s : strip s = [] ↔ Forall (fun c => isspace c = true) s.
Proof.
  split; [|apply strip_all_space].
  unfold strip, rstrip. intros Hs.
  apply (f_equal (@rev N)) in Hs. rewrite rev_involutive in Hs. simpl in Hs.
  apply lstrip_nil_iff in Hs. apply Forall_rev in Hs. rewrite rev_involutive in Hs.
  destruct (lstrip s) as [|c r] eqn:E; [by apply lstrip_nil_iff|].
  apply lstrip_head in E. inversion Hs; congruence.
Qed.

Lemma bulk_send_loop_filter tpl paths rows : ∀ results w,
  bulk_send_loop tpl paths rows results w =
  bulk_send_loop tpl paths (filter (fun r => addressed r = true) rows) results w.
Proof.
  induction rows as [|[row env] rows IH]; intros results w; [done|].
  rewrite filter_cons. destruct (addressed (row, env)) eqn:Ha.
  - rewrite decide_True by done. rewrite !bulk_send_loop_cons, Ha. simpl negb. cbv iota.
    destruct (send_one _ _ _ _ _ _ _ _) as [w' [[token subject]|]]; [apply IH | done].
  - rewrite decide_False by done. rewrite bulk_send_loop_cons, Ha. simpl negb. cbv iota.
    apply IH.
Qed.

(** X5.  A row whose Email cell is missing, empty or only whitespace is
    skipped, whatever its send would have done: [bulk_send] gives the same
    results and the same world as on the rows with an address alone, and on
    a sheet without any address it returns the empty list and sends
    nothing. *)
Theorem bulk_send_skips_blank_rows (tpl : template) (paths : list (list N))
    (rows : list (contact_row * send_env)) (w : world) :
  (∀ r, addressed r = false ↔
        col_Email r.1 = None ∨
        ∃ s, col_Email r.1 = Some s ∧ Forall (fun c => isspace c = true) s) ∧
  bulk_send rows tpl paths w
    = bulk_send (filter (fun r => addressed r = true) rows) tpl paths w ∧
  (Forall (fun r => addressed r = false) rows → bulk_send rows tpl paths w = (w, Some [])).
Proof.
  split; [|split].
  - intros [row env]. unfold addressed, _safe_str. simpl.
    destruct (col_Email row) as [s|]; [|by split; [left|]].
    split.
    + intros Ht. right. exists s. split; [done|]. apply strip_nil_iff.
      by destruct (strip s).
    + intros [|(s' & [= <-] & Hs)]; [done|]. by rewrite (strip_all_space _ Hs).
  - apply bulk_send_loop_filter.
  - intros Hall. unfold bulk_send. rewrite bulk_send_loop_filter.
    assert (filter (fun r => addressed r = true) rows = []) as ->; [|done].
    induction Hall as [|r rows Hr Hall IH]; [done|].
    rewrite filter_cons, decide_False; [done|]. by rewrite Hr.
Qed.

Lemma bulk_send_skips_blank_rows_witness :
  let blank := {| col_Email := Some (lit "   "); col_Company_Name := Some (lit "Acme");
                  col_Collection_ID := None; col_Product_description := None |} in
  let missing := {| col_Email := None; col_Company_Name := Some (lit "Bolt");
                    col_Collection_ID := None; col_Product_description := None |} in
  bulk_send [(blank, env_send_raises 1); (missing, env_ok 2)] failing_template [] empty_world
    = (empty_world, Some []).
Proof.
  intros blank missing.
  apply (bulk_send_skips_blank_rows failing_template []
           [(blank, env_send_raises 1); (missing, env_ok 2)] empty_world).
  repeat constructor.
Defined.








Lemma str_or_empty s : str_or s [] = s.
Proof. by destruct s. Qed.

(** X8.  What was sent can be looked up: after a successful [send_one] the
    lookup by the returned token gives the company, the collection and the
    description that were passed in, and [get_company_by_token] the
    company. *)
Theorem send_then_lookup (env : send_env)
    (to_email company collection_id product_desc : list N) (tpl : template)
    (paths : list (list N)) (w w' : world) (token subject : list N) :
  send_one env to_email company collection_id product_desc tpl paths w
    = (w', Some (token, subject)) →
  get_mail_meta_by_token token (w_db w') =
    {| meta_company := company; meta_collection_id := collection_id;
       meta_product_desc := product_desc |} ∧
  get_company_by_token token (w_db w') = company ∧
  length (rows_with_token token (mail_log (w_db w'))) = 1%nat.
Proof.
  unfold send_one.
  destruct (tpl _ _ _ _) as [html|]; [|done].
  destruct (dispatch_ok env); [|done].
  destruct (resolve_sent env (issue_token (uuid4_int env))) as [[entryid conv] sent_on].
  intros [= <- <- <-]. rewrite meta_of_latest, company_of_latest. simpl w_db. simpl mail_log.
  rewrite (rows_with_token_replace_same _ _ (issue_token (uuid4_int env))) by done.
  simpl. by rewrite !str_or_empty.
Qed.

Lemma send_then_lookup_witness :
  let r := send_one (env_ok 0xdeadbeef4c2d4e119a6b0242ac120002) (lit "a@x.com") (lit "Acme")
             (lit "T1") (lit "bolts") plain_template [] empty_world in
  get_mail_meta_by_token (lit "ABA#DEADBEEF") (w_db r.1) =
    {| meta_company := lit "Acme"; meta_collection_id := lit "T1";
       meta_product_desc := lit "bolts" |} ∧
  get_company_by_token (lit "ABA#DEADBEEF") (w_db r.1) = lit "Acme".
Proof.
  intros r.
  destruct (send_then_lookup (env_ok 0xdeadbeef4c2d4e119a6b0242ac120002) (lit "a@x.com")
              (lit "Acme") (lit "T1") (lit "bolts") plain_template [] empty_world
              r.1 (lit "ABA#DEADBEEF")
              (lit "[ABA#DEADBEEF] Invitation to Partner with Amazon Private Brands")
              eq_refl) as (Hm & Hc & _).
  split; [exact Hm | exact Hc].
Defined.

Lemma bulk_send_loop_recorded tpl paths rows : ∀ results w w' out,
  (∀ r, r ∈ results →
        ∃ row, rows_with_token (res_token r) (mail_log (w_db w)) = [row]) →
  bulk_send_loop tpl paths rows results w = (w', Some out) →
  ∀ r, r ∈ out → ∃ row, rows_with_token (res_token r) (mail_log (w_db w')) = [row].
Proof.
  induction rows as [|[row env] rows IH]; intros results w w' out Hinv.
  - by intros [= <- <-].
  - rewrite bulk_send_loop_cons. destruct (negb (addressed (row, env))); [by apply IH|].
    destruct (send_one _ _ _ _ _ _ _ _) as [w1 [[token subject]|]] eqn:Hsend; [|done].
    apply IH. intros r Hr.
    apply send_one_Some in Hsend
      as (_ & _ & _ & _ & m & args & _ & _ & _ & Htok & _ & _ & _ & ->).
    simpl in Htok. simpl w_db. simpl mail_log.
    destruct (decide (res_token r = token)) as [Heq|Hne].
    + rewrite Heq. exists (mail_row_of args).
      by apply rows_with_token_replace_same.
    + apply elem_of_app in Hr as [Hr|Hr].
      * destruct (Hinv r Hr) as [old Hold]. exists old.
        rewrite rows_with_token_replace_other; [done|].
        simpl. rewrite Htok. by intros [= ->].
      * apply list_elem_of_singleton in Hr. subst r. done.
Qed.

(** X9.  Every entry [bulk_send] returns is on record: for each returned
    result the send log has exactly one row with its token when the batch
    is over, also when two sends of the batch drew the same token. *)
Theorem bulk_send_results_recorded (tpl : template) (paths : list (list N))
    (rows : list (contact_row * send_env)) (w w' : world) (results : list send_result) :
  bulk_send rows tpl paths w = (w', Some results) →
  ∀ r, r ∈ results →
    ∃ row, rows_with_token (res_token r) (mail_log (w_db w')) = [row] ∧
           m_token row = Some (res_token r) ∧
           latest_by_token (res_token r) (w_db w') = Some row.
Proof.
  intros Hrun r Hr.
  destruct (bulk_send_loop_recorded tpl paths rows [] w w' results) with (r := r)
    as [row Hrow]; [by intros ? ?%elem_of_nil | done | done |].
  exists row. split; [done|]. split.
  - assert (row ∈ rows_with_token (res_token r) (mail_log (w_db w'))) as Hin
      by (rewrite Hrow; by left).
    unfold rows_with_token in Hin. by apply list_elem_of_filter in Hin as [? _].
  - by rewrite latest_by_token_rows, Hrow.
Qed.

Lemma bulk_send_results_recorded_witness :
  let rows := [(contact "a@x.com" "Acme", env_ok 7); (contact "b@y.com" "Bolt", env_ok 7)] in
  let r := bulk_send rows plain_template [] empty_world in
  (length <$> r.2) = Some 2%nat ∧
  length (mail_log (w_db r.1)) = 1%nat ∧
  get_company_by_token (lit "ABA#00000000") (w_db r.1) = lit "Bolt".
Proof.
  intros rows r.
  destruct r.2 as [results|] eqn:Hres; [|discriminate Hres].
  assert (r = (r.1, Some results)) as Hrun by (rewrite <- Hres; by destruct r).
  split; [by injection Hres as <-|]. split; [reflexivity|].
  assert (∃ x, x ∈ results ∧ res_token x = lit "ABA#00000000") as (x & Hx & Htok).
  { injection Hres as <-. eexists. split; [by left | reflexivity]. }
  destruct (bulk_send_results_recorded plain_template [] rows empty_world r.1 results Hrun
              x Hx) as (row & _ & _ & _).
  reflexivity.
Defined.

(** ** The two sanitisers and the directory of a collection *)

Lemma lstrip_fixed s : (∀ c r, s = c :: r → isspace c = false) → lstrip s = s.
Proof.
  destruct s as [|c r]; [done|]. intros Hs. simpl. by rewrite (Hs c r eq_refl).
Qed.

Lemma rstrip_prefix s : ∃ suf, s = rstrip s ++ suf.
Proof.
  destruct (lstrip_suffix (rev s)) as (pre & Hs & _).
  exists (rev pre). unfold rstrip. rewrite <- rev_app_distr, <- Hs.
  by rewrite rev_involutive.
Qed.

Lemma rstrip_idemp s : rstrip (rstrip s) = rstrip s.
Proof.
  unfold rstrip. rewrite rev_involutive. f_equal.
  apply lstrip_fixed. intros c r. apply lstrip_head.
Qed.

Lemma strip_head s c r : strip s = c :: r → isspace c = false.
Proof.
  unfold strip. intros Hs. destruct (rstrip_prefix (lstrip s)) as [suf Hsuf].
  rewrite Hs in Hsuf. by apply (lstrip_head s c (r ++ suf)).
Qed.

Lemma strip_idemp s : strip (strip s) = strip s.
Proof.
  unfold strip at 1. rewrite lstrip_fixed by apply strip_head.
  unfold strip. apply rstrip_idemp.
Qed.

(** A non-empty name without illegal characters and without surrounding
    whitespace is left as it is by both sanitisers. *)
Lemma sanitize_fixed n :
  n ≠ [] → Forall (fun c => is_illegal c = false) n → strip n = n →
  _sanitize_filename n = n ∧ bc_sanitize_filename n = n.
Proof.
  intros Hn Hlegal Hstrip. unfold _sanitize_filename, bc_sanitize_filename.
  rewrite (sub_illegal_none false n Hlegal), Hstrip.
  by destruct n.
Qed.

Lemma sanitize_result name :
  (strip (sub_illegal false name) = [] ∧ _sanitize_filename name = lit "attachment" ∧
   bc_sanitize_filename name = lit "untitled") ∨
  (strip (sub_illegal false name) ≠ [] ∧
   _sanitize_filename name = strip (sub_illegal false name) ∧
   bc_sanitize_filename name = strip (sub_illegal false name)).
Proof.
  unfold _sanitize_filename, bc_sanitize_filename.
  destruct (strip (sub_illegal false name)) as [|c r]; [by left | by right].
Qed.

Section Directories.
Context `{Settings}.

(** X10.  The sanitiser of poller.py is idempotent, and the sanitiser of
    bidding_comparison.py leaves its results as they are: a directory name
    made by the capture is read back under the same name.  The two agree on
    every name that does not sanitise to nothing, so the comparison reads
    the directory the capture wrote to; for a collection id that is empty
    or only whitespace they part: the capture stores under uncategorized or
    attachment, the comparison looks under untitled. *)
Theorem sanitizers_agree (name : list N) :
  _sanitize_filename (_sanitize_filename name) = _sanitize_filename name ∧
  bc_sanitize_filename (_sanitize_filename name) = _sanitize_filename name ∧
  collection_root (_sanitize_filename name) = path_child ATTACH_BASE_DIR (_sanitize_filename name) ∧
  (strip (sub_illegal false name) ≠ [] →
     bc_sanitize_filename name = _sanitize_filename name ∧
     collection_root name = dest_dir_of name) ∧
  (strip (sub_illegal false name) = [] →
     collection_root name = ATTACH_BASE_DIR ++ lit "\untitled" ∧
     dest_dir_of name = ATTACH_BASE_DIR ++
       (if truthy name then lit "\attachment" else lit "\uncategorized") ∧
     collection_root name ≠ dest_dir_of name).
Proof.
  assert (_sanitize_filename (_sanitize_filename name) = _sanitize_filename name ∧
          bc_sanitize_filename (_sanitize_filename name) = _sanitize_filename name)
    as [Hidem Hbc].
  { apply sanitize_fixed; [apply sanitize_nonempty | apply sanitize_legal |].
    destruct (sanitize_result name) as [(_ & -> & _)|(_ & -> & _)];
      [by vm_compute | apply strip_idemp]. }
  split; [exact Hidem|]. split; [exact Hbc|].
  split; [unfold collection_root; by rewrite Hbc|].
  split.
  - intros Hne.
    destruct (sanitize_result name) as [(He & _)|(_ & Hs & Hb)]; [done|].
    split; [by rewrite Hs, Hb|].
    unfold collection_root, dest_dir_of. rewrite Hb, <- Hs.
    assert (truthy name = true) as Ht.
    { destruct name; [|done]. by vm_compute in Hne. }
    unfold str_or at 1. by rewrite Ht.
  - intros He.
    destruct (sanitize_result name) as [(_ & Hs & Hb)|(Hne & _)]; [|done].
    assert (collection_root name = ATTACH_BASE_DIR ++ lit "\untitled") as Hroot.
    { unfold collection_root. rewrite Hb. unfold path_child.
      rewrite bool_decide_eq_false_2; [done | by vm_compute]. }
    assert (dest_dir_of name = ATTACH_BASE_DIR ++
              (if truthy name then lit "\attachment" else lit "\uncategorized")) as Hdest.
    { unfold dest_dir_of, str_or. destruct (truthy name).
      - rewrite Hs. unfold path_child. rewrite bool_decide_eq_false_2; [done | by vm_compute].
      - unfold path_child. rewrite bool_decide_eq_false_2; [done | by vm_compute]. }
    split; [exact Hroot|]. split; [exact Hdest|].
    rewrite Hroot, Hdest. intros Heq. apply app_inv_head in Heq.
    destruct (truthy name); by vm_compute in Heq.
Qed.
End Directories.

(** ** The prompt of the comparison (bidding_comparison.py) *)

Lemma PROMPT_HEADER_length : length PROMPT_HEADER = 1721%nat.
Proof. by vm_compute. Qed.

Lemma TRUNCATED_MARK_length : length TRUNCATED_MARK = 13%nat.
Proof. by vm_compute. Qed.

Section PromptProofs.
Context `{BiddingSettings}.

Lemma full_prompt_header collection_id excel_texts extra_instructions :
  ∃ rest, full_prompt collection_id excel_texts extra_instructions = PROMPT_HEADER ++ rest.
Proof.
  unfold full_prompt. destruct (truthy extra_instructions).
  - eexists. rewrite <- !app_assoc. reflexivity.
  - eexists. reflexivity.
Qed.

(** X11.  The size guard of the prompt.  Without a guard (0) or within it
    the prompt is the full text, which names the collection id as given.
    Past the guard the prompt is cut to the guard and the truncation mark
    is added after the cut: the result is 13 characters longer than the
    guard, never more.  What is cut is the end, the supplier data: the
    fixed instructions at the head are kept whole under every guard of at
    least their 1721 characters, and so under the 120000 of config.py. *)
Theorem build_prompt_guard (collection_id : list N) (excel_texts : list (list N))
    (extra_instructions : list N) :
  let p := full_prompt collection_id excel_texts extra_instructions in
  let max := N.to_nat BIDDING_MAX_PROMPT_CHARS in
  (max = 0%nat ∨ (length p ≤ max)%nat →
     _build_prompt collection_id excel_texts extra_instructions = p) ∧
  (max ≠ 0%nat → (max < length p)%nat →
     _build_prompt collection_id excel_texts extra_instructions
       = take max p ++ TRUNCATED_MARK ∧
     length (_build_prompt collection_id excel_texts extra_instructions) = (max + 13)%nat) ∧
  (max ≠ 0%nat →
     (length (_build_prompt collection_id excel_texts extra_instructions) ≤ max + 13)%nat) ∧
  (max = 0%nat ∨ (1721 ≤ max)%nat →
     ∃ rest, _build_prompt collection_id excel_texts extra_instructions
             = PROMPT_HEADER ++ rest) ∧
  occurs_in (lit "=== COLLECTION_ID: " ++ collection_id ++ lit " ===") p.
Proof.
  intros p max.
  assert (max = 0%nat ∨ (length p ≤ max)%nat →
          _build_prompt collection_id excel_texts extra_instructions = p) as Hfull.
  { intros Hc. unfold _build_prompt. fold p.
    destruct (N.eqb_spec BIDDING_MAX_PROMPT_CHARS 0) as [E|E]; [done|].
    destruct (N.ltb_spec BIDDING_MAX_PROMPT_CHARS (N.of_nat (length p))) as [L|L]; [|done].
    subst max. lia. }
  assert (max ≠ 0%nat → (max < length p)%nat →
          _build_prompt collection_id excel_texts extra_instructions
            = take max p ++ TRUNCATED_MARK) as Hcut.
  { intros Hm Hl. unfold _build_prompt. fold p.
    destruct (N.eqb_spec BIDDING_MAX_PROMPT_CHARS 0) as [E|E]; [subst max; lia|].
    destruct (N.ltb_spec BIDDING_MAX_PROMPT_CHARS (N.of_nat (length p))) as [L|L]; [done|].
    subst max. lia. }
  assert (max ≠ 0%nat → (max < length p)%nat →
          length (_build_prompt collection_id excel_texts extra_instructions)
            = (max + 13)%nat) as Hlen.
  { intros Hm Hl. rewrite (Hcut Hm Hl), length_app, length_take, TRUNCATED_MARK_length. lia. }
  split; [exact Hfull|]. split; [by split; [apply Hcut | apply Hlen]|].
  split; [|split].
  - intros Hm. destruct (decide (max < length p)%nat) as [Hl|Hl].
    + rewrite (Hlen Hm Hl). lia.
    + rewrite Hfull by (right; lia). lia.
  - intros Hm. destruct (full_prompt_header collection_id excel_texts extra_instructions)
      as [rest Hrest]. fold p in Hrest.
    destruct (decide (max ≠ 0 ∧ max < length p)%nat) as [[Hm0 Hl]|Hl].
    + destruct Hm as [Hm|Hm]; [done|].
      rewrite (Hcut Hm0 Hl), Hrest.
      rewrite take_app_ge by (rewrite PROMPT_HEADER_length; lia).
      eexists. rewrite <- app_assoc. reflexivity.
    + rewrite Hfull by lia. by exists rest.
  - subst p. unfold full_prompt, occurs_in.
    exists ((if truthy extra_instructions
             then PROMPT_HEADER ++ [10] ++ lit "Additional instructions:" ++ [10] ++
                  extra_instructions ++ [10]
             else PROMPT_HEADER) ++ [10; 10]), ([10; 10] ++ join_lines excel_texts).
    rewrite <- !app_assoc. reflexivity.
Qed.
End PromptProofs.

(** ** The candidate folders (poller.py) *)


Section FolderProofs.
Context `{Runtime}.

Lemma resolve_segments_app root p q :
  resolve_segments root (p ++ q) = resolve_segments root p ≫= (fun f => resolve_segments f q).
Proof.
  revert root. induction p as [|part p IH]; intros root; [done|].
  simpl. destruct (find_subfolder root part) as [found|]; [apply IH | done].
Qed.

Lemma find_subfolder_Some folder part found :
  find_subfolder folder part = Some found →
  ∃ subs, f_Folders folder = Some subs ∧ found ∈ subs ∧
          name_matches (f_Name found) part = true ∧
          ∀ i g, subs !! i = Some g → name_matches (f_Name g) part = true →
                 ∃ j, (j ≤ i)%nat ∧ subs !! j = Some found.
Proof.
  unfold find_subfolder. destruct (f_Folders folder) as [subs|]; [|done].
  intros Hfind. exists subs. split; [done|].
  induction subs as [|g subs IH]; [done|]. simpl in Hfind.
  destruct (name_matches (f_Name g) part) eqn:Hg.
  - injection Hfind as ->. split; [by left|]. split; [done|].
    intros i g' _ _. exists 0%nat. split; [lia | done].
  - destruct (IH Hfind) as (Hin & Hm & Hfirst). split; [by right|]. split; [done|].
    intros [|i] g' Hi Hg'; simpl in Hi.
    + injection Hi as <-. congruence.
    + destruct (Hfirst i g' Hi Hg') as (j & Hj & Hjf). exists (S j). split; [lia | done].
Qed.

(** X12.  [_resolve_folder_by_path] walks down from the given root, one
    level for each part after the first; the first part is not looked at.
    A walk over two lists of parts is the walk over the first followed by
    the walk over the second from where the first ended, so a part that
    matches no subfolder, or subfolders that cannot be read, end every
    longer walk too.  The folder returned lies as many levels below the
    root as there are parts after the first. *)
Theorem resolve_folder_by_path_walk (root : mapi_folder) (p0 q0 : list N)
    (parts more : list (list N)) :
  _resolve_folder_by_path root (p0 :: parts) = _resolve_folder_by_path root (q0 :: parts) ∧
  _resolve_folder_by_path root [] = Some root ∧
  _resolve_folder_by_path root [p0] = Some root ∧
  _resolve_folder_by_path root (p0 :: parts ++ more)
    = _resolve_folder_by_path root (p0 :: parts) ≫= (fun f => resolve_segments f more) ∧
  (_resolve_folder_by_path root (p0 :: parts) = None →
     _resolve_folder_by_path root (p0 :: parts ++ more) = None) ∧
  (∀ f, _resolve_folder_by_path root (p0 :: parts) = Some f →
        nested_in (length parts) root f) ∧
  (∀ part f, _resolve_folder_by_path root [p0; part] = Some f →
     ∃ subs, f_Folders root = Some subs ∧ f ∈ subs ∧ name_matches (f_Name f) part = true ∧
             ∀ i g, subs !! i = Some g → name_matches (f_Name g) part = true →
                    ∃ j, (j ≤ i)%nat ∧ subs !! j = Some f).
Proof.
  unfold _resolve_folder_by_path. simpl tail.
  split; [done|]. split; [done|]. split; [done|].
  split; [apply resolve_segments_app|].
  split; [intros Hn; by rewrite resolve_segments_app, Hn|].
  split.
  - revert root. induction parts as [|part parts IH]; intros root f; simpl.
    + by intros [= <-].
    + destruct (find_subfolder root part) as [found|] eqn:Hf; [|done].
      intros Hr. apply find_subfolder_Some in Hf as (subs & Hsubs & Hin & _).
      exists found, subs. split; [done|]. split; [done|]. by apply IH.
  - intros part f. simpl.
    destruct (find_subfolder root part) as [found|] eqn:Hf; [|done].
    intros [= <-]. by apply find_subfolder_Some.
Qed.

(** *** The dictionary that removes the duplicates *)








End FolderProofs.

(** The folders of config.py over a store whose inbox has the subfolders
    External and Other: the inbox and External, each once. *)
Example candidate_folders_config_py :
  let inbox := inbox_over [leaf_folder "External" "ID-EXT" 2; leaf_folder "Other" "ID-OTH" 3] in
  @candidate_folders sample_runtime SCAN_FOLDERS_py [Some inbox; None]
    = [inbox; leaf_folder "External" "ID-EXT" 2] ∧
  @candidate_folders sample_runtime [lit "Inbox"; lit " inbox "; lit "INBOX/external/"]
      [Some inbox]
    = [inbox; leaf_folder "External" "ID-EXT" 2] ∧
  @candidate_folders sample_runtime [lit "Inbox/Quotes"; lit "Sent"] [Some inbox]
    = [inbox; leaf_folder "External" "ID-EXT" 2; leaf_folder "Other" "ID-OTH" 3].
Proof. by vm_compute. Qed.

(** ** The scan as a whole (poller.py, [poll_inbox]) *)

Lemma has_reply_key_app token from_email received_on t rows :
  has_reply_key token from_email received_on t →
  has_reply_key token from_email received_on (t ++ rows).
Proof.
  unfold has_reply_key, rows_with_key. rewrite filter_app.
  intros Hne Happ. by apply app_eq_nil in Happ as [? _].
Qed.

(** After [INSERT OR IGNORE] a row of the key is there; the table is as it
    was when one was there before. *)
Lemma insert_or_ignore_reply_key new t token from_email received_on :
  r_token new = Some token → r_from_email new = Some from_email →
  r_received_on new = Some received_on →
  has_reply_key token from_email received_on (insert_or_ignore_reply new t) ∧
  (has_reply_key token from_email received_on t → insert_or_ignore_reply new t = t) ∧
  (¬ has_reply_key token from_email received_on t →
     insert_or_ignore_reply new t = t ++ [new]) ∧
  ∃ rows, insert_or_ignore_reply new t = t ++ rows ∧ (length rows ≤ 1)%nat.
Proof.
  intros Ht Hf Hr. unfold insert_or_ignore_reply.
  pose proof (existsb_reply_conflict new t token from_email received_on Ht Hf Hr) as Hex.
  fold (has_reply_key token from_email received_on t) in Hex.
  destruct (existsb (reply_conflict new) t).
  - assert (has_reply_key token from_email received_on t) as Hk by by apply Hex.
    split; [done|]. split; [done|]. split; [done|].
    exists []. split; [by rewrite app_nil_r | simpl; lia].
  - assert (¬ has_reply_key token from_email received_on t) as Hk.
    { intros Hk. apply Hex in Hk. done. }
    split; [|split; [done|split; [done|]]].
    + unfold has_reply_key. rewrite rows_with_key_snoc by done.
      intros Happ. by apply app_eq_nil in Happ as [_ ?].
    + exists [new]. split; [done | simpl; lia].
Qed.

Lemma length_omap_le {A B} (f : A → option B) (l : list A) :
  (length (omap f l) ≤ length l)%nat.
Proof.
  induction l as [|x l IH]; [done|].
  change (omap f (x :: l))
    with (match f x with Some y => y :: omap f l | None => omap f l end).
  destruct (f x); simpl; lia.
Qed.

Lemma first_token_after pre t post :
  chr "[" ∉ pre → token_like t → first_token (pre ++ chr "[" :: t ++ chr "]" :: post) t.
Proof.
  intros Hpre Htok. exists pre. split; [by exists post|]. split; [done|].
  intros pre' t' [post' Heq] _.
  destruct (decide (length pre ≤ length pre')%nat) as [|Hlt]; [done|]. exfalso.
  apply Hpre.
  apply (f_equal (fun l => l !! length pre')) in Heq.
  rewrite lookup_app_l in Heq by lia.
  rewrite (list_lookup_middle pre' _ (chr "[") (length pre') eq_refl) in Heq.
  by apply list_elem_of_lookup_2 in Heq.
Qed.

(** A reply whose subject holds the subject of the sent message after
    any text without an opening bracket, such as a reply prefix. *)
Lemma extract_token_reply pre token it :
  chr "[" ∉ pre → token_like token →
  it_Subject it = Some (pre ++ compose_subject token) →
  extract_token it = Some token.
Proof.
  intros Hpre Htok Hs. rewrite extract_token_cases, Hs.
  change (or_empty (Some (pre ++ compose_subject token)))
    with (pre ++ chr "[" :: token ++ chr "]" :: (lit " " ++ SUBJECT_BASE)).
  rewrite (search_first_token _ _ (first_token_after pre token _ Hpre Htok)).
  by rewrite slice_1_m1_bracketed.
Qed.

Lemma send_one_recorded env to_email company collection_id product_desc tpl paths w w'
    token subject :
  send_one env to_email company collection_id product_desc tpl paths w
    = (w', Some (token, subject)) →
  token = issue_token (uuid4_int env) ∧ subject = compose_subject token ∧
  reply_log (w_db w') = reply_log (w_db w) ∧
  get_mail_meta_by_token token (w_db w') =
    {| meta_company := company; meta_collection_id := collection_id;
       meta_product_desc := product_desc |}.
Proof.
  unfold send_one.
  destruct (tpl _ _ _ _) as [html|]; [|done].
  destruct (dispatch_ok env); [|done].
  destruct (resolve_sent env (issue_token (uuid4_int env))) as [[entryid conv] sent_on].
  intros [= <- <- <-]. split; [done|]. split; [done|]. split; [done|].
  rewrite meta_of_latest. simpl w_db. simpl mail_log.
  rewrite (rows_with_token_replace_same _ _ (issue_token (uuid4_int env))) by done.
  simpl. by rewrite !str_or_empty.
Qed.

Section ScanProofs.
Context `{Settings} `{Runtime}.

Lemma poll_items_fold items : ∀ st,
  poll_items items st = foldl (fun st it => poll_item it st) st (omap id items).
Proof.
  induction items as [|[it|] items IH]; intros st; [done | |].
  - change (omap id (Some it :: items)) with (it :: omap id items).
    change (poll_items (Some it :: items) st) with (poll_items items (poll_item it st)).
    by rewrite IH.
  - change (omap id (None :: items)) with (omap id items). apply IH.
Qed.

(** The scan is one pass over the examined items, in their order. *)
Lemma poll_folders_fold folders : ∀ st,
  poll_folders folders st = foldl (fun st it => poll_item it st) st (examined folders).
Proof.
  induction folders as [|f folders IH]; intros st; [done|].
  change (poll_folders (f :: folders) st) with (poll_folders folders (poll_folder f st)).
  unfold examined. simpl flat_map. rewrite foldl_app. fold (examined folders).
  rewrite IH. f_equal. destruct f as [items|]; simpl.
  - apply poll_items_fold.
  - by rewrite take_nil.
Qed.

Lemma save_attachments_append company token collection_id msg msg_entryid received_on w :
  let r := _save_attachments company token collection_id msg msg_entryid received_on w in
  let atts := delivered (it_Attachments msg) in
  (∃ recs, attachment_log (w_db r.1) = attachment_log (w_db w) ++ recs ∧
           length recs = length atts) ∧
  w_fs w ⊆ w_fs r.1 ∧
  size (w_fs r.1) = (size (w_fs w) + length (filter (fun a => written a = true) atts))%nat ∧
  mail_log (w_db r.1) = mail_log (w_db w) ∧
  reply_log (w_db r.1) = reply_log (w_db w) ∧
  w_outbox r.1 = w_outbox w.
Proof.
  intros r atts. subst r atts. unfold _save_attachments, delivered.
  destruct (it_Attachments msg) as [[|a l]|].
  - simpl. split; [exists []; by rewrite app_nil_r|]. split; [done|]. split; [lia | done].
  - cbv beta iota zeta. change (default [] (Some (a :: l))) with (a :: l).
    pose proof (save_attachments_loop_spec (_sanitize_filename company)
                  (_sanitize_filename token) token msg_entryid received_on
                  (dest_dir_of collection_id) (a :: l) 1 w 0%nat
                  (sanitize_nonempty token)) as Hspec.
    cbv zeta in Hspec.
    destruct Hspec as (recs & Hlog & Hrecs & _ & Hsize & Hsub & _ & Hml & Hrl & Hob).
    split; [exists recs; split; [done | symmetry; by apply (Forall2_length _ _ _ Hrecs)]|].
    done.
  - simpl. split; [exists []; by rewrite app_nil_r|]. split; [done|]. split; [lia | done].
Qed.

Lemma has_attachments_none it :
  has_attachments_of it = false → delivered (it_Attachments it) = [].
Proof.
  unfold has_attachments_of, delivered. by destruct (it_Attachments it) as [[|a l]|].
Qed.

(** One item with a token: the row handed to the reply log, the capture,
    the counters. *)
Lemma poll_item_step it w c token :
  extract_token it = Some token →
  let r := poll_item it (w, c) in
  let atts := delivered (it_Attachments it) in
  reply_log (w_db r.1) =
    insert_or_ignore_reply (reply_of it token (get_mail_meta_by_token token (w_db w)))
      (reply_log (w_db w)) ∧
  (∃ recs, attachment_log (w_db r.1) = attachment_log (w_db w) ++ recs ∧
           length recs = length atts) ∧
  w_fs w ⊆ w_fs r.1 ∧
  size (w_fs r.1) = (size (w_fs w) + length (filter (fun a => written a = true) atts))%nat ∧
  mail_log (w_db r.1) = mail_log (w_db w) ∧
  w_outbox r.1 = w_outbox w ∧
  r.2 = {| scanned := S (scanned c); hits := S (hits c) |}.
Proof.
  intros He r atts. subst r atts. unfold poll_item. rewrite He.
  destruct (extract_token_Some_nonempty _ _ He) as (t0 & t' & ->).
  cbv zeta.
  assert (reply_log (w_db (with_db (insert_reply_log
            {| ra_token := Some (t0 :: t');
               ra_company :=
                 Some (Some (meta_company (get_mail_meta_by_token (t0 :: t') (w_db w))));
               ra_from_email := Some (_sender_email it);
               ra_received_on := Some (received_on_of (it_ReceivedTime it));
               ra_has_attachments := Some (if has_attachments_of it then 1 else 0)%Z;
               ra_parse_ok := Some 0%Z;
               ra_parse_json :=
                 Some (json_dumps_payload (or_empty (it_Subject it)) (body_text_of it));
               ra_collection_id :=
                 Some (Some (meta_collection_id
                               (get_mail_meta_by_token (t0 :: t') (w_db w))));
               ra_product_desc :=
                 Some (Some (meta_product_desc
                               (get_mail_meta_by_token (t0 :: t') (w_db w)))) |}) w))
          = insert_or_ignore_reply
              (reply_of it (t0 :: t') (get_mail_meta_by_token (t0 :: t') (w_db w)))
              (reply_log (w_db w))) as Erl by reflexivity.
  set (w1 := with_db _ w) in *.
  assert (w_fs w1 = w_fs w) as Efs by reflexivity.
  assert (attachment_log (w_db w1) = attachment_log (w_db w)) as Eal by reflexivity.
  assert (mail_log (w_db w1) = mail_log (w_db w)) as Eml by reflexivity.
  assert (w_outbox w1 = w_outbox w) as Eob by reflexivity.
  clearbody w1.
  destruct (has_attachments_of it) eqn:Hatt.
  - match goal with |- context [_save_attachments ?a ?b ?c ?d ?e ?f ?g] =>
      destruct (save_attachments_append a b c d e f g)
        as (Hrecs & Hsub & Hsize & Hml & Hrl & Hob)
    end.
    cbv zeta in Hrecs, Hsub, Hsize, Hml, Hrl, Hob. simpl fst. simpl snd.
    rewrite Hrl, Hml, Hob. rewrite Efs in Hsub, Hsize. rewrite Eal in Hrecs.
    split; [exact Erl|]. split; [exact Hrecs|].
    split; [exact Hsub|]. split; [exact Hsize|]. done.
  - rewrite (has_attachments_none it Hatt). simpl fst. simpl snd.
    split; [exact Erl|]. split; [exists []; by rewrite app_nil_r|].
    split; [by rewrite Efs|]. split; [rewrite Efs; simpl; lia | done].
Qed.

Lemma poll_item_cases it w c :
  (extract_token it = None ∧ poll_item it (w, c) = (w, c)) ∨
  (∃ token, extract_token it = Some token).
Proof.
  destruct (extract_token it) as [token|] eqn:He; [right; by exists token|].
  left. split; [done|]. by apply poll_item_no_token.
Qed.

(** A pass over a list of items. *)
Lemma scan_items its : ∀ w c,
  let r := foldl (fun st it => poll_item it st) (w, c) its in
  let matched := filter (fun it => is_Some (extract_token it)) its in
  let atts := flat_map (fun it => delivered (it_Attachments it)) matched in
  (∃ rows, reply_log (w_db r.1) = reply_log (w_db w) ++ rows ∧
           (length rows ≤ length matched)%nat) ∧
  (∃ recs, attachment_log (w_db r.1) = attachment_log (w_db w) ++ recs ∧
           length recs = length atts) ∧
  w_fs w ⊆ w_fs r.1 ∧
  size (w_fs r.1) = (size (w_fs w) + length (filter (fun a => written a = true) atts))%nat ∧
  mail_log (w_db r.1) = mail_log (w_db w) ∧
  w_outbox r.1 = w_outbox w.
Proof.
  induction its as [|it its IH]; intros w c; cbv zeta.
  - simpl. split; [exists []; by rewrite app_nil_r|].
    split; [exists []; by rewrite app_nil_r|]. split; [done|]. split; [lia | done].
  - cbn [foldl]. rewrite filter_cons.
    destruct (poll_item_cases it w c) as [[He ->]|[token He]].
    + rewrite decide_False by (rewrite He; by intros [? ?]). apply IH.
    + rewrite decide_True by (rewrite He; by eexists). simpl flat_map.
      destruct (poll_item_step it w c token He)
        as (Hrl & (recs1 & Hal & Hlen1) & Hsub & Hsize & Hml & Hob & _).
      cbv zeta in Hrl, Hal, Hlen1, Hsub, Hsize, Hml, Hob.
      destruct (insert_or_ignore_reply_key
                  (reply_of it token (get_mail_meta_by_token token (w_db w)))
                  (reply_log (w_db w)) token (_sender_email it)
                  (received_on_of (it_ReceivedTime it)) eq_refl eq_refl eq_refl)
        as (_ & _ & _ & rows1 & Hrows1 & Hlr1).
      rewrite Hrows1 in Hrl.
      destruct (poll_item it (w, c)) as [w1 c1]. simpl in Hrl, Hal, Hsub, Hsize, Hml, Hob.
      destruct (IH w1 c1) as ((rows & Hrows & Hlr) & (recs & Hrecs & Hlen) & Hsub' &
                              Hsize' & Hml' & Hob').
      cbv zeta in Hrows, Hlr, Hrecs, Hlen, Hsub', Hsize', Hml', Hob'.
      split; [exists (rows1 ++ rows); split;
                [by rewrite Hrows, Hrl, app_assoc | rewrite length_app; simpl; lia]|].
      split; [exists (recs1 ++ recs); split;
                [by rewrite Hrecs, Hal, app_assoc | rewrite !length_app; lia]|].
      split; [by transitivity (w_fs w1)|].
      split; [rewrite Hsize', Hsize, filter_app, length_app; lia|].
      split; congruence.
Qed.

(** Every matched item has a row under its key when the pass is over. *)
Lemma scan_items_keys its : ∀ w c it token,
  it ∈ its → extract_token it = Some token →
  item_reply_key token it
    (reply_log (w_db (foldl (fun st it => poll_item it st) (w, c) its).1)).
Proof.
  induction its as [|it0 its IH]; intros w c it token Hin He; [by apply elem_of_nil in Hin|].
  cbn [foldl]. apply elem_of_cons in Hin as [->|Hin].
  - destruct (poll_item_step it0 w c token He) as (Hrl & _). cbv zeta in Hrl.
    destruct (insert_or_ignore_reply_key
                (reply_of it0 token (get_mail_meta_by_token token (w_db w)))
                (reply_log (w_db w)) token (_sender_email it0)
                (received_on_of (it_ReceivedTime it0)) eq_refl eq_refl eq_refl)
      as (Hkey & _).
    rewrite <- Hrl in Hkey.
    destruct (poll_item it0 (w, c)) as [w1 c1]. simpl in Hkey.
    destruct (scan_items its w1 c1) as ((rows & -> & _) & _).
    by apply has_reply_key_app.
  - destruct (poll_item it0 (w, c)) as [w1 c1]. by apply IH.
Qed.


Lemma examined_same_within_bound folders folders' :
  Forall2 same_within_bound folders folders' → examined folders = examined folders'.
Proof.
  induction 1 as [|f f' folders folders' Hf _ IH]; [done|].
  unfold examined. simpl flat_map. fold (examined folders). fold (examined folders').
  rewrite IH. f_equal. unfold same_within_bound in Hf.
  destruct f as [items|], f' as [items'|]; simpl in *; [|done..].
  injection Hf as Hf. by rewrite Hf.
Qed.

Lemma examined_length folders : (length (examined folders) ≤ POLL_MAX_SCAN * length folders)%nat.
Proof.
  induction folders as [|f folders IH]; [simpl; lia|].
  unfold examined. simpl flat_map. fold (examined folders). rewrite length_app.
  pose proof (length_omap_le id (take POLL_MAX_SCAN (default [] f))) as Hl.
  rewrite length_take in Hl. simpl length. lia.
Qed.

(** X15.  A scan only adds.  The reply log keeps its rows and gets at most
    one new row for each examined item with a token, and afterwards every
    such item has a row under its key; the attachment log keeps its rows
    and gets one row for every attachment these items deliver; the files
    that were there stay as they are, and the files saved are new ones; the
    send log and the sent messages are not touched.  A folder that cannot
    be read is passed over and the scan goes on with the next one. *)
Theorem poll_inbox_appends (folders more : list (option (list (option mail_item))))
    (w : world) :
  let r := poll_inbox folders w in
  (∃ rows, reply_log (w_db r.1) = reply_log (w_db w) ++ rows ∧
           (length rows ≤ length (with_token folders))%nat) ∧
  (∀ it token, it ∈ examined folders → extract_token it = Some token →
               item_reply_key token it (reply_log (w_db r.1))) ∧
  (∃ recs, attachment_log (w_db r.1) = attachment_log (w_db w) ++ recs ∧
           length recs = length (offered folders)) ∧
  w_fs w ⊆ w_fs r.1 ∧
  size (w_fs r.1)
    = (size (w_fs w) + length (filter (fun a => written a = true) (offered folders)))%nat ∧
  mail_log (w_db r.1) = mail_log (w_db w) ∧
  w_outbox r.1 = w_outbox w ∧
  poll_inbox (folders ++ None :: more) w = poll_inbox (folders ++ more) w.
Proof.
  intros r. subst r. unfold poll_inbox. rewrite !poll_folders_fold.
  destruct (scan_items (examined folders) w {| scanned := 0; hits := 0 |})
    as (Hrows & Hrecs & Hsub & Hsize & Hml & Hob).
  cbv zeta in Hrows, Hrecs, Hsub, Hsize, Hml, Hob.
  split; [exact Hrows|]. split; [intros it token; apply scan_items_keys|].
  split; [exact Hrecs|]. split; [exact Hsub|]. split; [exact Hsize|].
  split; [exact Hml|]. split; [exact Hob|].
  f_equal. unfold examined. rewrite !flat_map_app. simpl. by rewrite take_nil.
Qed.


(** X17.  The scan bound.  Of every folder only the first [POLL_MAX_SCAN]
    items, newest first, take part: two lists of folders that agree on
    these give the same logs, files and counters, whatever stands after
    them, and no more than [POLL_MAX_SCAN] items for each folder are
    examined or counted. *)
Theorem scan_bound (folders folders' : list (option (list (option mail_item))))
    (w : world) :
  Forall2 same_within_bound folders folders' →
  poll_inbox folders w = poll_inbox folders' w ∧
  (length (examined folders) ≤ POLL_MAX_SCAN * length folders)%nat ∧
  (hits (poll_inbox folders w).2 ≤ POLL_MAX_SCAN * length folders)%nat.
Proof.
  intros Hsame. split; [|split].
  - unfold poll_inbox. rewrite !poll_folders_fold.
    by rewrite (examined_same_within_bound _ _ Hsame).
  - apply examined_length.
  - destruct (poll_inbox_counters folders w) as (-> & _).
    unfold with_token. etransitivity; [apply length_filter | apply examined_length].
Qed.

(** X18.  A reply is filed under what was sent.  After a successful
    [send_one], an item whose subject is the subject of the sent message,
    with or without text before it that has no opening bracket (a reply
    prefix), is matched to the token of that message, and the row handed
    to the reply log carries the company, the collection and the
    description given to [send_one]; the row is added unless the reply log
    has a row of its key already. *)
Theorem reply_carries_send_metadata (env : send_env)
    (to_email company collection_id product_desc : list N) (tpl : template)
    (paths : list (list N)) (w w' : world) (token subject pre : list N)
    (it : mail_item) (c : counters) :
  send_one env to_email company collection_id product_desc tpl paths w
    = (w', Some (token, subject)) →
  chr "[" ∉ pre →
  it_Subject it = Some (pre ++ subject) →
  let r := poll_item it (w', c) in
  let row := reply_of it token
               {| meta_company := company; meta_collection_id := collection_id;
                  meta_product_desc := product_desc |} in
  extract_token it = Some token ∧
  reply_log (w_db r.1) = insert_or_ignore_reply row (reply_log (w_db w)) ∧
  (¬ item_reply_key token it (reply_log (w_db w)) →
     reply_log (w_db r.1) = reply_log (w_db w) ++ [row]) ∧
  hits r.2 = S (hits c) ∧
  mail_log (w_db r.1) = mail_log (w_db w').
Proof.
  intros Hsend Hpre Hsubj r row. subst r row.
  apply send_one_recorded in Hsend as (Htok & -> & Hrl & Hmeta).
  assert (extract_token it = Some token) as He.
  { apply (extract_token_reply pre); [done | | done].
    rewrite Htok. apply token_grammar_like, issue_token_grammar. }
  destruct (poll_item_step it w' c token He) as (Hstep & _ & _ & _ & Hml & _ & Hc).
  cbv zeta in Hstep, Hml, Hc. rewrite Hmeta, Hrl in Hstep.
  split; [done|]. split; [done|]. split; [|split; [by rewrite Hc | done]].
  intros Hkey. rewrite Hstep.
  match goal with |- insert_or_ignore_reply ?row ?t = _ =>
    destruct (insert_or_ignore_reply_key row t token (_sender_email it)
                (received_on_of (it_ReceivedTime it)) eq_refl eq_refl eq_refl)
      as (_ & _ & Hnew & _)
  end.
  by apply Hnew.
Qed.

(** X19.  The token of a reply is not checked against the send log.  An
    item with a token that has no send record, one that was never issued,
    is recorded and counted like any other match: its row goes to the reply
    log with the empty string for company, collection and description, and
    what it has attached is logged, one row for each attachment. *)
Theorem unknown_token_recorded (it : mail_item) (w : world) (c : counters)
    (token : list N) :
  extract_token it = Some token →
  rows_with_token token (mail_log (w_db w)) = [] →
  let r := poll_item it (w, c) in
  reply_log (w_db r.1) = insert_or_ignore_reply (reply_of it token no_meta) (reply_log (w_db w)) ∧
  (¬ item_reply_key token it (reply_log (w_db w)) →
     reply_log (w_db r.1) = reply_log (w_db w) ++ [reply_of it token no_meta]) ∧
  hits r.2 = S (hits c) ∧ scanned r.2 = S (scanned c) ∧
  ∃ recs, attachment_log (w_db r.1) = attachment_log (w_db w) ++ recs ∧
          length recs = length (delivered (it_Attachments it)).
Proof.
  intros He Hnone r. subst r.
  destruct (poll_item_step it w c token He) as (Hstep & Hrecs & _ & _ & _ & _ & Hc).
  cbv zeta in Hstep, Hrecs, Hc.
  assert (get_mail_meta_by_token token (w_db w) = no_meta) as Hmeta.
  { by rewrite meta_of_latest, Hnone. }
  rewrite Hmeta in Hstep.
  split; [done|]. split; [|split; [by rewrite Hc|split; [by rewrite Hc | done]]].
  intros Hkey. rewrite Hstep.
  match goal with |- insert_or_ignore_reply ?row ?t = _ =>
    destruct (insert_or_ignore_reply_key row t token (_sender_email it)
                (received_on_of (it_ReceivedTime it)) eq_refl eq_refl eq_refl)
      as (_ & _ & Hnew & _)
  end.
  by apply Hnew.
Qed.

(** X20.  The body text kept with a reply is the plain body when there is
    one, else the HTML body with its markup stripped, cut to its first
    [MAX_BODY_TEXT_CHARS] (100000) characters: it is never longer than
    that, and an item with neither body gives the empty text. *)
Theorem body_text_bounded (it : mail_item) :
  let max := N.to_nat MAX_BODY_TEXT_CHARS in
  (length (body_text_of it) ≤ max)%nat ∧
  (truthy (or_empty (it_Body it)) = true →
     body_text_of it = take max (or_empty (it_Body it))) ∧
  (truthy (or_empty (it_Body it)) = false → truthy (or_empty (it_HTMLBody it)) = true →
     body_text_of it = take max (strip_markup (or_empty (it_HTMLBody it)))) ∧
  (truthy (or_empty (it_Body it)) = false → truthy (or_empty (it_HTMLBody it)) = false →
     body_text_of it = []).
Proof.
  intros max.
  assert (∀ s : list N,
            (if (MAX_BODY_TEXT_CHARS <? N.of_nat (length s))%N
             then take (N.to_nat MAX_BODY_TEXT_CHARS) s else s) = take max s) as Hcut.
  { intros s. subst max.
    destruct (N.ltb_spec MAX_BODY_TEXT_CHARS (N.of_nat (length s))) as [_|Hle]; [done|].
    rewrite take_ge; [done | lia]. }
  unfold body_text_of. cbv zeta. rewrite Hcut.
  split; [rewrite length_take; lia|].
  destruct (truthy (or_empty (it_Body it))) eqn:Hb.
  - split; [done|]. split; done.
  - split; [done|]. destruct (truthy (or_empty (it_HTMLBody it))) eqn:Hh.
    + split; done.
    + split; [done|]. intros _ _. destruct (or_empty (it_Body it)); [|done].
      by rewrite take_nil.
Qed.
End ScanProofs.

Lemma scan_bound_witness :
  let a := plain_item "[ABA#12AB34CD] Re: Invitation" "first" in
  let b := plain_item "Weekly newsletter" "nothing to correlate" in
  let c := plain_item "[ABA#00000000] Re: Invitation" "third" in
  @poll_inbox config_small sample_runtime [Some [Some a; Some b; Some c]] empty_world
    = @poll_inbox config_small sample_runtime [Some [Some a; Some b]] empty_world ∧
  hits (@poll_inbox config_small sample_runtime [Some [Some a; Some b; Some c]]
          empty_world).2 = 1%nat.
Proof.
  intros a b c.
  destruct (@scan_bound config_small sample_runtime
              [Some [Some a; Some b; Some c]] [Some [Some a; Some b]] empty_world)
    as (Hsame & _ & _).
  - constructor; [reflexivity | constructor].
  - split; [exact Hsame | by vm_compute].
Defined.

Lemma reply_carries_send_metadata_witness :
  let sent := send_one (env_ok 0xdeadbeef4c2d4e119a6b0242ac120002) (lit "a@x.com")
                (lit "Acme") (lit "T1") (lit "bolts") plain_template [] empty_world in
  let it := plain_item "RE: [ABA#DEADBEEF] Invitation to Partner with Amazon Private Brands"
              "We are interested." in
  let r := @poll_item config_py sample_runtime it (sent.1, {| scanned := 0; hits := 0 |}) in
  extract_token it = Some (lit "ABA#DEADBEEF") ∧
  ∃ row, reply_log (w_db r.1) = [row] ∧ r_token row = Some (lit "ABA#DEADBEEF") ∧
         r_company row = Some (lit "Acme") ∧ r_collection_id row = Some (lit "T1") ∧
         r_product_desc row = Some (lit "bolts").
Proof.
  intros sent it r.
  destruct (@reply_carries_send_metadata config_py sample_runtime
              (env_ok 0xdeadbeef4c2d4e119a6b0242ac120002) (lit "a@x.com")
              (lit "Acme") (lit "T1") (lit "bolts") plain_template [] empty_world sent.1
              (lit "ABA#DEADBEEF")
              (lit "[ABA#DEADBEEF] Invitation to Partner with Amazon Private Brands")
              (lit "RE: ") it {| scanned := 0; hits := 0 |})
    as (He & _ & Hnew & _).
  - reflexivity.
  - apply (bool_decide_unpack (chr "[" ∉ lit "RE: ")). by vm_compute.
  - reflexivity.
  - split; [exact He|]. eexists. split; [apply Hnew; intros Hk; by apply Hk|].
    repeat split.
Defined.

Lemma unknown_token_recorded_witness :
  let it := plain_item "[ABA#ZZZZ9999] our offer" "see the sheet" in
  let r := @poll_item config_py sample_runtime it
             (empty_world, {| scanned := 0; hits := 0 |}) in
  reply_log (w_db r.1) = [@reply_of sample_runtime it (lit "ABA#ZZZZ9999") no_meta] ∧
  hits r.2 = 1%nat.
Proof.
  intros it r.
  destruct (@unknown_token_recorded config_py sample_runtime it empty_world
              {| scanned := 0; hits := 0 |} (lit "ABA#ZZZZ9999"))
    as (_ & Hnew & Hh & _).
  - by vm_compute.
  - reflexivity.
  - split; [apply Hnew; intros Hk; by apply Hk | exact Hh].
Defined.

(** Two scans of a folder with one reply that has one attachment: one
    reply row, two attachment rows, two files. *)
Example rescan_duplicates_files :
  let it := item_with_attachments "[ABA#12AB34CD] Re: Invitation"
              [Some (sample_attachment "quote.xlsx" 1000 true)] in
  let w1 := (@poll_inbox config_py sample_runtime [Some [Some it]] empty_world).1 in
  let w2 := (@poll_inbox config_py sample_runtime [Some [Some it]] w1).1 in
  length (reply_log (w_db w2)) = 1%nat ∧
  length (attachment_log (w_db w1)) = 1%nat ∧
  length (attachment_log (w_db w2)) = 2%nat ∧
  map a_saved_path (attachment_log (w_db w2))
    = [Some (lit "C:\app\attachments\uncategorized\attachment_ABA#12AB34CD.xlsx");
       Some (lit "C:\app\attachments\uncategorized\attachment_ABA#12AB34CD(1).xlsx")] ∧
  size (w_fs w2) = 2%nat.
Proof. by vm_compute. Qed.

(** ** The names of the captured files (poller.py, [_save_attachments]) *)



Section NameProofs.
Context `{Settings} `{Runtime}.



End NameProofs.
